(** * Drone detection proof of concept: buffering, warmup and analysis

    A shallow embedding of [hackrf_sweep_classes.py] (the ring buffer and the
    [SignalStore] with its warmup logic) and of the analysis functions of
    [listen.py], followed by the properties established about them.

    Conventions of the embedding.
    - Python integers are [Z]; list positions, which the code only ever
      produces as non-negative counters, are [nat].
    - Signal strengths are Python floats, that is IEEE 754 binary64: they are
      the kernel's primitive [float]s.
    - A [datetime] parsed with one-second resolution is the number of seconds
      since an arbitrary origin, a [Z]; a [timedelta] is a [Z] of seconds.
    - A [dict] keyed by bucket frequency is a [gmap Z _].  No function below
      depends on the insertion order of a dict: every iteration that matters
      goes through [sorted(...)].
    - A raised exception is a value of [exn]; code that can raise after it
      has mutated the store returns the store together with the outcome.
    - The per-buffer [Lock] is not modelled: calls are sequential here. *)

From Stdlib Require Import ZArith List Lia Bool Floats.
From stdpp Require Import base option list gmap sorting.

Open Scope Z_scope.

(** ** Exceptions *)

(** The exception classes the modelled code can raise. [Exception] is the
    bare [Exception("no measurements yet, unknown bucket width!")]. *)
Inductive exn : Set :=
| IndexError
| KeyError
| ZeroDivisionError
| Exception.

(** ** hackrf_sweep_classes.py: [SignalStore._ringbuf] *)

Module RingBuf.
Section ringbuf.
Context {A : Type}.

Record ringbuf : Type := mk_ringbuf {
  _size : Z;
  _cursor : nat;
  _data : list A;
  _full : bool
}.

(** [__init__(self, size)] *)
Definition init (size : Z) : ringbuf :=
  {| _size := size; _cursor := 0%nat; _data := []; _full := false |}.

(** [add(self, val)].  [self._data[self._cursor] = val] raises [IndexError]
    on a position past the end; the modulus raises [ZeroDivisionError] on an
    empty list. *)
Definition add (val : A) (rb : ringbuf) : exn + ringbuf :=
  if _full rb then
    if (_cursor rb <? length (_data rb))%nat then
      let data := <[_cursor rb := val]> (_data rb) in
      if (length data =? 0)%nat then inl ZeroDivisionError
      else inr {| _size := _size rb;
                  _cursor := ((_cursor rb + 1) mod length data)%nat;
                  _data := data;
                  _full := true |}
    else inl IndexError
  else
    let data := _data rb ++ [val] in
    inr {| _size := _size rb;
           _cursor := _cursor rb;
           _data := data;
           _full := if Z.of_nat (length data) >=? _size rb then true
                    else _full rb |}.

(** [get_data_copy(self)] *)
Definition get_data_copy (rb : ringbuf) : list A :=
  if _full rb then
    drop (_cursor rb) (_data rb) ++ take (_cursor rb) (_data rb)
  else _data rb.

(** [is_full(self)] *)
Definition is_full (rb : ringbuf) : bool := _full rb.

(** A sequence of [add] calls, oldest first; it stops at the first call
    that raises. *)
Fixpoint add_all (vals : list A) (rb : ringbuf) : exn + ringbuf :=
  match vals with
  | [] => inr rb
  | v :: vals' =>
      match add v rb with
      | inr rb' => add_all vals' rb'
      | inl e => inl e
      end
  end.

(** What a buffer of capacity [n] is meant to hold after the values of
    [hist] were added in order: the last [n] of them. *)
Definition most_recent (n : nat) (hist : list A) : list A :=
  drop (length hist - n)%nat hist.

(** The representation invariant linking a buffer to its history. *)
Definition represents (n : nat) (hist : list A) (rb : ringbuf) : Prop :=
  _size rb = Z.of_nat n ∧
  if _full rb then
    length (_data rb) = n ∧ (_cursor rb < n)%nat ∧
    drop (_cursor rb) (_data rb) ++ take (_cursor rb) (_data rb)
      = most_recent n hist
  else
    _data rb = hist ∧ (length hist < n)%nat ∧ _cursor rb = 0%nat.

(** A buffer on which [add] cannot raise, now or after further [add]s. *)
Definition wf (rb : ringbuf) : Prop :=
  (_cursor rb < length (_data rb))%nat ∨
  (_full rb = false ∧ _cursor rb = 0%nat).
End ringbuf.
Arguments ringbuf : clear implicits.
End RingBuf.


Import RingBuf.

(** ** hackrf_sweep_classes.py: [Measurement] *)

Record Measurement : Set := mk_Measurement {
  datetime : Z;
  hz_low : Z;
  hz_high : Z;
  db : float
}.

(** ** hackrf_sweep_classes.py: [SignalStore] *)

(** The store's attributes.  [config] is the dictionary the driver builds,
    [{'skip_analysis': None | True}]; only the truth value of that entry is
    ever read.  [_bucket_width] starts as Python's [None]. *)
Record SignalStore : Type := mk_SignalStore {
  _ranges : gmap Z (ringbuf Measurement);
  _BUFSIZE : Z;
  _bucket_width : option Z;
  config_skip_analysis : bool;
  _warmed_up : bool;
  _warmup_measurement_count : Z;
  _warmup_bucket_frequency : Z;
  _warmup_first_datetime : Z;
  _warmup_resize_ringbufs : bool
}.

(** [SignalStore.__init__(self, config)] *)
Definition SignalStore_init (skip_analysis : bool) : SignalStore :=
  {| _ranges := ∅;
     _BUFSIZE := 200;
     _bucket_width := None;
     config_skip_analysis := skip_analysis;
     _warmed_up := false;
     _warmup_measurement_count := 0;
     _warmup_bucket_frequency := 0;
     _warmup_first_datetime := 0;
     _warmup_resize_ringbufs := false |}.

(** Attribute assignments. *)
Definition set_ranges (v : gmap Z (ringbuf Measurement)) (s : SignalStore) :=
  mk_SignalStore v (_BUFSIZE s) (_bucket_width s) (config_skip_analysis s)
    (_warmed_up s) (_warmup_measurement_count s) (_warmup_bucket_frequency s)
    (_warmup_first_datetime s) (_warmup_resize_ringbufs s).
Definition set_BUFSIZE (v : Z) (s : SignalStore) :=
  mk_SignalStore (_ranges s) v (_bucket_width s) (config_skip_analysis s)
    (_warmed_up s) (_warmup_measurement_count s) (_warmup_bucket_frequency s)
    (_warmup_first_datetime s) (_warmup_resize_ringbufs s).
Definition set_bucket_width (v : option Z) (s : SignalStore) :=
  mk_SignalStore (_ranges s) (_BUFSIZE s) v (config_skip_analysis s)
    (_warmed_up s) (_warmup_measurement_count s) (_warmup_bucket_frequency s)
    (_warmup_first_datetime s) (_warmup_resize_ringbufs s).
Definition set_warmed_up (v : bool) (s : SignalStore) :=
  mk_SignalStore (_ranges s) (_BUFSIZE s) (_bucket_width s)
    (config_skip_analysis s) v (_warmup_measurement_count s)
    (_warmup_bucket_frequency s) (_warmup_first_datetime s)
    (_warmup_resize_ringbufs s).
Definition set_warmup_measurement_count (v : Z) (s : SignalStore) :=
  mk_SignalStore (_ranges s) (_BUFSIZE s) (_bucket_width s)
    (config_skip_analysis s) (_warmed_up s) v (_warmup_bucket_frequency s)
    (_warmup_first_datetime s) (_warmup_resize_ringbufs s).
Definition set_warmup_bucket_frequency (v : Z) (s : SignalStore) :=
  mk_SignalStore (_ranges s) (_BUFSIZE s) (_bucket_width s)
    (config_skip_analysis s) (_warmed_up s) (_warmup_measurement_count s) v
    (_warmup_first_datetime s) (_warmup_resize_ringbufs s).
Definition set_warmup_first_datetime (v : Z) (s : SignalStore) :=
  mk_SignalStore (_ranges s) (_BUFSIZE s) (_bucket_width s)
    (config_skip_analysis s) (_warmed_up s) (_warmup_measurement_count s)
    (_warmup_bucket_frequency s) v (_warmup_resize_ringbufs s).
Definition set_warmup_resize_ringbufs (v : bool) (s : SignalStore) :=
  mk_SignalStore (_ranges s) (_BUFSIZE s) (_bucket_width s)
    (config_skip_analysis s) (_warmed_up s) (_warmup_measurement_count s)
    (_warmup_bucket_frequency s) (_warmup_first_datetime s) v.

(** Methods run in a state-and-exception monad over the store: a call
    returns the store as it left it, with either a value or the exception it
    raised. *)
Definition M (A : Type) : Type := SignalStore → SignalStore * (exn + A).

Definition ret {A} (a : A) : M A := λ s, (s, inr a).
Definition raise {A} (e : exn) : M A := λ s, (s, inl e).
Definition bind {A B} (m : M A) (k : A → M B) : M B :=
  λ s, match m s with
       | (s', inr a) => k a s'
       | (s', inl e) => (s', inl e)
       end.
Definition self : M SignalStore := λ s, (s, inr s).
Definition assign (f : SignalStore → SignalStore) : M unit :=
  λ s, (f s, inr tt).

Notation "x <~ m ; k" := (bind m (λ x, k))
  (at level 20, m at level 100, k at level 200, only parsing).
Notation "m ;> k" := (bind m (λ _, k))
  (at level 100, k at level 200, right associativity, only parsing).

(** [for x in xs: body(x)] *)
Fixpoint for_each {A} (xs : list A) (body : A → M unit) : M unit :=
  match xs with
  | [] => ret tt
  | x :: xs' => body x ;> for_each xs' body
  end.

(** Python truth values of an int and of an int-or-[None]. *)
Definition truthy (z : Z) : bool := negb (z =? 0).
Definition truthy_opt (o : option Z) : bool :=
  match o with Some z => truthy z | None => false end.

(** [measurements[0]] *)
Definition first_of (measurements : list Measurement) : M Measurement :=
  match measurements !! 0%nat with
  | Some m => ret m
  | None => raise IndexError
  end.

(** [is_warmed_up(self)] *)
Definition is_warmed_up (s : SignalStore) : bool := _warmed_up s.

(** [get_bucket_width(self)] *)
Definition get_bucket_width : M Z :=
  s <~ self ;
  match _bucket_width s with
  | Some w => if truthy w then ret w else raise Exception
  | None => raise Exception
  end.

(** [get_measurements_copy(self)] *)
Definition get_measurements_copy : M (gmap Z (list Measurement)) :=
  s <~ self ;
  ret (get_data_copy <$> _ranges s).

(** Lines 132-144 of [add_measurements]: act on the resize signal.  The
    loop [for k in tmpkeys: del(self._ranges[k])] is the fold below. *)
Definition complete_warmup : M unit :=
  s <~ self ;
  if negb (is_warmed_up s) && _warmup_resize_ringbufs s then
    assign (set_warmup_resize_ringbufs false) ;>
    assign (λ s, set_BUFSIZE (_warmup_measurement_count s) s) ;>
    assign (λ s, let tmpkeys := elements (dom (_ranges s)) in
                 set_ranges (foldr delete (_ranges s) tmpkeys) s) ;>
    assign (set_warmed_up true)
  else ret tt.

(** Lines 150-158: the warmup bookkeeping for one measurement. *)
Definition warmup_count (m : Measurement) : M unit :=
  s <~ self ;
  if negb (is_warmed_up s) && (_warmup_bucket_frequency s =? hz_low m) then
    assign (λ s, set_warmup_measurement_count
                   (_warmup_measurement_count s + 1) s) ;>
    s <~ self ;
    if datetime m - _warmup_first_datetime s >? 1 then
      assign (set_warmup_resize_ringbufs true)
    else ret tt
  else ret tt.

(** [self._ranges[k].add(m)] on a buffer that is in the dict. *)
Definition add_to (k : Z) (rb : ringbuf Measurement) (m : Measurement)
  : M unit :=
  match add m rb with
  | inr rb' => assign (λ s, set_ranges (<[k := rb']> (_ranges s)) s)
  | inl e => raise e
  end.

(** Lines 161-166: route one measurement, creating the buffer on the
    [KeyError] of the first attempt. *)
Definition route (m : Measurement) : M unit :=
  s <~ self ;
  match _ranges s !! hz_low m with
  | Some rb => add_to (hz_low m) rb m
  | None =>
      let rb := init (_BUFSIZE s) in
      assign (λ s, set_ranges (<[hz_low m := rb]> (_ranges s)) s) ;>
      add_to (hz_low m) rb m
  end.

(** [add_measurements(self, measurements)] *)
Definition add_measurements (measurements : list Measurement) : M unit :=
  s <~ self ;
  (if negb (truthy_opt (_bucket_width s)) then
     m <~ first_of measurements ;
     assign (set_bucket_width (Some (hz_high m - hz_low m)))
   else ret tt) ;>
  s <~ self ;
  (if negb (truthy (_warmup_bucket_frequency s)) then
     m <~ first_of measurements ;
     assign (set_warmup_bucket_frequency (hz_low m)) ;>
     m' <~ first_of measurements ;
     assign (set_warmup_first_datetime (datetime m'))
   else ret tt) ;>
  complete_warmup ;>
  for_each measurements (λ m, warmup_count m ;> route m).

(** The driver's sequence of [add_measurements] calls, one batch per input
    line; as in [handle_input], nothing catches an exception, so the
    sequence ends at the first call that raises. *)
Fixpoint ingest (batches : list (list Measurement)) : M unit :=
  match batches with
  | [] => ret tt
  | b :: batches' => add_measurements b ;> ingest batches'
  end.

(** ** hackrf_sweep_classes.py: [HackSweepLine] *)

(** The object [HackSweepLine(line)] builds, with the fields [__init__]
    parses out of the text; the parsing itself ([split], [strptime],
    [int], [float]) is not modelled.  [to_measurements] works on these
    fields only. *)
Module HackSweepLine.

(** What [to_measurements] can raise: two more classes than [exn] has. *)
Inductive error : Set :=
| OverflowError
| ValueError
| Raised (e : exn).

Record t : Set := mk {
  datetime : Z;
  hz_low : Z;
  hz_high : Z;
  hz_bin_width : float;
  num_samples : Z;
  samples : list float
}.

(** The conversion of an int to a float that [int / float] starts with:
    round to nearest, ties to even; [OverflowError] when the result would
    not be finite. *)
Definition float_of_int (z : Z) : error + float :=
  match SpecFloat.binary_normalize prec emax z 0 false with
  | S754_infinity _ => inl OverflowError
  | sf => inr (SF2Prim sf)
  end.

(** [a / b] for an int [a] and a float [b]. *)
Definition int_truediv (a : Z) (b : float) : error + float :=
  match float_of_int a with
  | inl e => inl e
  | inr a' =>
      if PrimFloat.eqb b 0%float then inl (Raised ZeroDivisionError)
      else inr (a' / b)%float
  end.

(** [int(x)] for a float: truncation towards zero. *)
Definition int_of_float (x : float) : error + Z :=
  match Prim2SF x with
  | S754_nan => inl ValueError
  | S754_infinity _ => inl OverflowError
  | S754_zero _ => inr 0
  | S754_finite s m e =>
      let a := if 0 <=? e then Zpos m * 2 ^ e else Zpos m / 2 ^ (- e) in
      inr (if s then - a else a)
  end.

(** [n != x] for an int [n] and a float [x]: the exact values are
    compared. *)
Definition int_ne_float (n : Z) (x : float) : bool :=
  match Prim2SF x with
  | S754_nan | S754_infinity _ => true
  | S754_zero _ => negb (n =? 0)
  | S754_finite s m e =>
      let v := if s then Zneg m else Zpos m in
      if 0 <=? e then negb (n =? v * 2 ^ e) else negb (n * 2 ^ (- e) =? v)
  end.

(** [range(start, stop, step)], as the list it iterates over. *)
Definition range (start stop step : Z) : error + list Z :=
  if step =? 0 then inl ValueError
  else
    let len :=
      if 0 <? step then
        if start <? stop then 1 + (stop - 1 - start) / step else 0
      else
        if stop <? start then 1 + (start - 1 - stop) / (- step) else 0 in
    inr ((λ i, start + Z.of_nat i * step) <$> seq 0 (Z.to_nat len)).

(** The loop of lines 199-202. *)
Fixpoint build (self : t) (hz_bin_width : Z) (fs : list Z) (i : nat)
    (measurements : list Measurement) : error + list Measurement :=
  match fs with
  | [] => inr measurements
  | f :: fs' =>
      match samples self !! i with
      | None => inl (Raised IndexError)
      | Some sample =>
          let m := mk_Measurement (datetime self) f (f + hz_bin_width) sample in
          build self hz_bin_width fs' (i + 1)%nat (measurements ++ [m])
      end
  end.

(** [to_measurements(self)] *)
Definition to_measurements (self : t) : error + list Measurement :=
  match int_truediv (hz_high self - hz_low self) (hz_bin_width self) with
  | inl e => inl e
  | inr quotient =>
  match int_of_float quotient with
  | inl e => inl e
  | inr num_buckets =>
  match int_of_float (hz_bin_width self) with
  | inl e => inl e
  | inr hz_bin_width' =>
  if int_ne_float hz_bin_width' (hz_bin_width self)
  then inl (Raised Exception)
  else
    match range (hz_low self) (hz_high self) hz_bin_width' with
    | inl e => inl e
    | inr fs => build self hz_bin_width' fs 0 []
    end
  end end end.

End HackSweepLine.

(** ** listen.py: Python built-ins used by the analysis *)

(** [sorted(xs)]: a stable sort that compares with [<] only.  An element is
    placed in front of the first later element that is not smaller, so equal
    elements keep their order.  Where [<] orders the elements (the integer
    keys, and floats without a NaN) this is the list every stable sort
    returns.  With a NaN among the floats [<] is not an order, and what
    CPython's [sorted] returns then follows from the comparisons its merge
    sort happens to make, which this insertion does not reproduce:
    [sorted([1.0, 0.0, nan, -1.0])] is [[-1.0, 0.0, 1.0, nan]] there and
    [[0.0, 1.0, nan, -1.0]] here.  Of the sorted strengths the properties
    below use the length only, or evaluate them on lists without a NaN. *)
Fixpoint insort {A} (lt : A → A → bool) (x : A) (xs : list A) : list A :=
  match xs with
  | [] => [x]
  | y :: xs' => if lt y x then y :: insort lt x xs' else x :: y :: xs'
  end.
Definition sorted {A} (lt : A → A → bool) (xs : list A) : list A :=
  foldr (insort lt) [] xs.

(** [float(n)] for the list lengths that divide a sum. *)
Definition float_of_nat (n : nat) : float :=
  PrimFloat.of_uint63 (Uint63.of_Z (Z.of_nat n)).

(** [sum(xs)] on floats ([fsum] here, [sum] being the name of a type): the
    integer [0] it starts from becomes [0.0] at the first addition.  (Left-to-right additions; no property below depends on
    how the interpreter rounds the sum.) *)
Definition fsum (xs : list float) : float :=
  fold_left PrimFloat.add xs 0%float.

(** A [dict] whose order of insertion is observable ([.values()] feeds a
    stable sort): an association list, oldest key first. *)
Definition dict (V : Type) : Type := list (Z * V).
Definition keys {V} (d : dict V) : list Z := fst <$> d.
Definition values {V} (d : dict V) : list V := snd <$> d.
Fixpoint getitem {V} (d : dict V) (k : Z) : exn + V :=
  match d with
  | [] => inl KeyError
  | (k', v) :: d' => if k' =? k then inr v else getitem d' k
  end.
Fixpoint setitem {V} (d : dict V) (k : Z) (v : V) : dict V :=
  match d with
  | [] => [(k, v)]
  | (k', v') :: d' =>
      if k' =? k then (k', v) :: d' else (k', v') :: setitem d' k v
  end.

(** ** listen.py: the analysis functions *)

(** [compute_noise_floor(average_bucket_strengths)] *)
Definition compute_noise_floor (average_bucket_strengths : dict float)
  : exn + float :=
  let sorted_dbs := sorted PrimFloat.ltb (values average_bucket_strengths) in
  let quarter_len := (length sorted_dbs / 4)%nat in
  if (quarter_len =? 0)%nat then inl ZeroDivisionError
  else inr (fsum (take quarter_len sorted_dbs) / float_of_nat quarter_len)%float.

Definition SQUELCH : float := 3%float.

(** The loop of [find_signal_buckets] over the sorted keys. *)
Fixpoint find_signal_loop (average_bucket_strengths : dict float)
    (noise_floor : float) (ks : list Z)
    (has_signal : list Z) (signal_strengths : list float)
  : exn + (list Z * list float) :=
  match ks with
  | [] => inr (has_signal, signal_strengths)
  | k :: ks' =>
      match getitem average_bucket_strengths k with
      | inl e => inl e
      | inr strength =>
          if PrimFloat.ltb (noise_floor + SQUELCH)%float strength then
            find_signal_loop average_bucket_strengths noise_floor ks'
              (has_signal ++ [k]) (signal_strengths ++ [strength])
          else
            find_signal_loop average_bucket_strengths noise_floor ks'
              has_signal signal_strengths
      end
  end.

(** [find_signal_buckets(average_bucket_strengths, noise_floor)] *)
Definition find_signal_buckets (average_bucket_strengths : dict float)
    (noise_floor : float) : exn + (list Z * list float) :=
  find_signal_loop average_bucket_strengths noise_floor
    (sorted Z.ltb (keys average_bucket_strengths)) [] [].

(** [[ bucket_ranges[f] for f in has_signal ]] *)
Fixpoint lookup_ranges (bucket_ranges : gmap Z (Z * Z)) (has_signal : list Z)
  : exn + list (Z * Z) :=
  match has_signal with
  | [] => inr []
  | f :: fs =>
      match bucket_ranges !! f with
      | None => inl KeyError
      | Some r =>
          match lookup_ranges bucket_ranges fs with
          | inl e => inl e
          | inr rs => inr (r :: rs)
          end
      end
  end.

(** The two [while] loops of [get_contiguous_regions] recurse on a bound on
    the number of iterations; [None] means the bound was reached. *)

(** Lines 80-86: the inner loop, from position [i] with the current [end].
    It returns the position and the [end] it stops with. *)
Fixpoint extend_region (bound : nat) (signal_ranges : list (Z * Z))
    (i : nat) (end_ : Z) : option (exn + nat * Z) :=
  match bound with
  | O => None
  | S bound' =>
      match signal_ranges !! i, signal_ranges !! (i + 1)%nat with
      | Some a, Some b =>
          if snd a =? fst b then
            let end_ := fst b in
            let i := (i + 1)%nat in
            if (length signal_ranges - 1 <=? i)%nat then Some (inr (i, end_))
            else extend_region bound' signal_ranges i end_
          else Some (inr (i, end_))
      | _, _ => Some (inl IndexError)
      end
  end.

(** Lines 72-94: the outer loop. *)
Fixpoint collect_regions (bound : nat) (signal_ranges : list (Z * Z))
    (i : nat) (contiguous_regions : list (Z * Z))
  : option (exn + list (Z * Z)) :=
  match bound with
  | O => None
  | S bound' =>
      match signal_ranges !! i with
      | None => Some (inl IndexError)
      | Some a =>
          let start := fst a in
          let end_ := snd a in
          match extend_region (length signal_ranges) signal_ranges i end_ with
          | None => None
          | Some (inl e) => Some (inl e)
          | Some (inr (i, end_)) =>
              let contiguous_regions := contiguous_regions ++ [(start, end_)] in
              let i := (i + 1)%nat in
              if (length signal_ranges - 1 <=? i)%nat
              then Some (inr contiguous_regions)
              else collect_regions bound' signal_ranges i contiguous_regions
          end
      end
  end.

(** [get_contiguous_regions(bucket_width, bucket_ranges, has_signal,
    signal_strengths)] *)
Definition get_contiguous_regions (bucket_width : Z)
    (bucket_ranges : gmap Z (Z * Z)) (has_signal : list Z)
    (signal_strengths : list float) : option (exn + list (Z * Z)) :=
  match lookup_ranges bucket_ranges has_signal with
  | inl e => Some (inl e)
  | inr signal_ranges =>
      if (2 <? length signal_ranges)%nat then
        collect_regions (length signal_ranges) signal_ranges 0 []
      else Some (inr [])
  end.

Definition BANDWIDTH_THRESHOLD : Z := 10000.

(** [get_drone_regions(contiguous_signal_regions)] *)
Definition get_drone_regions (contiguous_signal_regions : list (Z * Z))
  : list (Z * Z) :=
  filter (λ r, BANDWIDTH_THRESHOLD < snd r - fst r) contiguous_signal_regions.

(** Lines 133-141 of [analyze]: the per-bucket averages, lowest frequency
    first. *)
Fixpoint average_loop (measurements : gmap Z (list Measurement))
    (fs : list Z) (averages : dict float) : exn + dict float :=
  match fs with
  | [] => inr averages
  | f :: fs' =>
      match measurements !! f with
      | None => inl KeyError
      | Some ms =>
          if negb (length ms =? 0)%nat then
            let avg_db := (fsum (db <$> ms) / float_of_nat (length ms))%float in
            average_loop measurements fs' (setitem averages f avg_db)
          else average_loop measurements fs' averages
      end
  end.
Definition average_strengths (measurements : gmap Z (list Measurement))
  : exn + dict float :=
  average_loop measurements (sorted Z.ltb (elements (dom measurements))) [].

(** [{ f: (f, f + bucket_width) for f in averages.keys() }] *)
Definition make_bucket_ranges (bucket_width : Z) (averages : dict float)
  : gmap Z (Z * Z) :=
  list_to_map ((λ f, (f, (f, f + bucket_width))) <$> keys averages).

(** [analyze] returns nothing and prints its verdict; what it computed when
    it reaches the final [print] is recorded here. *)
Record report : Set := mk_report {
  noise_floor : float;
  has_signal : list Z;
  signal_strengths : list float;
  contiguous_regions : list (Z * Z);
  drone_regions : list (Z * Z);
  drone_detected : bool
}.

(** How a call of [analyze] ends: the early return under
    [config['skip_analysis']], or the final [print]. *)
Inductive analysis : Set :=
| Skipped
| Printed (r : report).

(** [analyze(signal_store)].  The store comes back with the outcome, as for
    the store's own methods; [None] is the loop bound of
    [get_contiguous_regions]. *)
Definition analyze (signal_store : SignalStore)
  : SignalStore * option (exn + analysis) :=
  if config_skip_analysis signal_store then (signal_store, Some (inr Skipped))
  else
    match get_measurements_copy signal_store with
    | (signal_store, inl e) => (signal_store, Some (inl e))
    | (signal_store, inr measurements) =>
    match average_strengths measurements with
    | inl e => (signal_store, Some (inl e))
    | inr averages =>
    match compute_noise_floor averages with
    | inl e => (signal_store, Some (inl e))
    | inr noise_floor =>
    match find_signal_buckets averages noise_floor with
    | inl e => (signal_store, Some (inl e))
    | inr (has_signal, signal_strengths) =>
    match get_bucket_width signal_store with
    | (signal_store, inl e) => (signal_store, Some (inl e))
    | (signal_store, inr bucket_width) =>
    let bucket_ranges := make_bucket_ranges bucket_width averages in
    match get_contiguous_regions bucket_width bucket_ranges
            has_signal signal_strengths with
    | None => (signal_store, None)
    | Some (inl e) => (signal_store, Some (inl e))
    | Some (inr contiguous_regions) =>
    let drone_regions := get_drone_regions contiguous_regions in
    let drone_detected :=
      match drone_regions with [] => false | _ :: _ => true end in
    (signal_store,
     Some (inr (Printed (mk_report noise_floor has_signal signal_strengths
                           contiguous_regions drone_regions drone_detected))))
    end end end end end end.

(** [handle_input(store)], on the lines of stdin once [HackSweepLine(line)]
    has parsed each of them.  The loop variables are the store, the
    [last_datetime] and, standing for [Process(target=analyze,
    args=(store,)).start()], the list of the stores analyses were launched
    on, oldest first.  An exception of [to_measurements] or of
    [add_measurements] ends the loop; it is returned with what the loop had
    reached. *)
Fixpoint handle_input_loop (lines : list HackSweepLine.t)
    (store : SignalStore) (last_datetime : option Z)
    (launched : list SignalStore)
  : SignalStore * list SignalStore * option HackSweepLine.error :=
  match lines with
  | [] => (store, launched, None)
  | hsl :: lines' =>
      match HackSweepLine.to_measurements hsl with
      | inl e => (store, launched, Some e)
      | inr measurements =>
          match add_measurements measurements store with
          | (store, inl e) => (store, launched, Some (HackSweepLine.Raised e))
          | (store, inr _) =>
              let last_datetime :=
                match last_datetime with
                | None => Some (HackSweepLine.datetime hsl)
                | Some _ => last_datetime
                end in
              if match last_datetime with
                 | Some l => negb (HackSweepLine.datetime hsl =? l)
                 | None => true
                 end
              then
                let last_datetime := Some (HackSweepLine.datetime hsl) in
                if is_warmed_up store
                then handle_input_loop lines' store last_datetime
                       (launched ++ [store])
                else handle_input_loop lines' store last_datetime launched
              else handle_input_loop lines' store last_datetime launched
          end
      end
  end.
Definition handle_input (lines : list HackSweepLine.t) (store : SignalStore)
  : SignalStore * list SignalStore * option HackSweepLine.error :=
  handle_input_loop lines store None [].

(** ** Notions used to state the properties *)

(** The snapshot [analyze] works on. *)
Definition snapshot (s : SignalStore) : gmap Z (list Measurement) :=
  get_data_copy <$> _ranges s.

(** Whether bucket [f] of a snapshot holds at least one measurement, and how
    many buckets do. *)
Definition has_data (measurements : gmap Z (list Measurement)) (f : Z)
  : bool :=
  match measurements !! f with
  | Some (_ :: _) => true
  | _ => false
  end.
Definition buckets_with_data (measurements : gmap Z (list Measurement))
  : nat :=
  length (filter (λ f, has_data measurements f = true)
            (elements (dom measurements))).

(** Every buffer of the store is one on which [add] cannot raise. *)
Definition store_wf (s : SignalStore) : Prop :=
  ∀ k rb, _ranges s !! k = Some rb → RingBuf.wf rb.

(** Warmup bookkeeping over a stretch of the input: how many measurements
    fall in the reference bucket [f], and whether one of them lies more than
    one second after [epoch0]. *)
Definition in_reference (f : Z) (m : Measurement) : bool := f =? hz_low m.
Definition reference_count (f : Z) (ms : list Measurement) : Z :=
  Z.of_nat (length (filter (λ m, in_reference f m = true) ms)).
Definition past_one_second (f epoch0 : Z) (m : Measurement) : bool :=
  in_reference f m && (datetime m - epoch0 >? 1).
Definition signals_resize (f epoch0 : Z) (ms : list Measurement) : bool :=
  existsb (past_one_second f epoch0) ms.

(** The count of reference-bucket measurements of an input stream up to and
    including the first one that lies more than one second after [epoch0]
    (the whole stream when there is none). *)
Fixpoint count_until_signal (f epoch0 : Z) (ms : list Measurement) : Z :=
  match ms with
  | [] => 0
  | m :: ms' =>
      if past_one_second f epoch0 m then 1
      else (if in_reference f m then 1 else 0)
           + count_until_signal f epoch0 ms'
  end.

(** The store after lines 121-129 of [add_measurements] on a batch that
    starts with [m], after lines 132-144, and after the warmup bookkeeping
    of lines 150-158 for [m]. *)
Definition noted (m : Measurement) (s : SignalStore) : SignalStore :=
  let s1 := if truthy_opt (_bucket_width s) then s
            else set_bucket_width (Some (hz_high m - hz_low m)) s in
  if truthy (_warmup_bucket_frequency s1) then s1
  else set_warmup_first_datetime (datetime m)
         (set_warmup_bucket_frequency (hz_low m) s1).
Definition resized (s : SignalStore) : SignalStore :=
  if negb (is_warmed_up s) && _warmup_resize_ringbufs s then
    set_warmed_up true
      (set_ranges ∅
         (set_BUFSIZE (_warmup_measurement_count s)
            (set_warmup_resize_ringbufs false s)))
  else s.
Definition counted (m : Measurement) (s : SignalStore) : SignalStore :=
  if negb (is_warmed_up s) && (_warmup_bucket_frequency s =? hz_low m) then
    let s1 := set_warmup_measurement_count (_warmup_measurement_count s + 1) s in
    if datetime m - _warmup_first_datetime s1 >? 1
    then set_warmup_resize_ringbufs true s1 else s1
  else s.

(** What routing measurements never touches, and what it keeps of the
    buffers: every bucket stays, with the capacity it was created with. *)
Definition settings (s : SignalStore) : Z * option Z * bool * bool * Z * Z :=
  (_BUFSIZE s, _bucket_width s, config_skip_analysis s, _warmed_up s,
   _warmup_bucket_frequency s, _warmup_first_datetime s).
Definition buffers_kept (s s' : SignalStore) : Prop :=
  ∀ k rb, _ranges s !! k = Some rb →
    ∃ rb', _ranges s' !! k = Some rb' ∧ _size rb' = _size rb.

(** What a call does to the calibration state: nothing, or the one
    transition, which takes the capacity from the warmup counter and is
    the only place where buckets are dropped. *)
Definition call_effect (s s' : SignalStore) : Prop :=
  (is_warmed_up s' = is_warmed_up s ∧ _BUFSIZE s' = _BUFSIZE s
   ∧ buffers_kept s s')
  ∨ (is_warmed_up s = false ∧ is_warmed_up s' = true
     ∧ _warmup_resize_ringbufs s = true
     ∧ _BUFSIZE s' = _warmup_measurement_count s).

(** The stores a sequence of [add_measurements] calls goes through, each
    call starting from the store the previous one left (also when that one
    raised). *)
Fixpoint trace (s : SignalStore) (batches : list (list Measurement))
  : list SignalStore :=
  match batches with
  | [] => []
  | b :: batches' =>
      let s' := fst (add_measurements b s) in s' :: trace s' batches'
  end.

(** The number of calibrating-to-warmed transitions along a run. *)
Fixpoint transitions (s : SignalStore) (run : list SignalStore) : nat :=
  match run with
  | [] => 0
  | s' :: run' =>
      ((if negb (is_warmed_up s) && is_warmed_up s' then 1 else 0)
       + transitions s' run')%nat
  end.

(** The number of calls of a run that change the shared capacity. *)
Fixpoint capacity_changes (s : SignalStore) (run : list SignalStore) : nat :=
  match run with
  | [] => 0
  | s' :: run' =>
      ((if Z.eqb (_BUFSIZE s') (_BUFSIZE s) then 0 else 1)
       + capacity_changes s' run')%nat
  end.

(** What the store is meant to hold: with capacity [n], after the
    measurements of [hist] were routed in order, bucket [k] exists exactly
    when [hist] has a measurement for it, and its buffer represents those
    measurements. *)
Definition bucket_history (k : Z) (hist : list Measurement)
  : list Measurement :=
  filter (λ m, hz_low m = k) hist.
Definition store_holds (n : nat) (hist : list Measurement) (s : SignalStore)
  : Prop :=
  _BUFSIZE s = Z.of_nat n ∧
  ∀ k, match _ranges s !! k with
       | Some rb => represents n (bucket_history k hist) rb
                    ∧ bucket_history k hist ≠ []
       | None => bucket_history k hist = []
       end.

(** Whether the strength recorded for bucket [k] exceeds the noise floor
    by more than the squelch, and the entry the averaging loop makes for a
    bucket: none for a bucket that is absent or holds no measurement. *)
Definition above_squelch (d : dict float) (noise_floor : float) (k : Z)
  : bool :=
  match getitem d k with
  | inr strength => PrimFloat.ltb (noise_floor + SQUELCH)%float strength
  | inl _ => false
  end.
Definition average_entry (measurements : gmap Z (list Measurement)) (f : Z)
  : option (Z * float) :=
  match measurements !! f with
  | Some (m :: ms) =>
      Some (f, (fsum (db <$> m :: ms) / float_of_nat (length (m :: ms)))%float)
  | _ => None
  end.

(** The number of lines whose timestamp differs from that of the line
    before them, [prev] being the timestamp before the first. *)
Fixpoint second_boundaries (prev : Z) (lines : list HackSweepLine.t) : nat :=
  match lines with
  | [] => 0
  | hsl :: lines' =>
      ((if Z.eqb (HackSweepLine.datetime hsl) prev then 0 else 1)
       + second_boundaries (HackSweepLine.datetime hsl) lines')%nat
  end.

(** ** Concrete inputs *)

(** The measurements of one decoded line, as [to_measurements] builds
    them: consecutive buckets of width [w] from [lo], one per strength. *)
Definition sweep_line (t lo w : Z) (dbs : list float) : list Measurement :=
  imap (λ i d, let f := lo + w * Z.of_nat i in mk_Measurement t f (f + w) d)
       dbs.

(** The store a sequence of calls leaves, each call starting from what the
    previous one left. *)
Definition after_calls (s : SignalStore) (batches : list (list Measurement))
  : SignalStore :=
  foldl (λ s b, fst (add_measurements b s)) s batches.

(** One bucket at 2.4 GHz, seen at second 0 and again at second 2: the
    second reading raises the resize signal, which is still pending. *)
Definition pending_store : SignalStore :=
  after_calls (SignalStore_init false)
    [sweep_line 0 2400000000 1000000 [(-70)%float];
     sweep_line 2 2400000000 1000000 [(-71)%float]].

(** Three lines whose first buckets are 0 Hz, 10 Hz and 20 Hz, read at
    seconds 0, 5 and 9. *)
Definition zero_key_batches : list (list Measurement) :=
  [sweep_line 0 0 10 [(-70)%float];
   sweep_line 5 10 10 [(-70)%float];
   sweep_line 9 20 10 [(-70)%float]].

(** One bucket read at second 0, twice within the line of second 2, and
    once more at second 3. *)
Definition reading (t : Z) : Measurement :=
  mk_Measurement t 2400000000 2401000000 (-70)%float.
Definition repeated_key_batches : list (list Measurement) :=
  [[reading 0]; [reading 2; reading 2]; [reading 3]].

(** A store warmed up on one decoded line repeated at seconds 0, 2 and 3:
    the third call resizes, so every bucket holds the reading of second 3. *)
Definition warmed_store (skip : bool) (lo w : Z) (dbs : list float)
  : SignalStore :=
  after_calls (SignalStore_init skip)
    [sweep_line 0 lo w dbs; sweep_line 2 lo w dbs; sweep_line 3 lo w dbs].

(** Three buckets of 1 MHz from 2.4 GHz. *)
Definition three_bucket_store : SignalStore :=
  warmed_store false 2400000000 1000000
    [(-70)%float; (-71)%float; (-72)%float].

(** Eight buckets of 1 MHz from 2.4 GHz with one strong bucket at
    2.403 GHz. *)
Definition lone_bucket_store : SignalStore :=
  warmed_store false 2400000000 1000000
    [(-70)%float; (-71)%float; (-72)%float; (-50)%float;
     (-70)%float; (-71)%float; (-72)%float; (-73)%float].

(** Eight buckets of 10 MHz from 2.4 GHz: strong at 2.45 and 2.46 GHz, and
    strong at 2.45, 2.46 and 2.47 GHz. *)
Definition adjacent_pair_store : SignalStore :=
  warmed_store false 2400000000 10000000
    [(-70)%float; (-71)%float; (-72)%float; (-73)%float;
     (-70)%float; (-50)%float; (-51)%float; (-70)%float].
Definition adjacent_triple_store : SignalStore :=
  warmed_store false 2400000000 10000000
    [(-70)%float; (-71)%float; (-72)%float; (-73)%float;
     (-70)%float; (-50)%float; (-51)%float; (-52)%float].

(** Eight buckets of 1 MHz from 2.4 GHz, strong at 2.403, 2.404 and
    2.405 GHz: a signal 3 MHz wide. *)
Definition narrow_signal_store : SignalStore :=
  warmed_store false 2400000000 1000000
    [(-70)%float; (-71)%float; (-72)%float; (-50)%float;
     (-51)%float; (-52)%float; (-72)%float; (-73)%float].

(** [lone_bucket_store] built with [config['skip_analysis']] set. *)
Definition skipping_store : SignalStore :=
  warmed_store true 2400000000 1000000
    [(-70)%float; (-71)%float; (-72)%float; (-50)%float;
     (-70)%float; (-71)%float; (-72)%float; (-73)%float].

(** Parsed input lines: five buckets of 1 MHz from 2.4 GHz, read at the
    given second. *)
Definition parsed_line (t : Z) : HackSweepLine.t :=
  HackSweepLine.mk t 2400000000 2405000000 1000000%float 5
    [(-70)%float; (-71)%float; (-72)%float; (-50)%float; (-73)%float].
Definition four_seconds : list HackSweepLine.t :=
  [parsed_line 0; parsed_line 2; parsed_line 3; parsed_line 3; parsed_line 4].



(** * Properties *)

Section ringbuf_proofs.
Import RingBuf.
Context {A : Type}.
Implicit Types (rb : ringbuf A) (hist vals : list A) (v : A).

Lemma represents_init (n : nat) :
  (0 < n)%nat → represents n [] (init (A:=A) (Z.of_nat n)).
Proof. intros Hn. split; [done|]. simpl. split; [done|]. simpl. lia. Qed.

Lemma most_recent_short n hist :
  (length hist ≤ n)%nat → most_recent n hist = hist.
Proof.
  intros Hle. unfold most_recent.
  replace (length hist - n)%nat with 0%nat by lia. done.
Qed.

Lemma most_recent_snoc n hist v :
  (0 < n)%nat → (n ≤ length hist)%nat →
  most_recent n (hist ++ [v]) = drop 1 (most_recent n hist) ++ [v].
Proof.
  intros Hn Hle. unfold most_recent.
  rewrite length_app, drop_drop. simpl.
  replace (length hist + 1 - n)%nat with (length hist - n + 1)%nat by lia.
  rewrite drop_app_le by lia. done.
Qed.

Lemma length_most_recent n hist :
  length (most_recent n hist) = Nat.min (length hist) n.
Proof. unfold most_recent. rewrite length_drop. lia. Qed.

(** Overwriting the oldest slot and advancing the cursor rotates the
    chronological reading by one position. *)
Lemma rotate_overwrite (data : list A) (c : nat) v :
  (c < length data)%nat →
  drop ((c + 1) mod length data) (<[c := v]> data)
    ++ take ((c + 1) mod length data) (<[c := v]> data)
  = drop 1 (drop c data ++ take c data) ++ [v].
Proof.
  intros Hc.
  destruct (lookup_lt_is_Some_2 data c Hc) as [x Hx].
  assert (Hsplit : ∃ pre suf, data = pre ++ x :: suf ∧ length pre = c).
  { exists (take c data), (drop (S c) data). split.
    - symmetry. by apply take_drop_middle.
    - apply length_take_le. lia. }
  destruct Hsplit as (pre & suf & -> & <-). clear Hx.
  rewrite insert_app_r_alt by lia. rewrite Nat.sub_diag. simpl.
  rewrite drop_app_length, take_app_length. simpl.
  rewrite length_app. simpl.
  destruct suf as [|y suf].
  - simpl. rewrite Nat.Div0.mod_same. by rewrite drop_0, take_0, app_nil_r.
  - rewrite Nat.mod_small by (simpl; lia).
    replace (pre ++ v :: y :: suf) with ((pre ++ [v]) ++ y :: suf)
      by (by rewrite <- app_assoc).
    rewrite drop_app_length', take_app_length'
      by (rewrite length_app; simpl; lia).
    by rewrite app_assoc.
Qed.

(** One [add] on a buffer that represents [hist] succeeds and represents
    [hist ++ [v]]. *)
Lemma add_represents n hist rb v :
  (0 < n)%nat → represents n hist rb →
  ∃ rb', add v rb = inr rb' ∧ represents n (hist ++ [v]) rb'.
Proof.
  intros Hn [Hsize Hrep]. unfold add.
  destruct (_full rb) eqn:Hfull.
  - destruct Hrep as (Hlen & Hcur & Hrot).
    assert (Hlt : (_cursor rb <? length (_data rb))%nat = true)
      by (apply Nat.ltb_lt; lia).
    rewrite Hlt. simpl. rewrite length_insert.
    assert (Hnz : (length (_data rb) =? 0)%nat = false)
      by (apply Nat.eqb_neq; lia).
    rewrite Hnz. eexists; split; [reflexivity|].
    split; [done|]. simpl. rewrite length_insert.
    assert (Hhist : (n ≤ length hist)%nat).
    { apply (f_equal length) in Hrot.
      rewrite length_app, length_drop, length_take, length_most_recent in Hrot.
      lia. }
    split; [done|]. split; [rewrite Hlen; apply Nat.mod_upper_bound; lia|].
    rewrite most_recent_snoc by done. rewrite <- Hrot.
    apply rotate_overwrite. lia.
  - destruct Hrep as (Hdata & Hlen & Hcur).
    eexists; split; [reflexivity|]. split; [done|]. simpl.
    rewrite Hdata, length_app. simpl.
    destruct (Z.geb_spec (Z.of_nat (length hist + 1)) (_size rb)) as [Hge|Hlt].
    + assert (length hist + 1 = n)%nat as Heq by lia.
      split; [done|]. rewrite Hcur. split; [lia|].
      rewrite drop_0, take_0, app_nil_r.
      rewrite most_recent_short by (rewrite length_app; simpl; lia). done.
    + split; [done|]. split; [lia|done].
Qed.

Lemma add_all_represents n vals : ∀ hist rb,
  (0 < n)%nat → represents n hist rb →
  ∃ rb', add_all vals rb = inr rb' ∧ represents n (hist ++ vals) rb'.
Proof.
  induction vals as [|v vals IH]; intros hist rb Hn Hrep; simpl.
  - exists rb. by rewrite app_nil_r.
  - destruct (add_represents n hist rb v Hn Hrep) as (rb1 & -> & Hrep1).
    destruct (IH _ _ Hn Hrep1) as (rb2 & Hrun & Hrep2).
    exists rb2. split; [done|]. by rewrite <- app_assoc in Hrep2.
Qed.

Lemma represents_get_data_copy n hist rb :
  represents n hist rb → get_data_copy rb = most_recent n hist.
Proof.
  intros [_ Hrep]. unfold get_data_copy. destruct (_full rb).
  - by destruct Hrep as (_ & _ & ->).
  - destruct Hrep as (-> & Hlen & _). rewrite most_recent_short; [done|lia].
Qed.

Lemma represents_wf n hist rb : represents n hist rb → wf rb.
Proof.
  intros [_ Hrep]. unfold wf. destruct (_full rb).
  - left. destruct Hrep as (-> & ? & _). done.
  - right. by destruct Hrep as (_ & _ & ->).
Qed.
End ringbuf_proofs.

(** C6. For every capacity [N >= 1] and every sequence of [add] calls on a
    fresh buffer, no call fails, and [get_data_copy] returns the most recent
    [min(k, N)] of the [k] added values, oldest first, however often the
    buffer has wrapped around. *)
Theorem ringbuf_snapshot_most_recent (A : Type) (N : Z) (vals : list A) :
  1 ≤ N →
  ∃ rb : ringbuf A,
    add_all vals (init N) = inr rb ∧
    get_data_copy rb = drop (length vals - Z.to_nat N) vals ∧
    length (get_data_copy rb) = Nat.min (length vals) (Z.to_nat N).
Proof.
  intros HN.
  assert (Hn : (0 < Z.to_nat N)%nat) by lia.
  pose proof (represents_init (A:=A) (Z.to_nat N) Hn) as Hinit.
  rewrite Z2Nat.id in Hinit by lia.
  destruct (add_all_represents (Z.to_nat N) vals [] (init N) Hn Hinit)
    as (rb & Hrun & Hrep).
  exists rb. split; [done|].
  rewrite (represents_get_data_copy _ _ _ Hrep). simpl.
  split; [done|]. apply length_most_recent.
Qed.

(** Eight values through a buffer of capacity three: the cursor wraps
    twice and the copy is the last three values in order. *)
Lemma ringbuf_snapshot_most_recent_witness :
  1 ≤ 3 ∧
  ∃ rb : ringbuf Z,
    add_all [1; 2; 3; 4; 5; 6; 7; 8] (init 3) = inr rb ∧
    get_data_copy rb = [6; 7; 8] ∧
    length (get_data_copy rb) = 3%nat.
Proof.
  split; [lia|].
  apply (ringbuf_snapshot_most_recent Z 3 [1; 2; 3; 4; 5; 6; 7; 8]). lia.
Defined.

(** ** The store: one call of [add_measurements] *)

Section store_proofs.
Implicit Types (s : SignalStore) (m : Measurement) (ms : list Measurement).

Lemma delete_all_keys {V} (r : gmap Z V) :
  foldr delete r (elements (dom r)) = ∅.
Proof.
  apply map_eq. intros k. rewrite lookup_empty.
  destruct (r !! k) eqn:Hk.
  - apply lookup_foldr_delete, elem_of_elements, elem_of_dom. eauto.
  - rewrite lookup_foldr_delete_not_elem_of; [done|].
    rewrite elem_of_elements. by apply not_elem_of_dom.
Qed.

Lemma set_ranges_id s : set_ranges (_ranges s) s = s.
Proof. by destruct s. Qed.

Lemma complete_warmup_eq s : complete_warmup s = (resized s, inr tt).
Proof.
  unfold complete_warmup, resized, bind, self, assign, ret.
  destruct (negb (is_warmed_up s) && _warmup_resize_ringbufs s); [|done].
  simpl. by rewrite delete_all_keys.
Qed.

Lemma warmup_count_eq m s : warmup_count m s = (counted m s, inr tt).
Proof.
  unfold warmup_count, counted, bind, self, assign, ret.
  destruct (negb (is_warmed_up s) && (_warmup_bucket_frequency s =? hz_low m));
    [|done].
  simpl. by destruct (_ >? 1).
Qed.

(** An empty batch: [measurements[0]] raises if it is evaluated, and
    otherwise only the resize check runs. *)
Lemma add_measurements_nil s :
  add_measurements [] s =
    if negb (truthy_opt (_bucket_width s))
       || negb (truthy (_warmup_bucket_frequency s))
    then (s, inl IndexError)
    else (resized s, inr tt).
Proof.
  unfold add_measurements, bind, self, first_of, raise. simpl.
  destruct (truthy_opt (_bucket_width s)); simpl; [|done].
  destruct (truthy (_warmup_bucket_frequency s)); simpl; [|done].
  rewrite complete_warmup_eq. done.
Qed.

(** A batch that starts with [m]: no exception before the loop. *)
Lemma add_measurements_cons m ms s :
  add_measurements (m :: ms) s =
    for_each (m :: ms) (λ m, warmup_count m ;> route m) (resized (noted m s)).
Proof.
  unfold add_measurements, noted, bind at 1 2 3 4 5, self, first_of, ret, assign.
  simpl lookup.
  destruct (truthy_opt (_bucket_width s)); simpl.
  - destruct (truthy (_warmup_bucket_frequency s)); simpl;
      unfold bind at 1; rewrite complete_warmup_eq; done.
  - destruct (truthy (_warmup_bucket_frequency s)); simpl;
      unfold bind at 1; rewrite complete_warmup_eq; done.
Qed.

(** *** Routing one measurement *)

Lemma add_size {A} (v : A) (rb rb' : ringbuf A) :
  add v rb = inr rb' → _size rb' = _size rb.
Proof.
  unfold add. intros H.
  destruct (_full rb); [|by inversion H].
  destruct (_ <? _)%nat; [|done].
  destruct (_ =? _)%nat; [done|]. by inversion H.
Qed.

Lemma add_wf {A} (v : A) (rb : ringbuf A) :
  wf rb → ∃ rb', add v rb = inr rb' ∧ wf rb'.
Proof.
  unfold wf, add. intros Hwf.
  destruct (_full rb) eqn:Hfull.
  - destruct Hwf as [Hlt|[? _]]; [|done].
    apply Nat.ltb_lt in Hlt as Hltb. rewrite Hltb. simpl.
    rewrite length_insert.
    destruct (Nat.eqb_spec (length (_data rb)) 0) as [?|Hne]; [lia|].
    eexists; split; [done|]. left. simpl. rewrite length_insert.
    apply Nat.mod_upper_bound. lia.
  - eexists; split; [done|]. left. simpl. rewrite length_app. simpl.
    destruct Hwf as [?|[_ ->]]; lia.
Qed.

Lemma wf_init {A} (size : Z) : wf (init (A:=A) size).
Proof. by right. Qed.

Lemma settings_set_ranges r s : settings (set_ranges r s) = settings s.
Proof. done. Qed.

(** [route] only touches [_ranges], where it keeps every bucket. *)
Lemma route_frame m s :
  ∃ r, fst (route m s) = set_ranges r s ∧
       ∀ k rb, _ranges s !! k = Some rb →
         ∃ rb', r !! k = Some rb' ∧ _size rb' = _size rb.
Proof.
  unfold route, bind, self, add_to, assign, raise.
  destruct (_ranges s !! hz_low m) as [rb0|] eqn:Hk.
  - destruct (add m rb0) as [e|rb1] eqn:Hadd; simpl.
    + exists (_ranges s). rewrite set_ranges_id. eauto.
    + exists (<[hz_low m := rb1]> (_ranges s)). split; [done|].
      intros k rb Hrb. destruct (decide (k = hz_low m)) as [->|Hne].
      * rewrite lookup_insert_eq. exists rb1. split; [done|].
        rewrite Hk in Hrb. inversion Hrb; subst. by eapply add_size.
      * rewrite lookup_insert_ne by done. eauto.
  - simpl.
    exists (<[hz_low m := mk_ringbuf (_BUFSIZE s) 0 [m]
                            (if 1 >=? _BUFSIZE s then true else false)]>
              (<[hz_low m := init (_BUFSIZE s)]> (_ranges s))).
    split; [done|].
    intros k rb Hrb. destruct (decide (k = hz_low m)) as [->|Hne].
    + congruence.
    + rewrite !lookup_insert_ne by done. eauto.
Qed.

(** On well-formed buffers [route] does not raise. *)
Lemma route_ok m s :
  store_wf s →
  ∃ r, route m s = (set_ranges r s, inr tt) ∧ store_wf (set_ranges r s).
Proof.
  intros Hwf. unfold route, bind, self, add_to, assign, raise.
  destruct (_ranges s !! hz_low m) as [rb0|] eqn:Hk.
  - destruct (add_wf m rb0 (Hwf _ _ Hk)) as (rb1 & -> & Hwf1).
    exists (<[hz_low m := rb1]> (_ranges s)). split; [done|].
    intros k rb. simpl. rewrite lookup_insert.
    case_decide; [by intros [= <-]|]. apply Hwf.
  - destruct (add_wf m (init (_BUFSIZE s)) (wf_init _)) as (rb1 & Hadd & Hwf1).
    rewrite Hadd. simpl.
    exists (<[hz_low m := rb1]>
              (<[hz_low m := init (_BUFSIZE s)]> (_ranges s))).
    split; [done|].
    intros k rb. simpl. rewrite !lookup_insert.
    case_decide; [by intros [= <-]|]. apply Hwf.
Qed.

Lemma settings_counted m s : settings (counted m s) = settings s.
Proof.
  unfold counted.
  destruct (negb (is_warmed_up s) && _); [|done]. simpl.
  by destruct (_ >? 1).
Qed.

Lemma ranges_counted m s : _ranges (counted m s) = _ranges s.
Proof.
  unfold counted.
  destruct (negb (is_warmed_up s) && _); [|done]. simpl.
  by destruct (_ >? 1).
Qed.

Lemma buffers_kept_refl s : buffers_kept s s.
Proof. intros k rb ?. eauto. Qed.

Lemma buffers_kept_trans s1 s2 s3 :
  buffers_kept s1 s2 → buffers_kept s2 s3 → buffers_kept s1 s3.
Proof.
  intros H12 H23 k rb Hrb.
  destruct (H12 _ _ Hrb) as (rb2 & Hrb2 & Hs2).
  destruct (H23 _ _ Hrb2) as (rb3 & Hrb3 & Hs3).
  exists rb3. split; [done|]. congruence.
Qed.

(** *** The loop over a batch *)

Lemma loop_cons m ms s :
  for_each (m :: ms) (λ m, warmup_count m ;> route m) s =
    match route m (counted m s) with
    | (s1, inr _) => for_each ms (λ m, warmup_count m ;> route m) s1
    | (s1, inl e) => (s1, inl e)
    end.
Proof.
  simpl. unfold bind at 1 2. rewrite warmup_count_eq.
  by destruct (route m (counted m s)) as [s1 [e|[]]].
Qed.

(** Whatever happens in the loop, also when it raises, the settings stay
    and every bucket is kept. *)
Lemma loop_frame ms s :
  settings (fst (for_each ms (λ m, warmup_count m ;> route m) s)) = settings s
  ∧ buffers_kept s (fst (for_each ms (λ m, warmup_count m ;> route m) s)).
Proof.
  revert s. induction ms as [|m ms IH]; intros s.
  - split; [done|apply buffers_kept_refl].
  - rewrite loop_cons.
    destruct (route_frame m (counted m s)) as (r & Hr & Hkept).
    assert (Hstep : settings (fst (route m (counted m s))) = settings s
                    ∧ buffers_kept s (fst (route m (counted m s)))).
    { rewrite Hr. rewrite settings_set_ranges, settings_counted.
      split; [done|]. intros k rb Hrb. simpl.
      rewrite <- ranges_counted with (m:=m) in Hrb. eauto. }
    destruct (route m (counted m s)) as [s1 [e|[]]]; simpl in *; [done|].
    destruct (IH s1) as [IH1 IH2]. destruct Hstep as [Hs1 Hk1].
    split; [congruence|]. by eapply buffers_kept_trans.
Qed.

(** *** One call, seen from outside *)

Lemma resized_effect s : call_effect s (resized s).
Proof.
  unfold resized.
  destruct (is_warmed_up s) eqn:Hw; simpl.
  - left. rewrite Hw. eauto using buffers_kept_refl.
  - destruct (_warmup_resize_ringbufs s) eqn:Hflag.
    + right. done.
    + left. rewrite Hw. eauto using buffers_kept_refl.
Qed.

Lemma noted_calibration m s :
  is_warmed_up (noted m s) = is_warmed_up s ∧
  _BUFSIZE (noted m s) = _BUFSIZE s ∧
  _ranges (noted m s) = _ranges s ∧
  _warmup_resize_ringbufs (noted m s) = _warmup_resize_ringbufs s ∧
  _warmup_measurement_count (noted m s) = _warmup_measurement_count s.
Proof.
  unfold noted.
  destruct (truthy_opt (_bucket_width s)); simpl;
    destruct (truthy (_warmup_bucket_frequency s)); done.
Qed.

Lemma settings_inv s s' :
  settings s' = settings s →
  _BUFSIZE s' = _BUFSIZE s ∧ _bucket_width s' = _bucket_width s ∧
  config_skip_analysis s' = config_skip_analysis s ∧
  _warmed_up s' = _warmed_up s ∧
  _warmup_bucket_frequency s' = _warmup_bucket_frequency s ∧
  _warmup_first_datetime s' = _warmup_first_datetime s.
Proof. unfold settings. intros H. by inversion H. Qed.

Lemma call_effect_frame s s0 s' :
  call_effect s s0 → settings s' = settings s0 → buffers_kept s0 s' →
  call_effect s s'.
Proof.
  intros Heff (HB & _ & _ & Hw & _)%settings_inv Hkept.
  unfold call_effect, is_warmed_up in *.
  destruct Heff as [(Hw0 & HB0 & Hk0)|(Hw0 & Hw1 & Hflag & HB0)].
  - left. split; [congruence|]. split; [congruence|].
    by eapply buffers_kept_trans.
  - right. split; [done|]. split; [congruence|]. split; [done|congruence].
Qed.

Lemma add_measurements_effect (b : list Measurement) s :
  call_effect s (fst (add_measurements b s)).
Proof.
  destruct b as [|m ms].
  - rewrite add_measurements_nil. destruct (_ || _); simpl.
    + left. eauto using buffers_kept_refl.
    + apply resized_effect.
  - rewrite add_measurements_cons.
    destruct (loop_frame (m :: ms) (resized (noted m s))) as [Hset Hkept].
    eapply call_effect_frame; [|exact Hset|exact Hkept].
    destruct (noted_calibration m s) as (Hw & HB & Hr & Hf & Hc).
    destruct (resized_effect (noted m s))
      as [(Hw0 & HB0 & Hk0)|(Hw0 & Hw1 & Hflag & HB0)].
    + left. split; [congruence|]. split; [congruence|].
      intros k rb Hrb. apply Hk0. by rewrite Hr.
    + right. split; [congruence|]. split; [done|]. split; congruence.
Qed.

Lemma transitions_warmed s batches :
  is_warmed_up s = true →
  transitions s (trace s batches) = 0%nat ∧
  Forall (λ s', is_warmed_up s' = true ∧ _BUFSIZE s' = _BUFSIZE s
                ∧ buffers_kept s s') (trace s batches).
Proof.
  revert s. induction batches as [|b batches IH]; intros s Hw; simpl.
  - split; [done|constructor].
  - destruct (add_measurements_effect b s)
      as [(Hw' & HB' & Hk')|(Hw0 & _)]; [|congruence].
    rewrite Hw in Hw'. destruct (IH _ Hw') as [IH1 IH2].
    rewrite Hw, Hw'. simpl. split; [done|].
    constructor; [done|].
    eapply Forall_impl; [exact IH2|]. simpl.
    intros s2 (? & ? & ?). split; [done|]. split; [congruence|].
    by eapply buffers_kept_trans.
Qed.

Lemma transitions_le_1 s batches :
  (transitions s (trace s batches) ≤ 1)%nat.
Proof.
  revert s. induction batches as [|b batches IH]; intros s; simpl; [lia|].
  destruct (is_warmed_up s) eqn:Hw; simpl.
  - destruct (transitions_warmed s (b :: batches) Hw) as [H0 _].
    simpl in H0. rewrite Hw in H0. simpl in H0. lia.
  - destruct (is_warmed_up (fst (add_measurements b s))) eqn:Hw'.
    + destruct (transitions_warmed _ batches Hw') as [-> _]. lia.
    + specialize (IH (fst (add_measurements b s))). lia.
Qed.

Lemma capacity_changes_le_transitions s batches :
  (capacity_changes s (trace s batches) ≤ transitions s (trace s batches))%nat.
Proof.
  revert s. induction batches as [|b batches IH]; intros s; simpl; [lia|].
  specialize (IH (fst (add_measurements b s))).
  destruct (add_measurements_effect b s)
    as [(Hw' & HB' & Hk')|(Hw0 & Hw1 & _)].
  - rewrite HB', Z.eqb_refl. lia.
  - rewrite Hw0, Hw1. simpl. destruct (_ =? _); lia.
Qed.
End store_proofs.

(** C8. The calibration state is monotonic.  Along every sequence of
    [add_measurements] calls from every store there is at most one
    calibrating-to-warmed transition; the shared capacity [_BUFSIZE] changes
    at no other call; the transition happens on a pending resize signal and
    sets the capacity to the warmup counter; and once [is_warmed_up] is
    true it stays true, the capacity stays, and no bucket is dropped or
    re-created with another capacity. *)
Theorem calibration_monotonic
    (s : SignalStore) (batches : list (list Measurement)) :
  (transitions s (trace s batches) ≤ 1)%nat ∧
  (capacity_changes s (trace s batches)
     ≤ transitions s (trace s batches))%nat ∧
  (∀ b, _BUFSIZE (fst (add_measurements b s)) ≠ _BUFSIZE s →
        is_warmed_up s = false ∧
        is_warmed_up (fst (add_measurements b s)) = true) ∧
  (∀ b, is_warmed_up s = false →
        is_warmed_up (fst (add_measurements b s)) = true →
        _warmup_resize_ringbufs s = true ∧
        _BUFSIZE (fst (add_measurements b s)) = _warmup_measurement_count s) ∧
  (is_warmed_up s = true →
   Forall (λ s', is_warmed_up s' = true ∧ _BUFSIZE s' = _BUFSIZE s
                 ∧ buffers_kept s s') (trace s batches)).
Proof.
  split; [apply transitions_le_1|].
  split; [apply capacity_changes_le_transitions|].
  split; [|split].
  - intros b Hne.
    destruct (add_measurements_effect b s)
      as [(_ & HB' & _)|(Hw0 & Hw1 & _ & HB)]; [done|]. done.
  - intros b Hw Hw'.
    destruct (add_measurements_effect b s)
      as [(Hsame & _)|(_ & _ & Hflag & HB)]; [congruence|done].
  - intros Hw. by apply transitions_warmed.
Qed.

(** A store that is warmed (after [repeated_key_batches]) takes one more
    line: it stays warmed, with the capacity and the bucket it had. *)
Lemma calibration_monotonic_witness :
  Forall (λ s', is_warmed_up s' = true
                ∧ _BUFSIZE s'
                  = _BUFSIZE (after_calls (SignalStore_init false)
                                repeated_key_batches)
                ∧ buffers_kept (after_calls (SignalStore_init false)
                                  repeated_key_batches) s')
    (trace (after_calls (SignalStore_init false) repeated_key_batches)
       [[reading 4]]).
Proof.
  exact (proj2 (proj2 (proj2 (proj2
           (calibration_monotonic
              (after_calls (SignalStore_init false) repeated_key_batches)
              [[reading 4]])))) eq_refl).
Defined.

(** C5, as the code has it.  With an empty batch, [add_measurements] raises
    [IndexError] and leaves the store as it was when the bucket width or the
    reference bucket is still unset ([None] or [0]); otherwise it does not
    raise, and it changes the store only by completing a pending warmup
    resize. *)
Theorem empty_batch_outcome (s : SignalStore) :
  (truthy_opt (_bucket_width s) && truthy (_warmup_bucket_frequency s) = false
   → add_measurements [] s = (s, inl IndexError)) ∧
  (truthy_opt (_bucket_width s) && truthy (_warmup_bucket_frequency s) = true
   → snd (add_measurements [] s) = inr tt ∧
     (negb (is_warmed_up s) && _warmup_resize_ringbufs s = false
      → fst (add_measurements [] s) = s) ∧
     (negb (is_warmed_up s) && _warmup_resize_ringbufs s = true
      → fst (add_measurements [] s) =
          set_warmed_up true
            (set_ranges ∅
               (set_BUFSIZE (_warmup_measurement_count s)
                  (set_warmup_resize_ringbufs false s))))).
Proof.
  rewrite add_measurements_nil. unfold resized.
  destruct (truthy_opt (_bucket_width s));
    destruct (truthy (_warmup_bucket_frequency s)); simpl;
    (split; [done|]); try done.
  intros _. split; [done|].
  destruct (negb (is_warmed_up s) && _warmup_resize_ringbufs s); done.
Qed.

(** An empty batch handed to a store whose resize signal is pending is
    accepted, and the call tears the buffers down and ends the warmup. *)
Lemma empty_batch_completes_warmup :
  snd (add_measurements [] pending_store) = inr tt ∧
  dom (_ranges pending_store) = {[2400000000]} ∧
  _ranges (fst (add_measurements [] pending_store)) = ∅ ∧
  is_warmed_up pending_store = false ∧
  is_warmed_up (fst (add_measurements [] pending_store)) = true ∧
  _BUFSIZE pending_store = 200 ∧
  _BUFSIZE (fst (add_measurements [] pending_store)) = 2.
Proof. vm_compute. repeat split. Qed.

Lemma empty_batch_outcome_witness :
  snd (add_measurements [] pending_store) = inr tt ∧
  fst (add_measurements [] pending_store) =
    set_warmed_up true
      (set_ranges ∅
         (set_BUFSIZE (_warmup_measurement_count pending_store)
            (set_warmup_resize_ringbufs false pending_store))).
Proof.
  destruct (empty_batch_outcome pending_store) as [_ H].
  destruct (H eq_refl) as (Hok & _ & Hresize).
  split; [exact Hok|]. exact (Hresize eq_refl).
Defined.

(** *** The warmup reference *)

Lemma resized_reference s :
  _warmup_bucket_frequency (resized s) = _warmup_bucket_frequency s ∧
  _warmup_first_datetime (resized s) = _warmup_first_datetime s.
Proof. unfold resized. by destruct (_ && _). Qed.

Lemma noted_reference m s :
  (_warmup_bucket_frequency s = 0 →
   _warmup_bucket_frequency (noted m s) = hz_low m ∧
   _warmup_first_datetime (noted m s) = datetime m) ∧
  (_warmup_bucket_frequency s ≠ 0 →
   _warmup_bucket_frequency (noted m s) = _warmup_bucket_frequency s ∧
   _warmup_first_datetime (noted m s) = _warmup_first_datetime s).
Proof.
  unfold noted, truthy.
  destruct (truthy_opt (_bucket_width s)); simpl;
    destruct (Z.eqb_spec (_warmup_bucket_frequency s) 0); simpl; done.
Qed.

(** The reference a call on a batch starting with [m] ends with is the one
    lines 127-129 leave. *)
Lemma call_reference m ms s :
  _warmup_bucket_frequency (fst (add_measurements (m :: ms) s))
    = _warmup_bucket_frequency (noted m s) ∧
  _warmup_first_datetime (fst (add_measurements (m :: ms) s))
    = _warmup_first_datetime (noted m s).
Proof.
  rewrite add_measurements_cons.
  destruct (loop_frame (m :: ms) (resized (noted m s))) as [Hset _].
  apply settings_inv in Hset as (_ & _ & _ & _ & Hf & He).
  destruct (resized_reference (noted m s)). split; congruence.
Qed.

Lemma after_calls_snoc s batches (b : list Measurement) :
  after_calls s (batches ++ [b])
    = fst (add_measurements b (after_calls s batches)).
Proof. unfold after_calls. by rewrite foldl_app. Qed.

Lemma zero_reference_stays s batches :
  _warmup_bucket_frequency s = 0 →
  Forall (λ b, ∃ m ms, b = m :: ms ∧ hz_low m = 0) batches →
  _warmup_bucket_frequency (after_calls s batches) = 0.
Proof.
  intros Hs. induction batches as [|b batches IH] using rev_ind; [done|].
  intros [Hall [Hb _]%Forall_cons]%Forall_app. specialize (IH Hall).
  destruct Hb as (m & ms & -> & Hm).
  rewrite after_calls_snoc.
  destruct (call_reference m ms (after_calls s batches)) as [-> _].
  destruct (noted_reference m (after_calls s batches)) as [Hzero _].
  destruct (Hzero IH) as [-> _]. done.
Qed.

(** C10, as the code has it.  A call entered with the reference key [0]
    (the initial value, and the value it keeps when the batch starts with
    [low_hz = 0]) takes the reference bucket and epoch0 from the first
    measurement of its batch; a call entered with any other reference key
    leaves both alone.  So after a run of batches that all start with
    [low_hz = 0], the next call re-assigns both from its own first
    measurement, and from the first batch that starts with another key on
    they are fixed. *)
Theorem reference_reassigned_while_zero
    (s : SignalStore) (m : Measurement) (ms : list Measurement) :
  (_warmup_bucket_frequency s = 0 →
   _warmup_bucket_frequency (fst (add_measurements (m :: ms) s)) = hz_low m ∧
   _warmup_first_datetime (fst (add_measurements (m :: ms) s)) = datetime m) ∧
  (_warmup_bucket_frequency s ≠ 0 →
   _warmup_bucket_frequency (fst (add_measurements (m :: ms) s))
     = _warmup_bucket_frequency s ∧
   _warmup_first_datetime (fst (add_measurements (m :: ms) s))
     = _warmup_first_datetime s) ∧
  (∀ skip batches,
     Forall (λ b, ∃ m' ms', b = m' :: ms' ∧ hz_low m' = 0) batches →
     let s' := after_calls (SignalStore_init skip) (batches ++ [m :: ms]) in
     _warmup_bucket_frequency s' = hz_low m ∧
     _warmup_first_datetime s' = datetime m).
Proof.
  destruct (call_reference m ms s) as [Hf He].
  destruct (noted_reference m s) as [Hzero Hset].
  split; [|split].
  - intros H0. destruct (Hzero H0). split; congruence.
  - intros Hne. destruct (Hset Hne). split; congruence.
  - intros skip batches Hall. simpl. rewrite after_calls_snoc.
    pose proof (zero_reference_stays (SignalStore_init skip) batches
                  eq_refl Hall) as H0.
    destruct (call_reference m ms (after_calls (SignalStore_init skip) batches))
      as [-> ->].
    destruct (noted_reference m (after_calls (SignalStore_init skip) batches))
      as [Hz _].
    by apply Hz.
Qed.

(** The first line starts at 0 Hz, the second at 10 Hz: the second call
    re-assigns the reference, the third does not, so epoch0 is the second
    line's timestamp and not the latest one. *)
Lemma reference_fixed_after_nonzero_key :
  _warmup_bucket_frequency (after_calls (SignalStore_init false)
                              (take 1 zero_key_batches)) = 0 ∧
  _warmup_bucket_frequency (after_calls (SignalStore_init false)
                              (take 2 zero_key_batches)) = 10 ∧
  _warmup_first_datetime (after_calls (SignalStore_init false)
                            (take 2 zero_key_batches)) = 5 ∧
  _warmup_bucket_frequency (after_calls (SignalStore_init false)
                              zero_key_batches) = 10 ∧
  _warmup_first_datetime (after_calls (SignalStore_init false)
                            zero_key_batches) = 5.
Proof. vm_compute. repeat split. Qed.

Lemma reference_reassigned_while_zero_witness :
  _warmup_bucket_frequency
    (fst (add_measurements (sweep_line 5 10 10 [(-70)%float])
            (after_calls (SignalStore_init false) (take 1 zero_key_batches))))
    = 10 ∧
  _warmup_first_datetime
    (fst (add_measurements (sweep_line 5 10 10 [(-70)%float])
            (after_calls (SignalStore_init false) (take 1 zero_key_batches))))
    = 5.
Proof.
  exact (proj1 (reference_reassigned_while_zero
                  (after_calls (SignalStore_init false)
                     (take 1 zero_key_batches))
                  (mk_Measurement 5 10 20 (-70)%float) []) eq_refl).
Defined.

(** ** The warmup count *)

Section warmup_proofs.
Implicit Types (s : SignalStore) (m : Measurement) (ms b : list Measurement).

Lemma reference_count_cons f m ms :
  reference_count f (m :: ms)
    = (if in_reference f m then 1 else 0) + reference_count f ms.
Proof.
  unfold reference_count. rewrite filter_cons.
  destruct (in_reference f m); case_decide; try done; simpl; lia.
Qed.

Lemma reference_count_app f ms1 ms2 :
  reference_count f (ms1 ++ ms2)
    = reference_count f ms1 + reference_count f ms2.
Proof.
  unfold reference_count. rewrite filter_app, length_app. lia.
Qed.

Lemma counted_calibrating m s :
  is_warmed_up s = false →
  _warmup_measurement_count (counted m s)
    = _warmup_measurement_count s
      + (if in_reference (_warmup_bucket_frequency s) m then 1 else 0) ∧
  _warmup_resize_ringbufs (counted m s)
    = _warmup_resize_ringbufs s
      || past_one_second (_warmup_bucket_frequency s)
           (_warmup_first_datetime s) m.
Proof.
  intros Hw. unfold counted, past_one_second, in_reference. rewrite Hw. simpl.
  destruct (_ =? hz_low m); simpl.
  - destruct (_ >? 1); simpl; (split; [done|]);
      by destruct (_warmup_resize_ringbufs s).
  - split; [lia|by rewrite orb_false_r].
Qed.

Lemma counted_warmed m s : is_warmed_up s = true → counted m s = s.
Proof. intros Hw. unfold counted. by rewrite Hw. Qed.

Lemma store_wf_counted m s : store_wf s → store_wf (counted m s).
Proof. unfold store_wf. by rewrite ranges_counted. Qed.

(** On well-formed buffers the loop runs to its end; while calibrating it
    counts the reference bucket and raises the signal, once warmed it leaves
    both alone. *)
Lemma loop_ok ms s :
  store_wf s →
  ∃ s', for_each ms (λ m, warmup_count m ;> route m) s = (s', inr tt) ∧
        store_wf s' ∧ settings s' = settings s ∧
        if is_warmed_up s then
          _warmup_measurement_count s' = _warmup_measurement_count s ∧
          _warmup_resize_ringbufs s' = _warmup_resize_ringbufs s
        else
          _warmup_measurement_count s'
            = _warmup_measurement_count s
              + reference_count (_warmup_bucket_frequency s) ms ∧
          _warmup_resize_ringbufs s'
            = _warmup_resize_ringbufs s
              || signals_resize (_warmup_bucket_frequency s)
                   (_warmup_first_datetime s) ms.
Proof.
  revert s. induction ms as [|m ms IH]; intros s Hwf.
  - exists s. split; [done|]. split; [done|]. split; [done|].
    destruct (is_warmed_up s); simpl.
    + done.
    + unfold reference_count. simpl. split; [lia|by rewrite orb_false_r].
  - rewrite loop_cons.
    destruct (route_ok m (counted m s) (store_wf_counted m s Hwf))
      as (r & -> & Hwf1).
    destruct (IH _ Hwf1) as (s' & Hrun & Hwf' & Hset & Hcount).
    exists s'. split; [done|]. split; [done|].
    rewrite settings_set_ranges, settings_counted in Hset.
    split; [done|].
    assert (Hw1 : is_warmed_up (set_ranges r (counted m s)) = is_warmed_up s).
    { pose proof (settings_counted m s) as (_ & _ & _ & Hw & _)%settings_inv.
      exact Hw. }
    rewrite Hw1 in Hcount. simpl in Hcount.
    destruct (is_warmed_up s) eqn:Hw.
    + by rewrite counted_warmed in Hcount.
    + destruct (counted_calibrating m s Hw) as [Hc Hf].
      pose proof (settings_counted m s) as (_ & _ & _ & _ & Hfr & Hep)%settings_inv.
      rewrite Hc, Hf, Hfr, Hep in Hcount. destruct Hcount as [-> ->].
      rewrite reference_count_cons. simpl. split; [lia|].
      by rewrite orb_assoc.
Qed.

Lemma store_wf_noted m s : store_wf s → store_wf (noted m s).
Proof.
  unfold store_wf. by destruct (noted_calibration m s) as (_ & _ & -> & _).
Qed.

Lemma store_wf_resized s : store_wf s → store_wf (resized s).
Proof.
  unfold resized. destruct (_ && _); [|done].
  intros _ k rb. simpl. by rewrite lookup_empty.
Qed.

Lemma store_wf_init skip : store_wf (SignalStore_init skip).
Proof. intros k rb. simpl. by rewrite lookup_empty. Qed.

(** A call while calibrating, with no signal pending. *)
Lemma call_calibrating m ms s :
  store_wf s → is_warmed_up s = false → _warmup_resize_ringbufs s = false →
  ∃ s', add_measurements (m :: ms) s = (s', inr tt) ∧ store_wf s' ∧
        is_warmed_up s' = false ∧ _BUFSIZE s' = _BUFSIZE s ∧
        _warmup_bucket_frequency s' = _warmup_bucket_frequency (noted m s) ∧
        _warmup_first_datetime s' = _warmup_first_datetime (noted m s) ∧
        _warmup_measurement_count s'
          = _warmup_measurement_count s
            + reference_count (_warmup_bucket_frequency (noted m s)) (m :: ms) ∧
        _warmup_resize_ringbufs s'
          = signals_resize (_warmup_bucket_frequency (noted m s))
              (_warmup_first_datetime (noted m s)) (m :: ms).
Proof.
  intros Hwf Hw Hflag. rewrite add_measurements_cons.
  destruct (noted_calibration m s) as (Hw0 & HB0 & _ & Hf0 & Hc0).
  assert (Hres : resized (noted m s) = noted m s).
  { unfold resized. by rewrite Hw0, Hw, Hf0, Hflag. }
  rewrite Hres.
  destruct (loop_ok (m :: ms) (noted m s) (store_wf_noted m s Hwf))
    as (s' & -> & Hwf' & Hset & Hcount).
  apply settings_inv in Hset as (HB & _ & _ & Hw' & Hfr & Hep).
  rewrite Hw0, Hw in Hcount. destruct Hcount as [Hc Hf].
  exists s'. unfold is_warmed_up in *.
  repeat (split; [first [done|congruence]|]).
  rewrite Hf, Hf0, Hflag. done.
Qed.

(** The call after the signal: the resize happens first, with the count as
    it stands. *)
Lemma call_resize m ms s :
  store_wf s → is_warmed_up s = false → _warmup_resize_ringbufs s = true →
  ∃ s', add_measurements (m :: ms) s = (s', inr tt) ∧ store_wf s' ∧
        is_warmed_up s' = true ∧ _BUFSIZE s' = _warmup_measurement_count s.
Proof.
  intros Hwf Hw Hflag. rewrite add_measurements_cons.
  destruct (noted_calibration m s) as (Hw0 & HB0 & _ & Hf0 & Hc0).
  destruct (loop_ok (m :: ms) (resized (noted m s))
              (store_wf_resized _ (store_wf_noted m s Hwf)))
    as (s' & -> & Hwf' & Hset & _).
  apply settings_inv in Hset as (HB & _ & _ & Hw' & _).
  exists s'. split; [done|]. split; [done|].
  unfold is_warmed_up in *. rewrite HB, Hw'.
  unfold resized, is_warmed_up. rewrite Hw0, Hw, Hf0, Hflag. simpl.
  split; [done|]. done.
Qed.

(** A call once warmed. *)
Lemma call_warmed m ms s :
  store_wf s → is_warmed_up s = true →
  ∃ s', add_measurements (m :: ms) s = (s', inr tt) ∧ store_wf s' ∧
        is_warmed_up s' = true ∧ _BUFSIZE s' = _BUFSIZE s.
Proof.
  intros Hwf Hw. rewrite add_measurements_cons.
  destruct (noted_calibration m s) as (Hw0 & HB0 & _ & Hf0 & Hc0).
  assert (Hres : resized (noted m s) = noted m s).
  { unfold resized. by rewrite Hw0, Hw. }
  rewrite Hres.
  destruct (loop_ok (m :: ms) (noted m s) (store_wf_noted m s Hwf))
    as (s' & -> & Hwf' & Hset & _).
  apply settings_inv in Hset as (HB & _ & _ & Hw' & _).
  exists s'. unfold is_warmed_up in *.
  split; [done|]. split; [done|]. split; congruence.
Qed.

(** *** Sequences of calls *)

Lemma ingest_cons b (batches : list (list Measurement)) s :
  ingest (b :: batches) s =
    match add_measurements b s with
    | (s1, inr _) => ingest batches s1
    | (s1, inl e) => (s1, inl e)
    end.
Proof.
  simpl. unfold bind.
  by destruct (add_measurements b s) as [s1 [e|[]]].
Qed.

Lemma ingest_app (batches1 batches2 : list (list Measurement)) s s1 :
  ingest batches1 s = (s1, inr tt) →
  ingest (batches1 ++ batches2) s = ingest batches2 s1.
Proof.
  revert s. induction batches1 as [|b batches1 IH]; intros s.
  - by intros [= ->].
  - simpl app. rewrite !ingest_cons.
    destruct (add_measurements b s) as [s2 [e|[]]]; [done|]. apply IH.
Qed.

Lemma noted_fixed_reference m s :
  _warmup_bucket_frequency s ≠ 0 →
  _warmup_bucket_frequency (noted m s) = _warmup_bucket_frequency s ∧
  _warmup_first_datetime (noted m s) = _warmup_first_datetime s.
Proof. intros Hne. by apply noted_reference. Qed.

(** Batches without a signal keep the store calibrating and add their
    share of the reference bucket to the count. *)
Lemma ingest_calibrating (batches : list (list Measurement)) s :
  store_wf s → is_warmed_up s = false → _warmup_resize_ringbufs s = false →
  _warmup_bucket_frequency s ≠ 0 →
  Forall (λ b, b ≠ []) batches →
  Forall (λ b, signals_resize (_warmup_bucket_frequency s)
                 (_warmup_first_datetime s) b = false) batches →
  ∃ s', ingest batches s = (s', inr tt) ∧ store_wf s' ∧
        is_warmed_up s' = false ∧ _warmup_resize_ringbufs s' = false ∧
        _BUFSIZE s' = _BUFSIZE s ∧
        _warmup_bucket_frequency s' = _warmup_bucket_frequency s ∧
        _warmup_first_datetime s' = _warmup_first_datetime s ∧
        _warmup_measurement_count s'
          = _warmup_measurement_count s
            + reference_count (_warmup_bucket_frequency s) (concat batches).
Proof.
  revert s. induction batches as [|b batches IH];
    intros s Hwf Hw Hflag Hne Hnonempty Hquiet.
  - exists s. unfold reference_count. simpl.
    repeat (split; [done|]). lia.
  - apply Forall_cons in Hnonempty as [Hb Hnonempty].
    apply Forall_cons in Hquiet as [Hqb Hquiet].
    destruct b as [|m ms]; [done|].
    destruct (call_calibrating m ms s Hwf Hw Hflag)
      as (s1 & Hcall & Hwf1 & Hw1 & HB1 & Hf1 & He1 & Hc1 & Hflag1).
    destruct (noted_fixed_reference m s Hne) as [Hnf Hne'].
    rewrite Hnf in Hf1, Hc1, Hflag1. rewrite Hne' in He1, Hflag1.
    rewrite Hqb in Hflag1.
    rewrite <- Hf1, <- He1 in Hquiet.
    destruct (IH s1 Hwf1 Hw1 Hflag1 ltac:(congruence) Hnonempty Hquiet)
      as (s' & Hrun & Hwf' & Hw' & Hflag' & HB' & Hf' & He' & Hc').
    exists s'. rewrite ingest_cons, Hcall.
    repeat (split; [first [done|congruence]|]).
    rewrite concat_cons, reference_count_app, Hc', Hc1, Hf1. lia.
Qed.

(** Once warmed, non-empty batches keep the store warmed and the capacity
    as it is. *)
Lemma ingest_warmed (batches : list (list Measurement)) s :
  store_wf s → is_warmed_up s = true → Forall (λ b, b ≠ []) batches →
  ∃ s', ingest batches s = (s', inr tt) ∧
        is_warmed_up s' = true ∧ _BUFSIZE s' = _BUFSIZE s.
Proof.
  revert s. induction batches as [|b batches IH]; intros s Hwf Hw Hnonempty.
  - by exists s.
  - apply Forall_cons in Hnonempty as [Hb Hnonempty].
    destruct b as [|m ms]; [done|].
    destruct (call_warmed m ms s Hwf Hw) as (s1 & Hcall & Hwf1 & Hw1 & HB1).
    destruct (IH s1 Hwf1 Hw1 Hnonempty) as (s' & Hrun & Hw' & HB').
    exists s'. rewrite ingest_cons, Hcall. split; [done|].
    split; congruence.
Qed.

(** From the batch that raises the signal on: that batch ends with the
    signal pending and the store still calibrating, the next call resizes
    to the count reached, and the capacity stays. *)
Lemma ingest_from_signal m ms (next : list Measurement)
    (rest : list (list Measurement)) s :
  store_wf s → is_warmed_up s = false → _warmup_resize_ringbufs s = false →
  signals_resize (_warmup_bucket_frequency (noted m s))
    (_warmup_first_datetime (noted m s)) (m :: ms) = true →
  Forall (λ b, b ≠ []) (next :: rest) →
  (∃ s1, add_measurements (m :: ms) s = (s1, inr tt) ∧
         is_warmed_up s1 = false ∧ _warmup_resize_ringbufs s1 = true) ∧
  ∃ s', ingest ((m :: ms) :: next :: rest) s = (s', inr tt) ∧
        is_warmed_up s' = true ∧
        _BUFSIZE s'
          = _warmup_measurement_count s
            + reference_count (_warmup_bucket_frequency (noted m s)) (m :: ms).
Proof.
  intros Hwf Hw Hflag Hsig Hnonempty.
  apply Forall_cons in Hnonempty as [Hnext Hnonempty].
  destruct next as [|m' ms']; [done|].
  destruct (call_calibrating m ms s Hwf Hw Hflag)
    as (s1 & Hcall & Hwf1 & Hw1 & _ & _ & _ & Hc1 & Hflag1).
  rewrite Hsig in Hflag1.
  split; [by exists s1|].
  destruct (call_resize m' ms' s1 Hwf1 Hw1 Hflag1)
    as (s2 & Hcall2 & Hwf2 & Hw2 & HB2).
  destruct (ingest_warmed rest s2 Hwf2 Hw2 Hnonempty) as (s' & Hrun & Hw' & HB').
  exists s'. rewrite ingest_cons, Hcall, ingest_cons, Hcall2.
  split; [done|]. split; [done|]. congruence.
Qed.
End warmup_proofs.

(** Whatever the batches hold.  Take any input whose first measurement has a
    non-zero [low_hz] (the reference bucket; its timestamp is epoch0), split
    into non-empty batches.  If [trig] is the first batch holding a
    reference-bucket measurement later than one second past epoch0 and at
    least one more batch follows, then every call succeeds, the store is
    still calibrating after [trig], it is warmed after the next call, and
    the capacity is the number of reference-bucket measurements of all
    batches up to and including [trig]. *)
Lemma capacity_counts_batches
    (skip : bool) (pre : list (list Measurement)) (trig next : list Measurement)
    (rest : list (list Measurement)) (m0 : Measurement) :
  Forall (λ b, b ≠ []) (pre ++ trig :: next :: rest) →
  head (concat (pre ++ [trig])) = Some m0 →
  hz_low m0 ≠ 0 →
  Forall (λ b, signals_resize (hz_low m0) (datetime m0) b = false) pre →
  signals_resize (hz_low m0) (datetime m0) trig = true →
  (∃ s1, ingest (pre ++ [trig]) (SignalStore_init skip) = (s1, inr tt) ∧
         is_warmed_up s1 = false ∧ _warmup_resize_ringbufs s1 = true) ∧
  ∃ s', ingest (pre ++ trig :: next :: rest) (SignalStore_init skip)
          = (s', inr tt) ∧
        is_warmed_up s' = true ∧
        _BUFSIZE s' = reference_count (hz_low m0) (concat (pre ++ [trig])).
Proof.
  intros Hnonempty Hhead Hkey Hquiet Hsig.
  apply Forall_app in Hnonempty as [Hpre Htail].
  apply Forall_cons in Htail as [Htrig Htail].
  pose proof (store_wf_init skip) as Hwf0.
  destruct pre as [|b pre].
  - (* the first batch raises the signal *)
    destruct trig as [|m ms]; [done|]. simpl in Hhead.
    injection Hhead as ->.
    destruct (ingest_from_signal m0 ms next rest (SignalStore_init skip)
                Hwf0 eq_refl eq_refl) as [(s1 & Hcall & Hw1 & Hf1) Hrun].
    + destruct (noted_reference m0 (SignalStore_init skip)) as [Hz _].
      destruct (Hz eq_refl) as [-> ->]. done.
    + done.
    + split.
      * exists s1. simpl app. rewrite ingest_cons, Hcall. done.
      * destruct Hrun as (s' & Hrun & Hw' & HB'). exists s'.
        split; [done|]. split; [done|]. rewrite HB'.
        destruct (noted_reference m0 (SignalStore_init skip)) as [Hz _].
        destruct (Hz eq_refl) as [-> _].
        rewrite app_nil_l, concat_cons, concat_nil, app_nil_r.
        change (_warmup_measurement_count (SignalStore_init skip)) with 0.
        lia.
  - (* the first batch is quiet *)
    apply Forall_cons in Hpre as [Hb Hpre].
    apply Forall_cons in Hquiet as [Hqb Hquiet].
    destruct b as [|m ms]; [done|]. simpl in Hhead. injection Hhead as ->.
    destruct (noted_reference m0 (SignalStore_init skip)) as [Hz _].
    destruct (Hz eq_refl) as [Hnf Hne].
    destruct (call_calibrating m0 ms (SignalStore_init skip) Hwf0 eq_refl eq_refl)
      as (s1 & Hcall & Hwf1 & Hw1 & _ & Hf1 & He1 & Hc1 & Hflag1).
    rewrite Hnf in Hf1, Hc1, Hflag1. rewrite Hne in He1, Hflag1.
    rewrite Hqb in Hflag1.
    rewrite <- Hf1, <- He1 in Hquiet.
    destruct (ingest_calibrating pre s1 Hwf1 Hw1 Hflag1 ltac:(congruence)
                Hpre Hquiet)
      as (s2 & Hrun2 & Hwf2 & Hw2 & Hflag2 & _ & Hf2 & He2 & Hc2).
    destruct trig as [|m ms']; [done|].
    assert (Hf2' : _warmup_bucket_frequency s2 ≠ 0) by congruence.
    destruct (noted_fixed_reference m s2 Hf2') as [Hnf2 Hne2].
    destruct (ingest_from_signal m ms' next rest s2 Hwf2 Hw2 Hflag2)
      as [(s3 & Hcall3 & Hw3 & Hflag3) (s' & Hrun & Hw' & HB')].
    + rewrite Hnf2, Hne2, Hf2, He2, Hf1, He1. exact Hsig.
    + exact Htail.
    + assert (Hpre_run : ingest ((m0 :: ms) :: pre) (SignalStore_init skip)
                         = (s2, inr tt)).
      { rewrite ingest_cons, Hcall. exact Hrun2. }
      split.
      * exists s3. rewrite (ingest_app _ _ _ _ Hpre_run).
        rewrite ingest_cons, Hcall3. done.
      * exists s'. rewrite (ingest_app _ _ _ _ Hpre_run).
        split; [done|]. split; [done|].
        rewrite HB', Hnf2, Hc2, Hc1, Hf2, Hf1.
        rewrite <- app_comm_cons, concat_cons, concat_app, concat_cons,
          concat_nil, app_nil_r, !reference_count_app.
        change (_warmup_measurement_count (SignalStore_init skip)) with 0.
        lia.
Qed.

(** A batch built by hand that names the reference bucket twice, which no
    decoded line does: both readings are counted, so the capacity is 3, one
    more than the count up to and including the reading that raised the
    signal. *)
Lemma capacity_counts_past_the_signal :
  snd (ingest repeated_key_batches (SignalStore_init false)) = inr tt ∧
  is_warmed_up (fst (ingest repeated_key_batches (SignalStore_init false)))
    = true ∧
  _BUFSIZE (fst (ingest repeated_key_batches (SignalStore_init false))) = 3 ∧
  count_until_signal 2400000000 0 (concat repeated_key_batches) = 2.
Proof. vm_compute. repeat split. Qed.

(** *** Batches as the decoder emits them *)

Section decoded_batches.
Implicit Types (m : Measurement) (ms rest : list Measurement).

Lemma count_until_signal_quiet f epoch0 ms rest :
  signals_resize f epoch0 ms = false →
  count_until_signal f epoch0 (ms ++ rest)
    = reference_count f ms + count_until_signal f epoch0 rest.
Proof.
  unfold signals_resize. induction ms as [|m ms IH]; simpl.
  - intros _. unfold reference_count. simpl. lia.
  - intros [Hm Hms]%orb_false_elim. rewrite Hm, reference_count_cons.
    rewrite (IH Hms). lia.
Qed.

Lemma reference_count_absent f ms :
  f ∉ hz_low <$> ms → reference_count f ms = 0.
Proof.
  induction ms as [|m ms IH]; [done|].
  rewrite fmap_cons, not_elem_of_cons. intros [Hne Hms].
  rewrite reference_count_cons, (IH Hms). unfold in_reference.
  destruct (Z.eqb_spec f (hz_low m)); [done|lia].
Qed.

Lemma signals_resize_key f epoch0 ms :
  signals_resize f epoch0 ms = true → f ∈ hz_low <$> ms.
Proof.
  unfold signals_resize. induction ms as [|m ms IH]; simpl; [done|].
  intros [Hm|Hms]%orb_prop.
  - unfold past_one_second, in_reference in Hm.
    apply andb_prop in Hm as [->%Z.eqb_eq _]. by left.
  - right. by apply IH.
Qed.

(** A line of the decoder holds each bucket once.  In such a batch the
    reference bucket is counted once, by the reading that raises the
    signal. *)
Lemma count_until_signal_decoded f epoch0 ms rest :
  NoDup (hz_low <$> ms) → signals_resize f epoch0 ms = true →
  count_until_signal f epoch0 (ms ++ rest) = 1 ∧ reference_count f ms = 1.
Proof.
  induction ms as [|m ms IH]; [done|].
  rewrite fmap_cons, NoDup_cons. intros [Hm Hnodup] Hsig.
  simpl. rewrite reference_count_cons.
  destruct (past_one_second f epoch0 m) eqn:Hpast.
  - unfold past_one_second in Hpast.
    apply andb_prop in Hpast as [Hin _]. rewrite Hin.
    unfold in_reference in Hin. apply Z.eqb_eq in Hin as ->.
    rewrite reference_count_absent by done. done.
  - unfold signals_resize in Hsig. simpl in Hsig. rewrite Hpast in Hsig.
    simpl in Hsig. fold (signals_resize f epoch0 ms) in Hsig.
    destruct (in_reference f m) eqn:Hin.
    + unfold in_reference in Hin. apply Z.eqb_eq in Hin as ->.
      by apply signals_resize_key in Hsig.
    + destruct (IH Hnodup Hsig) as [-> ->]. done.
Qed.

(** With batches as the decoder emits them, the count the capacity is
    taken from is the count of reference-bucket readings up to and
    including the one that raises the signal. *)
Lemma capacity_is_count_until_signal f epoch0
    (pre : list (list Measurement)) (trig : list Measurement)
    (rest : list (list Measurement)) :
  Forall (λ b, signals_resize f epoch0 b = false) pre →
  signals_resize f epoch0 trig = true →
  NoDup (hz_low <$> trig) →
  reference_count f (concat (pre ++ [trig]))
    = count_until_signal f epoch0 (concat (pre ++ trig :: rest)).
Proof.
  intros Hquiet Hsig Hnodup.
  rewrite !concat_app, !concat_cons, concat_nil, app_nil_r.
  rewrite reference_count_app.
  destruct (count_until_signal_decoded f epoch0 trig (concat rest) Hnodup Hsig)
    as [Hcount ->].
  rewrite count_until_signal_quiet, Hcount; [done|].
  unfold signals_resize. induction Hquiet as [|b pre Hb _ IH]; [done|].
  rewrite concat_cons, existsb_app. unfold signals_resize in Hb.
  by rewrite Hb, IH.
Qed.
End decoded_batches.

(** ** The analysis: built-ins and dictionaries *)

Section analysis_proofs.
Context {A : Type}.
Implicit Types (lt : A → A → bool) (xs : list A).

Lemma insort_Permutation lt x xs : insort lt x xs ≡ₚ x :: xs.
Proof.
  induction xs as [|y xs IH]; simpl; [done|].
  destruct (lt y x); [|done].
  rewrite IH. apply perm_swap.
Qed.

Lemma sorted_Permutation lt xs : sorted lt xs ≡ₚ xs.
Proof.
  induction xs as [|x xs IH]; simpl; [done|].
  unfold sorted in *. simpl. rewrite insort_Permutation. by f_equiv.
Qed.

Lemma length_sorted lt xs : length (sorted lt xs) = length xs.
Proof. by rewrite sorted_Permutation. Qed.

Lemma getitem_keys (d : dict A) k :
  k ∈ keys d → ∃ v, getitem d k = inr v.
Proof.
  unfold keys. induction d as [|[k' v'] d IH]; simpl.
  - by intros ?%elem_of_nil.
  - intros [->|Hin]%elem_of_cons.
    + rewrite Z.eqb_refl. eauto.
    + destruct (k' =? k); eauto.
Qed.

Lemma keys_cons (d : dict A) k v : keys ((k, v) :: d) = k :: keys d.
Proof. done. Qed.

Lemma keys_setitem (d : dict A) k v :
  keys (setitem d k v) = if decide (k ∈ keys d) then keys d else keys d ++ [k].
Proof.
  induction d as [|[k' v'] d IH]; [done|]. simpl setitem.
  destruct (Z.eqb_spec k' k) as [->|Hne]; rewrite !keys_cons.
  - rewrite decide_True; [done|]. apply elem_of_cons. by left.
  - rewrite IH. destruct (decide (k ∈ keys d)).
    + rewrite decide_True; [done|]. apply elem_of_cons. by right.
    + rewrite decide_False; [done|].
      intros [->|?]%elem_of_cons; done.
Qed.
End analysis_proofs.

(** ** The analysis: averages, noise floor and active buckets *)

Section floor_proofs.
Implicit Types (measurements : gmap Z (list Measurement)) (d : dict float).

Lemma length_keys {V} (d : dict V) : length (keys d) = length d.
Proof. unfold keys. by rewrite length_fmap. Qed.

Lemma length_values {V} (d : dict V) : length (values d) = length d.
Proof. unfold values. by rewrite length_fmap. Qed.

(** The loop of lines 135-141 never raises, and it enters the buckets that
    hold data, in the order it visits them. *)
Lemma average_loop_ok measurements (fs : list Z) d :
  (∀ f, f ∈ fs → f ∈ dom measurements) → NoDup fs →
  (∀ f, f ∈ fs → f ∉ keys d) →
  ∃ d', average_loop measurements fs d = inr d' ∧
        keys d' = keys d ++ filter (λ f, has_data measurements f = true) fs.
Proof.
  revert d. induction fs as [|f fs IH]; intros d Hdom Hnodup Hfresh.
  - exists d. by rewrite app_nil_r.
  - apply NoDup_cons in Hnodup as [Hf Hnodup].
    assert (Hin : f ∈ dom measurements) by (apply Hdom; left).
    apply elem_of_dom in Hin as [ms Hms]. simpl. rewrite Hms.
    assert (Hhd : has_data measurements f = negb (length ms =? 0)%nat).
    { unfold has_data. rewrite Hms. by destruct ms. }
    rewrite filter_cons.
    destruct ms as [|m ms]; simpl in *.
    + rewrite decide_False by (by rewrite Hhd). apply IH; [|done|].
      * intros f' ?. apply Hdom. by right.
      * intros f' ?. apply Hfresh. by right.
    + rewrite decide_True by (by rewrite Hhd).
      destruct (IH (setitem d f
                      (fsum (db <$> m :: ms) / float_of_nat (S (length ms)))%float))
        as (d' & Hrun & Hkeys); [| done | |].
      * intros f' ?. apply Hdom. by right.
      * intros f' Hf'. rewrite keys_setitem.
        rewrite decide_False by (apply Hfresh; left).
        intros [?| ->%list_elem_of_singleton]%elem_of_app; [|done].
        by eapply Hfresh; [right|].
      * exists d'. split; [exact Hrun|]. rewrite Hkeys, keys_setitem.
        rewrite decide_False by (apply Hfresh; left).
        by rewrite <- app_assoc.
Qed.

Lemma average_strengths_ok measurements :
  ∃ d, average_strengths measurements = inr d ∧
       length d = buckets_with_data measurements.
Proof.
  unfold average_strengths, buckets_with_data.
  destruct (average_loop_ok measurements
              (sorted Z.ltb (elements (dom measurements))) [])
    as (d & Hrun & Hkeys).
  - intros f. rewrite sorted_Permutation. by rewrite elem_of_elements.
  - rewrite sorted_Permutation. apply NoDup_elements.
  - intros f _ ?%elem_of_nil. done.
  - exists d. split; [done|].
    rewrite <- length_keys, Hkeys. simpl.
    by rewrite sorted_Permutation.
Qed.

(** The division of line 33 raises exactly when fewer than four averages
    were given. *)
Lemma compute_noise_floor_cases d :
  if decide (length d < 4)%nat
  then compute_noise_floor d = inl ZeroDivisionError
  else ∃ noise_floor, compute_noise_floor d = inr noise_floor.
Proof.
  unfold compute_noise_floor. rewrite length_sorted, length_values.
  case_decide as Hlen.
  - rewrite Nat.div_small by done. done.
  - destruct (Nat.eqb_spec (length d / 4) 0) as [Hq|Hq]; [|eauto].
    apply Nat.div_small_iff in Hq; lia.
Qed.
End floor_proofs.

Lemma get_measurements_copy_eq (s : SignalStore) :
  get_measurements_copy s = (s, inr (snapshot s)).
Proof. done. Qed.

(** C3, as the code has it.  When analysis is not skipped and fewer than
    four buckets of the snapshot hold a measurement, [analyze] ends with the
    [ZeroDivisionError] of line 33, which nothing in [analyze] catches; with
    four or more, the averages and the noise floor are computed. *)
Theorem noise_floor_needs_four_buckets (s : SignalStore) :
  config_skip_analysis s = false →
  ((buckets_with_data (snapshot s) < 4)%nat →
   analyze s = (s, Some (inl ZeroDivisionError))) ∧
  ((4 ≤ buckets_with_data (snapshot s))%nat →
   ∃ averages noise_floor,
     average_strengths (snapshot s) = inr averages ∧
     compute_noise_floor averages = inr noise_floor).
Proof.
  intros Hskip.
  destruct (average_strengths_ok (snapshot s)) as (d & Havg & Hlen).
  pose proof (compute_noise_floor_cases d) as Hfloor.
  rewrite Hlen in Hfloor. split.
  - intros Hfew. rewrite decide_True in Hfloor by done.
    unfold analyze. by rewrite Hskip, get_measurements_copy_eq, Havg, Hfloor.
  - intros Hmany. rewrite decide_False in Hfloor by lia.
    destruct Hfloor as [noise_floor Hfloor]. eauto.
Qed.

(** Three buckets with data: the analysis ends with the uncaught
    [ZeroDivisionError], not with an outcome of its own. *)
Lemma three_buckets_raise_ZeroDivisionError :
  buckets_with_data (snapshot three_bucket_store) = 3%nat ∧
  is_warmed_up three_bucket_store = true ∧
  snd (analyze three_bucket_store) = Some (inl ZeroDivisionError).
Proof. vm_compute. repeat split. Qed.

Lemma noise_floor_needs_four_buckets_witness :
  analyze three_bucket_store = (three_bucket_store, Some (inl ZeroDivisionError)).
Proof.
  apply (noise_floor_needs_four_buckets three_bucket_store eq_refl).
  vm_compute. lia.
Defined.

(** ** The analysis: active buckets and regions *)

Section region_proofs.
Implicit Types (d : dict float) (hs ks : list Z) (ss : list float).

(** The loop of [find_signal_buckets] does not raise on keys of the dict,
    and every bucket it reports is one of them. *)
Lemma find_signal_loop_ok d noise_floor ks hs ss :
  (∀ k, k ∈ ks → k ∈ keys d) →
  ∃ hs' ss', find_signal_loop d noise_floor ks hs ss = inr (hs', ss') ∧
             ∀ k, k ∈ hs' → k ∈ hs ∨ k ∈ ks.
Proof.
  revert hs ss. induction ks as [|k ks IH]; intros hs ss Hks; simpl.
  - exists hs, ss. split; [done|]. by left.
  - destruct (getitem_keys d k) as [v ->]; [apply Hks; by left|].
    assert (Hks' : ∀ k', k' ∈ ks → k' ∈ keys d)
      by (intros k' ?; apply Hks; by right).
    destruct (PrimFloat.ltb _ v).
    + destruct (IH (hs ++ [k]) (ss ++ [v]) Hks') as (hs' & ss' & -> & Hsub).
      exists hs', ss'. split; [done|]. intros k' Hk'.
      destruct (Hsub k' Hk') as [[?| ->%list_elem_of_singleton]%elem_of_app|?].
      * by left.
      * right. by left.
      * right. by right.
    + destruct (IH hs ss Hks') as (hs' & ss' & -> & Hsub).
      exists hs', ss'. split; [done|]. intros k' Hk'.
      destruct (Hsub k' Hk'); [by left|right; by right].
Qed.

Lemma find_signal_buckets_keys d noise_floor hs ss :
  find_signal_buckets d noise_floor = inr (hs, ss) →
  ∀ k, k ∈ hs → k ∈ keys d.
Proof.
  unfold find_signal_buckets. intros Hrun k Hk.
  destruct (find_signal_loop_ok d noise_floor (sorted Z.ltb (keys d)) [] [])
    as (hs' & ss' & Hrun' & Hsub).
  { intros k'. by rewrite sorted_Permutation. }
  rewrite Hrun in Hrun'. injection Hrun' as <- <-.
  destruct (Hsub k Hk) as [?%elem_of_nil|Hin]; [done|].
  by rewrite sorted_Permutation in Hin.
Qed.

Lemma make_bucket_ranges_lookup bucket_width d k :
  k ∈ keys d → is_Some (make_bucket_ranges bucket_width d !! k).
Proof.
  intros Hk. unfold make_bucket_ranges.
  destruct (list_to_map _ !! k) eqn:Hlook; [eauto|].
  apply not_elem_of_list_to_map in Hlook. exfalso. apply Hlook.
  rewrite <- list_fmap_compose. simpl.
  by rewrite list_fmap_id.
Qed.

Lemma lookup_ranges_ok (bucket_ranges : gmap Z (Z * Z)) hs :
  (∀ k, k ∈ hs → is_Some (bucket_ranges !! k)) →
  ∃ rs, lookup_ranges bucket_ranges hs = inr rs ∧ length rs = length hs.
Proof.
  induction hs as [|f hs IH]; intros Hall; simpl.
  - by exists [].
  - destruct (Hall f) as [r ->]; [by left|].
    destruct IH as (rs & -> & Hlen); [intros k ?; apply Hall; by right|].
    exists (r :: rs). simpl. by rewrite Hlen.
Qed.

(** The guard of line 71: up to two active buckets give no region. *)
Lemma get_contiguous_regions_short bucket_width
    (bucket_ranges : gmap Z (Z * Z)) hs ss :
  (length hs ≤ 2)%nat →
  (∀ k, k ∈ hs → is_Some (bucket_ranges !! k)) →
  get_contiguous_regions bucket_width bucket_ranges hs ss = Some (inr []).
Proof.
  intros Hlen Hall. unfold get_contiguous_regions.
  destruct (lookup_ranges_ok bucket_ranges hs Hall) as (rs & -> & Hrs).
  rewrite Hrs. destruct (Nat.ltb_spec 2 (length hs)); [lia|done].
Qed.
End region_proofs.

(** C7. When the snapshot yields zero or exactly one active bucket, the
    merge returns the empty region list, whatever ranges the buckets have,
    and [analyze] reaches its verdict with no region and no detection. *)
Theorem lone_active_bucket_no_region
    (s : SignalStore) (averages : dict float) (noise_floor : float)
    (has_signal : list Z) (signal_strengths : list float) (bucket_width : Z) :
  config_skip_analysis s = false →
  average_strengths (snapshot s) = inr averages →
  compute_noise_floor averages = inr noise_floor →
  find_signal_buckets averages noise_floor = inr (has_signal, signal_strengths) →
  (length has_signal ≤ 1)%nat →
  _bucket_width s = Some bucket_width → truthy bucket_width = true →
  get_contiguous_regions bucket_width
    (make_bucket_ranges bucket_width averages) has_signal signal_strengths
    = Some (inr []) ∧
  analyze s =
    (s, Some (inr (Printed (mk_report noise_floor has_signal signal_strengths
                              [] [] false)))).
Proof.
  intros Hskip Havg Hfloor Hsig Hlen Hwidth Htruthy.
  assert (Hregions :
    get_contiguous_regions bucket_width
      (make_bucket_ranges bucket_width averages) has_signal signal_strengths
      = Some (inr [])).
  { apply get_contiguous_regions_short; [lia|].
    intros k Hk. apply make_bucket_ranges_lookup.
    by eapply find_signal_buckets_keys. }
  split; [exact Hregions|].
  unfold analyze.
  rewrite Hskip, get_measurements_copy_eq, Havg, Hfloor, Hsig.
  unfold get_bucket_width, bind, self, ret. rewrite Hwidth, Htruthy.
  by rewrite Hregions.
Qed.

(** One bucket 20 dB above the others: it is active, and alone. *)
Lemma lone_active_bucket_no_region_witness :
  get_contiguous_regions 1000000
    (make_bucket_ranges 1000000
       [(2400000000, (-70)%float); (2401000000, (-71)%float);
        (2402000000, (-72)%float); (2403000000, (-50)%float);
        (2404000000, (-70)%float); (2405000000, (-71)%float);
        (2406000000, (-72)%float); (2407000000, (-73)%float)])
    [2403000000] [(-50)%float]
    = Some (inr []) ∧
  analyze lone_bucket_store =
    (lone_bucket_store,
     Some (inr (Printed (mk_report (-72.5)%float [2403000000] [(-50)%float]
                           [] [] false)))).
Proof.
  apply (lone_active_bucket_no_region lone_bucket_store); reflexivity.
Defined.

(** ** The analysis always ends *)

Section termination_proofs.
Implicit Types (signal_ranges : list (Z * Z)) (i bound : nat).

(** The inner loop ends within [length signal_ranges - i] iterations, at a
    position that is not before the one it started from. *)
Lemma extend_region_total signal_ranges bound i end_ :
  (length signal_ranges ≤ i + bound)%nat → (0 < bound)%nat →
  ∃ r, extend_region bound signal_ranges i end_ = Some r ∧
       match r with inr (i', _) => (i ≤ i')%nat | inl _ => True end.
Proof.
  revert i end_. induction bound as [|bound IH]; intros i end_ Hlen Hpos; [lia|].
  simpl.
  destruct (signal_ranges !! i) as [a|]; [|by eexists].
  destruct (signal_ranges !! (i + 1)%nat) as [b|]; [|by eexists].
  destruct (snd a =? fst b); [|eexists; split; [done|]; simpl; lia].
  destruct (Nat.leb_spec (length signal_ranges - 1) (i + 1)) as [?|Hmore].
  - eexists; split; [done|]. simpl. lia.
  - destruct (IH (i + 1)%nat (fst b)) as (r & -> & Hr); [lia|lia|].
    exists r. split; [done|]. destruct r as [e|[i' end']]; [done|lia].
Qed.

Lemma collect_regions_total signal_ranges bound i regions :
  (length signal_ranges ≤ i + bound)%nat → (0 < bound)%nat →
  is_Some (collect_regions bound signal_ranges i regions).
Proof.
  revert i regions.
  induction bound as [|bound IH]; intros i regions Hlen Hpos; [lia|].
  simpl.
  destruct (signal_ranges !! i) as [a|] eqn:Ha; [|by eexists].
  apply lookup_lt_Some in Ha.
  destruct (extend_region_total signal_ranges (length signal_ranges) i (snd a))
    as (r & -> & Hr); [lia|lia|].
  destruct r as [e|[i' end']]; [by eexists|].
  destruct (Nat.leb_spec (length signal_ranges - 1) (i' + 1)) as [?|Hmore];
    [by eexists|].
  apply IH; lia.
Qed.

Lemma get_contiguous_regions_total bucket_width
    (bucket_ranges : gmap Z (Z * Z)) (hs : list Z) (ss : list float) :
  is_Some (get_contiguous_regions bucket_width bucket_ranges hs ss).
Proof.
  unfold get_contiguous_regions.
  destruct (lookup_ranges bucket_ranges hs) as [e|signal_ranges]; [by eexists|].
  destruct (Nat.ltb_spec 2 (length signal_ranges)); [|by eexists].
  apply collect_regions_total; lia.
Qed.

(** [analyze] never reaches the bound of the loops: it always ends, with a
    verdict, the early return or an exception. *)
Lemma analyze_total (s : SignalStore) : is_Some (snd (analyze s)).
Proof.
  unfold analyze.
  destruct (config_skip_analysis s); [by eexists|].
  rewrite get_measurements_copy_eq.
  destruct (average_strengths (snapshot s)) as [e|averages]; [by eexists|].
  destruct (compute_noise_floor averages) as [e|noise_floor]; [by eexists|].
  destruct (find_signal_buckets averages noise_floor) as [e|[hs ss]];
    [by eexists|].
  destruct (get_bucket_width s) as [s' [e|bucket_width]]; [by eexists|].
  destruct (get_contiguous_regions_total bucket_width
              (make_bucket_ranges bucket_width averages) hs ss) as [r ->].
  destruct r as [e|regions]; by eexists.
Qed.
End termination_proofs.

(** ** The verdict *)

Lemma get_drone_regions_nonempty (regions : list (Z * Z)) :
  get_drone_regions regions ≠ [] ↔
  Exists (λ r, BANDWIDTH_THRESHOLD < snd r - fst r) regions.
Proof.
  unfold get_drone_regions. induction regions as [|r regions IH]; simpl.
  - rewrite Exists_nil. done.
  - rewrite filter_cons, Exists_cons. case_decide.
    + split; [by left|done].
    + rewrite IH. split; [by right|]. by intros [?|?].
Qed.

(** X14. Whenever [analyze] reaches its verdict, the regions it keeps are the
    contiguous regions wider than [BANDWIDTH_THRESHOLD], and it reports a
    detection exactly when there is one. *)
Lemma analyze_verdict (s : SignalStore) (r : report) :
  snd (analyze s) = Some (inr (Printed r)) →
  drone_regions r = get_drone_regions (contiguous_regions r) ∧
  (drone_detected r = true ↔
   Exists (λ reg, BANDWIDTH_THRESHOLD < snd reg - fst reg)
     (contiguous_regions r)).
Proof.
  unfold analyze.
  destruct (config_skip_analysis s); [done|].
  rewrite get_measurements_copy_eq.
  destruct (average_strengths (snapshot s)) as [e|averages]; [done|].
  destruct (compute_noise_floor averages) as [e|noise_floor]; [done|].
  destruct (find_signal_buckets averages noise_floor) as [e|[hs ss]]; [done|].
  destruct (get_bucket_width s) as [s' [e|bucket_width]]; [done|].
  destruct (get_contiguous_regions _ _ _ _) as [[e|regions]|]; [done| |done].
  simpl. intros [= <-]. simpl. split; [done|].
  rewrite <- get_drone_regions_nonempty.
  destruct (get_drone_regions regions); split; done.
Qed.

(** C1, on the code.  With exactly the buckets [2450,2460) and [2460,2470)
    MHz active, [analyze] finds no region and no detection: the guard of
    line 71 asks for more than two active buckets.  With a third adjacent
    bucket the region found ends at the low edge of the last bucket, 2470
    MHz, not at its high edge: line 81 takes [signal_ranges[i+1][0]]. *)
Theorem adjacent_pair_not_merged :
  get_contiguous_regions 10000000
    (make_bucket_ranges 10000000
       [(2450000000, (-50)%float); (2460000000, (-51)%float)])
    [2450000000; 2460000000] [(-50)%float; (-51)%float]
    = Some (inr []) ∧
  snd (analyze adjacent_pair_store) =
    Some (inr (Printed (mk_report (-72.5)%float
                          [2450000000; 2460000000] [(-50)%float; (-51)%float]
                          [] [] false))) ∧
  snd (analyze adjacent_triple_store) =
    Some (inr (Printed (mk_report (-72.5)%float
                          [2450000000; 2460000000; 2470000000]
                          [(-50)%float; (-51)%float; (-52)%float]
                          [(2450000000, 2470000000)]
                          [(2450000000, 2470000000)] true))).
Proof. vm_compute. repeat split. Qed.

(** C2, on the code.  [BANDWIDTH_THRESHOLD] is 10000, in the Hz of the
    bucket edges, so a region 5 MHz wide qualifies, and three adjacent
    active buckets of 1 MHz are reported as a detection. *)
Theorem bandwidth_threshold_ten_thousand :
  BANDWIDTH_THRESHOLD = 10000 ∧
  get_drone_regions [(2450000000, 2455000000)] = [(2450000000, 2455000000)] ∧
  snd (analyze narrow_signal_store) =
    Some (inr (Printed (mk_report (-72.5)%float
                          [2403000000; 2404000000; 2405000000]
                          [(-50)%float; (-51)%float; (-52)%float]
                          [(2403000000, 2405000000)]
                          [(2403000000, 2405000000)] true))).
Proof. vm_compute. repeat split. Qed.

(** ** Analysis and the store *)

(** C9, as the code has it.  [analyze] leaves the store as it found it,
    and its outcome is determined by the [skip_analysis] entry of the
    store's configuration, the snapshot and the bucket width. *)
Theorem analyze_pure (s1 s2 : SignalStore) :
  fst (analyze s1) = s1 ∧
  (config_skip_analysis s1 = config_skip_analysis s2 →
   snapshot s1 = snapshot s2 →
   _bucket_width s1 = _bucket_width s2 →
   snd (analyze s1) = snd (analyze s2)).
Proof.
  unfold analyze. rewrite !get_measurements_copy_eq.
  unfold get_bucket_width, bind, self, ret, raise.
  split.
  - destruct (config_skip_analysis s1); [done|].
    destruct (average_strengths (snapshot s1)) as [e|averages]; [done|].
    destruct (compute_noise_floor averages) as [e|noise_floor]; [done|].
    destruct (find_signal_buckets averages noise_floor) as [e|[hs ss]]; [done|].
    destruct (_bucket_width s1) as [w|]; [|done].
    destruct (truthy w); [|done].
    by destruct (get_contiguous_regions _ _ _ _) as [[e|regions]|].
  - intros <- <- <-.
    destruct (config_skip_analysis s1); [done|].
    destruct (average_strengths (snapshot s1)) as [e|averages]; [done|].
    destruct (compute_noise_floor averages) as [e|noise_floor]; [done|].
    destruct (find_signal_buckets averages noise_floor) as [e|[hs ss]]; [done|].
    destruct (_bucket_width s1) as [w|]; [|done].
    destruct (truthy w); [|done].
    by destruct (get_contiguous_regions _ _ _ _) as [[e|regions]|].
Qed.

(** The same snapshot and bucket width, with and without
    [config['skip_analysis']]: one call prints a verdict, the other returns
    at once. *)
Lemma skip_flag_changes_the_outcome :
  snapshot skipping_store = snapshot lone_bucket_store ∧
  _bucket_width skipping_store = _bucket_width lone_bucket_store ∧
  snd (analyze lone_bucket_store) =
    Some (inr (Printed (mk_report (-72.5)%float [2403000000] [(-50)%float]
                          [] [] false))) ∧
  snd (analyze skipping_store) = Some (inr Skipped).
Proof. vm_compute. repeat split. Qed.

(** Two stores that differ in their warmup counter only. *)
Lemma analyze_pure_witness :
  fst (analyze lone_bucket_store) = lone_bucket_store ∧
  snd (analyze lone_bucket_store)
    = snd (analyze (set_warmup_measurement_count 7 lone_bucket_store)).
Proof.
  destruct (analyze_pure lone_bucket_store
              (set_warmup_measurement_count 7 lone_bucket_store)) as [Hfst Hsnd].
  split; [exact Hfst|]. apply Hsnd; vm_compute; reflexivity.
Defined.

(** * Further properties *)

(** ** The store holds the most recent measurements of every bucket *)

Section holds_proofs.
Implicit Types (s : SignalStore) (m : Measurement) (ms hist : list Measurement).

Lemma bucket_history_snoc k hist m :
  bucket_history k (hist ++ [m])
    = bucket_history k hist ++ (if decide (hz_low m = k) then [m] else []).
Proof.
  unfold bucket_history. rewrite filter_app. by f_equal.
Qed.

Lemma store_holds_wf n hist s : store_holds n hist s → store_wf s.
Proof.
  intros [_ Hall] k rb Hrb. specialize (Hall k). rewrite Hrb in Hall.
  destruct Hall as [Hrep _]. by eapply represents_wf.
Qed.

Lemma store_holds_init skip : store_holds 200 [] (SignalStore_init skip).
Proof. split; [done|]. intros k. simpl. by rewrite lookup_empty. Qed.

(** Routing one measurement extends the history of its bucket, creating
    the bucket when it is the first. *)
Lemma route_holds n hist m s :
  (0 < n)%nat → store_holds n hist s →
  ∃ r, route m s = (set_ranges r s, inr tt) ∧
       store_holds n (hist ++ [m]) (set_ranges r s).
Proof.
  intros Hn [HB Hall]. unfold route, bind, self, add_to, assign, raise.
  pose proof (Hall (hz_low m)) as Hk.
  destruct (_ranges s !! hz_low m) as [rb0|] eqn:Hlook.
  - destruct Hk as [Hrep Hne].
    destruct (add_represents n _ rb0 m Hn Hrep) as (rb1 & -> & Hrep1).
    exists (<[hz_low m := rb1]> (_ranges s)). split; [done|].
    split; [done|]. intros k. simpl. rewrite bucket_history_snoc.
    destruct (decide (hz_low m = k)) as [<-|Hk'].
    + rewrite lookup_insert_eq. split; [done|]. by intros [? _]%app_eq_nil.
    + rewrite lookup_insert_ne, app_nil_r by done. apply Hall.
  - pose proof (represents_init (A:=Measurement) n Hn) as Hinit.
    rewrite <- HB in Hinit.
    destruct (add_represents n _ _ m Hn Hinit) as (rb1 & -> & Hrep1).
    simpl.
    exists (<[hz_low m := rb1]>
              (<[hz_low m := init (_BUFSIZE s)]> (_ranges s))).
    split; [done|]. split; [done|]. intros k. simpl.
    rewrite bucket_history_snoc.
    destruct (decide (hz_low m = k)) as [<-|Hk'].
    + rewrite lookup_insert_eq, Hk. done.
    + rewrite !lookup_insert_ne, app_nil_r by done. apply Hall.
Qed.

Lemma store_holds_counted n hist m s :
  store_holds n hist s → store_holds n hist (counted m s).
Proof.
  unfold store_holds. rewrite ranges_counted.
  pose proof (settings_counted m s) as (-> & _)%settings_inv. done.
Qed.

Lemma loop_holds n ms : ∀ hist s,
  (0 < n)%nat → store_holds n hist s →
  ∃ s', for_each ms (λ m, warmup_count m ;> route m) s = (s', inr tt) ∧
        store_holds n (hist ++ ms) s'.
Proof.
  induction ms as [|m ms IH]; intros hist s Hn Hholds.
  - exists s. by rewrite app_nil_r.
  - rewrite loop_cons.
    destruct (route_holds n hist m (counted m s) Hn
                (store_holds_counted _ _ _ _ Hholds)) as (r & -> & Hholds1).
    destruct (IH _ _ Hn Hholds1) as (s' & Hrun & Hholds').
    exists s'. split; [done|]. by rewrite <- app_assoc in Hholds'.
Qed.

Lemma store_holds_noted n hist m s :
  store_holds n hist s → store_holds n hist (noted m s).
Proof.
  unfold store_holds.
  by destruct (noted_calibration m s) as (_ & -> & -> & _).
Qed.

Lemma snapshot_holds n hist s k :
  (0 < n)%nat → store_holds n hist s →
  snapshot s !! k =
    if decide (bucket_history k hist = []) then None
    else Some (most_recent n (bucket_history k hist)).
Proof.
  intros Hn [_ Hall]. unfold snapshot. rewrite lookup_fmap.
  specialize (Hall k). destruct (_ranges s !! k) as [rb|]; simpl.
  - destruct Hall as [Hrep Hne]. rewrite decide_False by done.
    by rewrite (represents_get_data_copy _ _ _ Hrep).
  - by rewrite decide_True.
Qed.
End holds_proofs.

Section holds_calls.
Implicit Types (s : SignalStore) (m : Measurement) (ms hist : list Measurement).

(** A call that does not resize. *)
Lemma call_holds n hist s m ms :
  (0 < n)%nat → store_holds n hist s →
  negb (is_warmed_up s) && _warmup_resize_ringbufs s = false →
  ∃ s', add_measurements (m :: ms) s = (s', inr tt) ∧
        store_holds n (hist ++ m :: ms) s'.
Proof.
  intros Hn Hholds Hquiet. rewrite add_measurements_cons.
  destruct (noted_calibration m s) as (Hw & _ & _ & Hf & _).
  assert (Hres : resized (noted m s) = noted m s).
  { unfold resized. by rewrite Hw, Hf, Hquiet. }
  rewrite Hres.
  apply loop_holds; [done|]. by apply store_holds_noted.
Qed.

(** The call that resizes: the buffers start again, with the warmup count
    as capacity. *)
Lemma call_resize_holds n s m ms :
  (0 < n)%nat → is_warmed_up s = false → _warmup_resize_ringbufs s = true →
  _warmup_measurement_count s = Z.of_nat n →
  ∃ s', add_measurements (m :: ms) s = (s', inr tt) ∧
        store_holds n (m :: ms) s' ∧ is_warmed_up s' = true.
Proof.
  intros Hn Hw Hflag Hcount. rewrite add_measurements_cons.
  destruct (noted_calibration m s) as (Hw0 & _ & _ & Hf0 & Hc0).
  assert (Hres : store_holds n [] (resized (noted m s))
                 ∧ is_warmed_up (resized (noted m s)) = true).
  { unfold resized. rewrite Hw0, Hw, Hf0, Hflag. simpl.
    split; [|done]. split; [simpl; congruence|].
    intros k. simpl. by rewrite lookup_empty. }
  destruct Hres as [Hholds0 Hw1].
  destruct (loop_holds n (m :: ms) [] _ Hn Hholds0) as (s' & Hrun & Hholds').
  exists s'. split; [done|]. split; [done|].
  destruct (loop_frame (m :: ms) (resized (noted m s))) as [Hset _].
  rewrite Hrun in Hset. simpl in Hset.
  apply settings_inv in Hset as (_ & _ & _ & Hw' & _).
  unfold is_warmed_up in *. congruence.
Qed.

Lemma call_keeps_warmed (b : list Measurement) s :
  is_warmed_up s = true → is_warmed_up (fst (add_measurements b s)) = true.
Proof.
  intros Hw.
  destruct (add_measurements_effect b s) as [(Hw' & _)|(Hw0 & _)]; congruence.
Qed.

(** Once warmed, non-empty batches extend the histories. *)
Lemma ingest_holds_warmed n (batches : list (list Measurement)) : ∀ hist s,
  (0 < n)%nat → store_holds n hist s → is_warmed_up s = true →
  Forall (λ b, b ≠ []) batches →
  ∃ s', ingest batches s = (s', inr tt) ∧
        store_holds n (hist ++ concat batches) s' ∧ is_warmed_up s' = true.
Proof.
  induction batches as [|b batches IH]; intros hist s Hn Hholds Hw Hnonempty.
  - exists s. by rewrite app_nil_r.
  - apply Forall_cons in Hnonempty as [Hb Hnonempty].
    destruct b as [|m ms]; [done|].
    destruct (call_holds n hist s m ms Hn Hholds) as (s1 & Hcall & Hholds1).
    { by rewrite Hw. }
    pose proof (call_keeps_warmed (m :: ms) s Hw) as Hw1.
    rewrite Hcall in Hw1. simpl in Hw1.
    destruct (IH _ _ Hn Hholds1 Hw1 Hnonempty) as (s' & Hrun & Hholds' & Hw').
    exists s'. rewrite ingest_cons, Hcall. split; [done|]. split; [|done].
    by rewrite concat_cons, app_assoc.
Qed.

(** While calibrating, batches without a signal extend the histories
    under the initial capacity and add to the count. *)
Lemma ingest_calibrating_holds n (batches : list (list Measurement)) :
  ∀ hist s,
  (0 < n)%nat → store_holds n hist s →
  is_warmed_up s = false → _warmup_resize_ringbufs s = false →
  _warmup_bucket_frequency s ≠ 0 →
  Forall (λ b, b ≠ []) batches →
  Forall (λ b, signals_resize (_warmup_bucket_frequency s)
                 (_warmup_first_datetime s) b = false) batches →
  ∃ s', ingest batches s = (s', inr tt) ∧
        store_holds n (hist ++ concat batches) s' ∧
        is_warmed_up s' = false ∧ _warmup_resize_ringbufs s' = false ∧
        _warmup_bucket_frequency s' = _warmup_bucket_frequency s ∧
        _warmup_first_datetime s' = _warmup_first_datetime s ∧
        _warmup_measurement_count s'
          = _warmup_measurement_count s
            + reference_count (_warmup_bucket_frequency s) (concat batches).
Proof.
  intros hist s Hn Hholds Hw Hflag Hne Hnonempty Hquiet.
  destruct (ingest_calibrating batches s (store_holds_wf _ _ _ Hholds)
              Hw Hflag Hne Hnonempty Hquiet)
    as (s' & Hrun & _ & Hw' & Hflag' & _ & Hf' & He' & Hc').
  exists s'. split; [done|]. split; [|done].
  clear Hc' He' Hf' Hquiet Hne.
  revert hist s Hholds Hw Hflag s' Hrun Hw' Hflag'.
  induction batches as [|b batches IH];
    intros hist s Hholds Hw Hflag s' Hrun Hw' Hflag'.
  - injection Hrun as <-. by rewrite app_nil_r.
  - apply Forall_cons in Hnonempty as [Hb Hnonempty].
    destruct b as [|m ms]; [done|].
    destruct (call_holds n hist s m ms Hn Hholds) as (s1 & Hcall & Hholds1).
    { by rewrite Hw. }
    rewrite ingest_cons, Hcall in Hrun.
    rewrite concat_cons, app_assoc.
    (* the store after this call is still calibrating, with no signal, *)
    (* since the whole run ends so *)
    destruct (is_warmed_up s1) eqn:Hw1.
    { destruct (ingest_warmed batches s1 (store_holds_wf _ _ _ Hholds1)
                  Hw1 Hnonempty) as (s2 & Hrun2 & Hw2 & _).
      congruence. }
    destruct (_warmup_resize_ringbufs s1) eqn:Hflag1.
    { destruct batches as [|b' batches].
      - injection Hrun as <-. congruence.
      - apply Forall_cons in Hnonempty as [Hb' Hnonempty'].
        destruct b' as [|m' ms']; [done|].
        destruct (call_resize m' ms' s1 (store_holds_wf _ _ _ Hholds1)
                    Hw1 Hflag1) as (s2 & Hcall2 & Hwf2 & Hw2 & _).
        rewrite ingest_cons, Hcall2 in Hrun.
        destruct (ingest_warmed batches s2 Hwf2 Hw2 Hnonempty')
          as (s3 & Hrun3 & Hw3 & _).
        congruence. }
    by eapply IH.
Qed.
End holds_calls.

(** X4. A call that does not resize (the store is warmed, or no resize signal
    is pending) never raises on a non-empty batch, and afterwards every
    bucket's snapshot is the most recent [n] measurements of that bucket, in
    the order they arrived; buckets without measurements do not exist. *)
Theorem add_measurements_keeps_recent
    (n : nat) (hist : list Measurement) (s : SignalStore)
    (m : Measurement) (ms : list Measurement) :
  (0 < n)%nat → store_holds n hist s →
  negb (is_warmed_up s) && _warmup_resize_ringbufs s = false →
  ∃ s', add_measurements (m :: ms) s = (s', inr tt) ∧
        store_holds n (hist ++ m :: ms) s' ∧
        ∀ k, snapshot s' !! k =
               if decide (bucket_history k (hist ++ m :: ms) = []) then None
               else Some (most_recent n (bucket_history k (hist ++ m :: ms))).
Proof.
  intros Hn Hholds Hquiet.
  destruct (call_holds n hist s m ms Hn Hholds Hquiet) as (s' & Hcall & Hholds').
  exists s'. split; [done|]. split; [done|].
  intros k. by apply snapshot_holds.
Qed.

Lemma add_measurements_keeps_recent_witness :
  ∃ s', add_measurements [reading 0; reading 0] (SignalStore_init false)
          = (s', inr tt) ∧
        store_holds 200 ([] ++ [reading 0; reading 0]) s' ∧
        ∀ k, snapshot s' !! k =
               if decide (bucket_history k ([] ++ [reading 0; reading 0]) = [])
               then None
               else Some (most_recent 200
                            (bucket_history k ([] ++ [reading 0; reading 0]))).
Proof.
  apply (add_measurements_keeps_recent 200 [] (SignalStore_init false)
           (reading 0) [reading 0]).
  - lia.
  - apply store_holds_init.
  - reflexivity.
Defined.

(** ** From a fresh store to the warmed store *)

Section warmup_run_proofs.
Implicit Types (s : SignalStore) (m : Measurement) (ms : list Measurement).

Lemma signals_resize_counted f epoch0 ms :
  signals_resize f epoch0 ms = true → 0 < reference_count f ms.
Proof.
  intros Hsig%signals_resize_key.
  apply list_elem_of_fmap in Hsig as (m & -> & Hm).
  unfold reference_count.
  assert (Hin : m ∈ filter (λ m', in_reference (hz_low m) m' = true) ms).
  { apply list_elem_of_filter. split; [|done].
    unfold in_reference. apply Z.eqb_refl. }
  destruct (filter _ ms); [by apply elem_of_nil in Hin|simpl; lia].
Qed.

(** The first call on a fresh store, for a batch starting with [m0] whose
    [low_hz] is not 0. *)
Lemma first_call_holds skip m0 ms :
  hz_low m0 ≠ 0 →
  ∃ s1, add_measurements (m0 :: ms) (SignalStore_init skip) = (s1, inr tt) ∧
        store_holds 200 (m0 :: ms) s1 ∧ is_warmed_up s1 = false ∧
        _warmup_bucket_frequency s1 = hz_low m0 ∧
        _warmup_first_datetime s1 = datetime m0 ∧
        _warmup_measurement_count s1 = reference_count (hz_low m0) (m0 :: ms) ∧
        _warmup_resize_ringbufs s1
          = signals_resize (hz_low m0) (datetime m0) (m0 :: ms).
Proof.
  intros Hkey.
  destruct (call_holds 200 [] (SignalStore_init skip) m0 ms)
    as (s1 & Hcall & Hholds1); [lia|apply store_holds_init|done|].
  destruct (call_calibrating m0 ms (SignalStore_init skip)
              (store_wf_init skip) eq_refl eq_refl)
    as (s1' & Hcall' & _ & Hw1 & _ & Hf1 & He1 & Hc1 & Hflag1).
  rewrite Hcall in Hcall'. injection Hcall' as <-.
  destruct (noted_reference m0 (SignalStore_init skip)) as [Hz _].
  destruct (Hz eq_refl) as [Hnf Hne].
  rewrite Hnf in Hf1, Hc1, Hflag1. rewrite Hne in He1, Hflag1.
  exists s1. repeat (split; [done|]). done.
Qed.

(** The run up to and including the batch that raises the signal. *)
Lemma warmup_run skip (pre : list (list Measurement)) (trig : list Measurement)
    (m0 : Measurement) :
  Forall (λ b, b ≠ []) (pre ++ [trig]) →
  head (concat (pre ++ [trig])) = Some m0 →
  hz_low m0 ≠ 0 →
  Forall (λ b, signals_resize (hz_low m0) (datetime m0) b = false) pre →
  signals_resize (hz_low m0) (datetime m0) trig = true →
  ∃ s1, ingest (pre ++ [trig]) (SignalStore_init skip) = (s1, inr tt) ∧
        store_holds 200 (concat (pre ++ [trig])) s1 ∧
        is_warmed_up s1 = false ∧ _warmup_resize_ringbufs s1 = true ∧
        _warmup_measurement_count s1
          = reference_count (hz_low m0) (concat (pre ++ [trig])).
Proof.
  intros Hnonempty Hhead Hkey Hquiet Hsig.
  apply Forall_app in Hnonempty as [Hpre [Htrig _]%Forall_cons].
  destruct pre as [|b pre].
  - destruct trig as [|m ms]; [done|]. simpl in Hhead. injection Hhead as ->.
    destruct (first_call_holds skip m0 ms Hkey)
      as (s1 & Hcall & Hholds & Hw & _ & _ & Hc & Hflag).
    exists s1. rewrite app_nil_l, ingest_cons, Hcall.
    rewrite concat_cons, concat_nil, app_nil_r.
    repeat (split; [done|]). split; [congruence|done].
  - apply Forall_cons in Hpre as [Hb Hpre].
    apply Forall_cons in Hquiet as [Hqb Hquiet].
    destruct b as [|m ms]; [done|]. simpl in Hhead. injection Hhead as ->.
    destruct (first_call_holds skip m0 ms Hkey)
      as (s1 & Hcall & Hholds1 & Hw1 & Hf1 & He1 & Hc1 & Hflag1).
    rewrite Hqb in Hflag1. rewrite <- Hf1, <- He1 in Hquiet.
    destruct (ingest_calibrating_holds 200 pre (m0 :: ms) s1)
      as (s2 & Hrun2 & Hholds2 & Hw2 & Hflag2 & Hf2 & He2 & Hc2);
      [lia|done..|congruence|done|done|].
    destruct trig as [|m ms']; [done|].
    assert (Hf2' : _warmup_bucket_frequency s2 ≠ 0) by congruence.
    destruct (noted_fixed_reference m s2 Hf2') as [Hnf2 Hne2].
    destruct (call_holds 200 ((m0 :: ms) ++ concat pre) s2 m ms')
      as (s3 & Hcall3 & Hholds3); [lia|exact Hholds2|by rewrite Hw2|].
    destruct (call_calibrating m ms' s2 (store_holds_wf _ _ _ Hholds2)
                Hw2 Hflag2)
      as (s3' & Hcall3' & _ & Hw3 & _ & _ & _ & Hc3 & Hflag3).
    rewrite Hcall3 in Hcall3'. injection Hcall3' as <-.
    rewrite Hnf2, Hf2, Hf1 in Hc3, Hflag3. rewrite Hne2, He2, He1 in Hflag3.
    assert (Hpre_run : ingest ((m0 :: ms) :: pre) (SignalStore_init skip)
                       = (s2, inr tt)).
    { rewrite ingest_cons, Hcall. exact Hrun2. }
    exists s3. rewrite (ingest_app _ _ _ _ Hpre_run).
    rewrite ingest_cons, Hcall3.
    rewrite concat_app, !concat_cons, concat_nil, app_nil_r.
    split; [done|]. split; [done|].
    split; [done|]. split; [congruence|].
    rewrite Hc3, Hc2, Hc1, Hf1, !reference_count_app. lia.
Qed.

(** Every batch non-empty: no call raises, whatever the store went
    through. *)
Lemma call_ok m ms s :
  store_wf s →
  ∃ s', add_measurements (m :: ms) s = (s', inr tt) ∧ store_wf s'.
Proof.
  intros Hwf. rewrite add_measurements_cons.
  destruct (loop_ok (m :: ms) (resized (noted m s))
              (store_wf_resized _ (store_wf_noted m s Hwf)))
    as (s' & -> & Hwf' & _).
  by exists s'.
Qed.
End warmup_run_proofs.

(** X3. Starting from a fresh store, any sequence of non-empty batches is
    ingested without an exception, and it leaves every ring buffer in a
    state in which further [add] calls cannot raise. *)
Theorem ingest_never_raises (skip : bool) (batches : list (list Measurement)) :
  Forall (λ b, b ≠ []) batches →
  ∃ s', ingest batches (SignalStore_init skip) = (s', inr tt) ∧ store_wf s' ∧
        s' = after_calls (SignalStore_init skip) batches.
Proof.
  intros Hnonempty.
  assert (Hgen : ∀ s, store_wf s →
    ∃ s', ingest batches s = (s', inr tt) ∧ store_wf s'
          ∧ s' = after_calls s batches).
  { induction Hnonempty as [|b batches Hb _ IH]; intros s Hwf.
    - by exists s.
    - destruct b as [|m ms]; [done|].
      destruct (call_ok m ms s Hwf) as (s1 & Hcall & Hwf1).
      destruct (IH s1 Hwf1) as (s' & Hrun & Hwf' & Hafter).
      exists s'. rewrite ingest_cons, Hcall. split; [done|]. split; [done|].
      unfold after_calls in *. simpl. by rewrite Hcall. }
  apply Hgen, store_wf_init.
Qed.

Lemma ingest_never_raises_witness :
  ∃ s', ingest repeated_key_batches (SignalStore_init false) = (s', inr tt) ∧
        store_wf s' ∧
        s' = after_calls (SignalStore_init false) repeated_key_batches.
Proof.
  apply (ingest_never_raises false repeated_key_batches).
  repeat constructor; done.
Defined.

(** X5. For input whose first measurement has a [low_hz] other than [0]
    (its bucket is then the reference bucket, and its timestamp epoch0):
    after the warmup every bucket's snapshot is the most recent
    [capacity] measurements of that bucket among those received since the
    resize, in arrival order, where [capacity] is the count of
    reference-bucket measurements up to and including the batch that raised
    the signal.  Nothing received before the resize survives it. *)
Theorem snapshot_after_warmup
    (skip : bool) (pre : list (list Measurement)) (trig next : list Measurement)
    (rest : list (list Measurement)) (m0 : Measurement) :
  Forall (λ b, b ≠ []) (pre ++ trig :: next :: rest) →
  head (concat (pre ++ [trig])) = Some m0 →
  hz_low m0 ≠ 0 →
  Forall (λ b, signals_resize (hz_low m0) (datetime m0) b = false) pre →
  signals_resize (hz_low m0) (datetime m0) trig = true →
  ∃ s', ingest (pre ++ trig :: next :: rest) (SignalStore_init skip)
          = (s', inr tt) ∧
        ∀ k, snapshot s' !! k =
               if decide (bucket_history k (concat (next :: rest)) = [])
               then None
               else Some (most_recent
                            (Z.to_nat (reference_count (hz_low m0)
                                         (concat (pre ++ [trig]))))
                            (bucket_history k (concat (next :: rest)))).
Proof.
  intros Hnonempty Hhead Hkey Hquiet Hsig.
  apply Forall_app in Hnonempty as [Hpre Htail].
  apply Forall_cons in Htail as [Htrig [Hnext Hrest]%Forall_cons].
  destruct (warmup_run skip pre trig m0)
    as (s1 & Hrun1 & _ & Hw1 & Hflag1 & Hc1); [|assumption..|].
  { apply Forall_app. split; [done|]. by constructor. }
  set (cap := reference_count (hz_low m0) (concat (pre ++ [trig]))) in *.
  assert (Hcap : 0 < cap).
  { unfold cap. rewrite concat_app, reference_count_app.
    rewrite concat_cons, concat_nil, app_nil_r.
    pose proof (signals_resize_counted _ _ _ Hsig).
    unfold reference_count in *. lia. }
  destruct next as [|m ms]; [done|].
  destruct (call_resize_holds (Z.to_nat cap) s1 m ms)
    as (s2 & Hcall2 & Hholds2 & Hw2); [lia|done|done|lia|].
  destruct (ingest_holds_warmed (Z.to_nat cap) rest (m :: ms) s2)
    as (s' & Hrun & Hholds' & _); [lia|done..|].
  exists s'. split.
  - replace (pre ++ trig :: (m :: ms) :: rest)
      with ((pre ++ [trig]) ++ (m :: ms) :: rest) by by rewrite <- app_assoc.
    rewrite (ingest_app _ _ _ _ Hrun1), ingest_cons, Hcall2. done.
  - intros k. rewrite concat_cons. apply snapshot_holds; [lia|done].
Qed.

Lemma snapshot_after_warmup_witness :
  ∃ s', ingest ([[reading 0]] ++ [reading 2; reading 2] :: [reading 3] :: [])
          (SignalStore_init false) = (s', inr tt) ∧
        ∀ k, snapshot s' !! k =
               if decide (bucket_history k (concat ([reading 3] :: [])) = [])
               then None
               else Some (most_recent
                            (Z.to_nat (reference_count (hz_low (reading 0))
                                         (concat ([[reading 0]]
                                                  ++ [[reading 2; reading 2]]))))
                            (bucket_history k (concat ([reading 3] :: [])))).
Proof.
  apply (snapshot_after_warmup false [[reading 0]] [reading 2; reading 2]
           [reading 3] [] (reading 0)).
  - repeat constructor; done.
  - reflexivity.
  - simpl. lia.
  - repeat constructor.
  - reflexivity.
Defined.

(** X6. For input whose first measurement has a [low_hz] other than [0]
    (its bucket is then the reference bucket, and its timestamp epoch0),
    with batches as the decoder emits them (each bucket once in the batch
    that raises the signal): the capacity after the warmup is the count of
    reference-bucket measurements of the input up to and including the
    first one later than one second past epoch0. *)
Theorem capacity_for_decoded_batches
    (skip : bool) (pre : list (list Measurement)) (trig next : list Measurement)
    (rest : list (list Measurement)) (m0 : Measurement) :
  Forall (λ b, b ≠ []) (pre ++ trig :: next :: rest) →
  head (concat (pre ++ [trig])) = Some m0 →
  hz_low m0 ≠ 0 →
  Forall (λ b, signals_resize (hz_low m0) (datetime m0) b = false) pre →
  signals_resize (hz_low m0) (datetime m0) trig = true →
  NoDup (hz_low <$> trig) →
  ∃ s', ingest (pre ++ trig :: next :: rest) (SignalStore_init skip)
          = (s', inr tt) ∧
        is_warmed_up s' = true ∧
        _BUFSIZE s'
          = count_until_signal (hz_low m0) (datetime m0)
              (concat (pre ++ trig :: next :: rest)).
Proof.
  intros Hnonempty Hhead Hkey Hquiet Hsig Hnodup.
  apply Forall_app in Hnonempty as [Hpre Htail].
  apply Forall_cons in Htail as [Htrig [Hnext Hrest]%Forall_cons].
  destruct (warmup_run skip pre trig m0)
    as (s1 & Hrun1 & Hholds1 & Hw1 & Hflag1 & Hc1); [|assumption..|].
  { apply Forall_app. split; [done|]. by constructor. }
  destruct next as [|m ms]; [done|].
  destruct (call_resize m ms s1 (store_holds_wf _ _ _ Hholds1) Hw1 Hflag1)
    as (s2 & Hcall2 & Hwf2 & Hw2 & HB2).
  destruct (ingest_warmed rest s2 Hwf2 Hw2 Hrest) as (s' & Hrun & Hw' & HB').
  exists s'. split; [|split; [done|]].
  - replace (pre ++ trig :: (m :: ms) :: rest)
      with ((pre ++ [trig]) ++ (m :: ms) :: rest) by by rewrite <- app_assoc.
    rewrite (ingest_app _ _ _ _ Hrun1), ingest_cons, Hcall2. done.
  - rewrite HB', HB2, Hc1.
    by apply capacity_is_count_until_signal.
Qed.

Lemma capacity_for_decoded_batches_witness :
  ∃ s', ingest ([[reading 0]] ++ [reading 2] :: [reading 3] :: [])
          (SignalStore_init false) = (s', inr tt) ∧
        is_warmed_up s' = true ∧
        _BUFSIZE s'
          = count_until_signal (hz_low (reading 0)) (datetime (reading 0))
              (concat ([[reading 0]] ++ [reading 2] :: [reading 3] :: [])).
Proof.
  apply (capacity_for_decoded_batches false [[reading 0]] [reading 2]
           [reading 3] [] (reading 0)).
  - repeat constructor; done.
  - reflexivity.
  - simpl. lia.
  - repeat constructor.
  - reflexivity.
  - repeat constructor. by intros ?%elem_of_nil.
Defined.

(** ** The capacity, for decoded input *)

Section capacity_proofs.
Implicit Types (s : SignalStore) (m : Measurement) (ms : list Measurement).




End capacity_proofs.




(** ** The bucket width *)

Section width_proofs.
Implicit Types (s : SignalStore) (m : Measurement) (ms b : list Measurement).

Lemma noted_width m s :
  _bucket_width (noted m s) =
    if truthy_opt (_bucket_width s) then _bucket_width s
    else Some (hz_high m - hz_low m).
Proof.
  unfold noted.
  destruct (truthy_opt (_bucket_width s)); simpl;
    by destruct (truthy (_warmup_bucket_frequency s)).
Qed.

Lemma resized_width s : _bucket_width (resized s) = _bucket_width s.
Proof. unfold resized. by destruct (_ && _). Qed.

Lemma call_width m ms s :
  _bucket_width (fst (add_measurements (m :: ms) s))
    = _bucket_width (noted m s).
Proof.
  rewrite add_measurements_cons.
  destruct (loop_frame (m :: ms) (resized (noted m s))) as [Hset _].
  apply settings_inv in Hset as (_ & -> & _). apply resized_width.
Qed.

Lemma width_kept b s :
  truthy_opt (_bucket_width s) = true →
  _bucket_width (fst (add_measurements b s)) = _bucket_width s.
Proof.
  intros Hw. destruct b as [|m ms].
  - rewrite add_measurements_nil. destruct (_ || _); [done|].
    apply resized_width.
  - by rewrite call_width, noted_width, Hw.
Qed.

Lemma width_kept_after_calls (batches : list (list Measurement)) s :
  truthy_opt (_bucket_width s) = true →
  _bucket_width (after_calls s batches) = _bucket_width s.
Proof.
  intros Hw. induction batches as [|b batches IH] using rev_ind; [done|].
  rewrite after_calls_snoc, width_kept; [done|]. by rewrite IH.
Qed.
End width_proofs.

(** X7. The bucket width is taken from the first measurement of the batch of
    any call entered while it is unset ([None] or [0]), and once it is a
    non-zero number no call changes it, whatever the widths of the
    measurements that follow.  A first measurement with
    [hz_high = hz_low] leaves it at [0], so the next call derives it
    again. *)
Theorem bucket_width_set_once
    (s : SignalStore) (m : Measurement) (ms b : list Measurement) :
  (truthy_opt (_bucket_width s) = true →
   _bucket_width (fst (add_measurements b s)) = _bucket_width s) ∧
  (truthy_opt (_bucket_width s) = false →
   _bucket_width (fst (add_measurements (m :: ms) s))
     = Some (hz_high m - hz_low m)).
Proof.
  split.
  - apply width_kept.
  - intros Hw. by rewrite call_width, noted_width, Hw.
Qed.

Lemma bucket_width_set_once_witness :
  _bucket_width (fst (add_measurements [reading 0] (SignalStore_init false)))
    = Some (hz_high (reading 0) - hz_low (reading 0)).
Proof.
  exact (proj2 (bucket_width_set_once (SignalStore_init false) (reading 0)
                  [] []) eq_refl).
Defined.

(** X8. [get_bucket_width] raises on a store that has ingested nothing; after
    a first batch whose first measurement has [hz_high ≠ hz_low] it returns
    that measurement's width, also after any further calls, and it leaves
    the store as it is. *)
Theorem get_bucket_width_after_ingest
    (skip : bool) (m : Measurement) (ms : list Measurement)
    (batches : list (list Measurement)) :
  hz_high m ≠ hz_low m →
  get_bucket_width (SignalStore_init skip)
    = (SignalStore_init skip, inl Exception) ∧
  get_bucket_width (after_calls (SignalStore_init skip) ((m :: ms) :: batches))
    = (after_calls (SignalStore_init skip) ((m :: ms) :: batches),
       inr (hz_high m - hz_low m)).
Proof.
  intros Hne. split; [done|].
  assert (Hfirst : _bucket_width (fst (add_measurements (m :: ms)
                                         (SignalStore_init skip)))
                   = Some (hz_high m - hz_low m)).
  { by rewrite call_width, noted_width. }
  assert (Htruthy : truthy (hz_high m - hz_low m) = true).
  { unfold truthy. destruct (Z.eqb_spec (hz_high m - hz_low m) 0); [lia|done]. }
  unfold get_bucket_width, bind, self, ret.
  change (after_calls (SignalStore_init skip) ((m :: ms) :: batches))
    with (after_calls (fst (add_measurements (m :: ms) (SignalStore_init skip)))
            batches).
  rewrite width_kept_after_calls by (by rewrite Hfirst).
  by rewrite Hfirst, Htruthy.
Qed.

Lemma get_bucket_width_after_ingest_witness :
  get_bucket_width (SignalStore_init false)
    = (SignalStore_init false, inl Exception) ∧
  get_bucket_width (after_calls (SignalStore_init false)
                      ([reading 0] :: [[reading 2]; []]))
    = (after_calls (SignalStore_init false) ([reading 0] :: [[reading 2]; []]),
       inr (hz_high (reading 0) - hz_low (reading 0))).
Proof.
  apply (get_bucket_width_after_ingest false (reading 0) [] [[reading 2]; []]).
  simpl. lia.
Defined.

(** ** The ring buffer at its edges *)

Section ringbuf_edges.
Context {A : Type}.
Implicit Types (rb : ringbuf A) (vals : list A) (v : A).

(** A buffer that holds one value, full, with the cursor at its start. *)
Lemma add_all_single (size : Z) vals v :
  ∃ w, add_all vals (mk_ringbuf size 0 [v] true)
         = inr (mk_ringbuf size 0 [w] true) ∧
       last (v :: vals) = Some w.
Proof.
  revert v. induction vals as [|v' vals IH]; intros v.
  - by exists v.
  - destruct (IH v') as (w & Hrun & Hlast).
    exists w. split; [exact Hrun|]. done.
Qed.

Lemma represents_full_iff n hist rb :
  represents n hist rb →
  _full rb = bool_decide (n ≤ length hist)%nat ∧
  length (_data rb) = Nat.min (length hist) n.
Proof.
  intros [_ Hrep]. destruct (_full rb).
  - destruct Hrep as (Hlen & _ & Hrot).
    apply (f_equal length) in Hrot.
    rewrite length_app, length_drop, length_take, length_most_recent in Hrot.
    rewrite bool_decide_eq_true_2 by lia. split; [done|lia].
  - destruct Hrep as (-> & Hlen & _).
    rewrite bool_decide_eq_false_2 by lia. split; [done|lia].
Qed.
End ringbuf_edges.

(** X1. A buffer constructed with a size of zero or less behaves as one of
    capacity one: no [add] raises, it is full from the first [add] on, and
    its copy is the last value added. *)
Theorem ringbuf_nonpositive_size (A : Type) (N : Z) (v : A) (vals : list A) :
  N ≤ 0 →
  ∃ (rb : ringbuf A) (w : A),
    add_all (v :: vals) (init N) = inr rb ∧
    last (v :: vals) = Some w ∧
    get_data_copy rb = [w] ∧ is_full rb = true.
Proof.
  intros HN.
  assert (Hfirst : add v (init N) = inr (mk_ringbuf N 0 [v] true)).
  { unfold add, init. simpl. destruct N as [|p|p]; [done|lia|done]. }
  change (add_all (v :: vals) (init N))
    with (match add v (init N) with
          | inr rb' => add_all vals rb'
          | inl e => inl e
          end).
  rewrite Hfirst.
  destruct (add_all_single N vals v) as (w & -> & Hlast).
  by exists (mk_ringbuf N 0 [w] true), w.
Qed.

Lemma ringbuf_nonpositive_size_witness :
  ∃ (rb : ringbuf Z) (w : Z),
    add_all (1 :: [2; 3]) (init 0) = inr rb ∧
    last (1 :: [2; 3]) = Some w ∧
    get_data_copy rb = [w] ∧ is_full rb = true.
Proof. apply (ringbuf_nonpositive_size Z 0 1 [2; 3]). lia. Defined.

(** X2. For a capacity [N >= 1], after [k] calls of [add] the buffer stores
    [min(k, N)] values, and [is_full] answers whether [k >= N]. *)
Theorem ringbuf_is_full (A : Type) (N : Z) (vals : list A) :
  1 ≤ N →
  ∃ rb : ringbuf A,
    add_all vals (init N) = inr rb ∧
    is_full rb = bool_decide (N ≤ Z.of_nat (length vals)) ∧
    length (_data rb) = Nat.min (length vals) (Z.to_nat N).
Proof.
  intros HN.
  assert (Hn : (0 < Z.to_nat N)%nat) by lia.
  pose proof (represents_init (A:=A) (Z.to_nat N) Hn) as Hinit.
  rewrite Z2Nat.id in Hinit by lia.
  destruct (add_all_represents (Z.to_nat N) vals [] (init N) Hn Hinit)
    as (rb & Hrun & Hrep).
  exists rb. split; [done|].
  destruct (represents_full_iff _ _ _ Hrep) as [Hfull Hlen].
  simpl in Hfull, Hlen. unfold is_full. rewrite Hfull. split; [|done].
  apply bool_decide_ext. lia.
Qed.

Lemma ringbuf_is_full_witness :
  ∃ rb : ringbuf Z,
    add_all [1; 2] (init 3) = inr rb ∧
    is_full rb = bool_decide (3 ≤ Z.of_nat (length [1; 2])) ∧
    length (_data rb) = Nat.min (length [1; 2]) (Z.to_nat 3).
Proof. apply (ringbuf_is_full Z 3 [1; 2]). lia. Defined.

(** ** The sort, on floats *)

Section float_order.

Lemma SFleb_trans a b c :
  SFleb a b = true → SFleb b c = true → SFleb a c = true.
Proof.
  unfold SFleb, SFcompare.
  destruct a as [sa|sa| |sa ma ea], b as [sb|sb| |sb mb eb],
    c as [sc|sc| |sc mc ec]; try done;
    repeat match goal with s : bool |- _ => destruct s end; try done.
  all: destruct (Z.compare_spec ea eb), (Z.compare_spec eb ec),
         (Z.compare_spec ea ec); try done; try lia; subst;
       fold (Pos.compare ma mb) (Pos.compare mb mc) (Pos.compare ma mc);
       destruct (Pos.compare_spec ma mb), (Pos.compare_spec mb mc),
         (Pos.compare_spec ma mc); simpl; try done; try lia.
Qed.

Lemma SFltb_leb a b : SFltb a b = true → SFleb a b = true.
Proof. unfold SFltb, SFleb. by destruct (SFcompare a b) as [[]|]. Qed.

Lemma SFcompare_swap a b :
  SFcompare b a = option_map CompOpp (SFcompare a b).
Proof.
  unfold SFcompare.
  destruct a as [sa|sa| |sa ma ea], b as [sb|sb| |sb mb eb]; try done;
    repeat match goal with s : bool |- _ => destruct s end; try done; simpl.
  all: rewrite (Z.compare_antisym ea eb);
       destruct (ea ?= eb); simpl; try done;
       change (Pos.compare_cont Eq mb ma) with (Pos.compare mb ma);
       change (Pos.compare_cont Eq ma mb) with (Pos.compare ma mb);
       rewrite (Pos.compare_antisym ma mb); by destruct (ma ?= mb)%positive.
Qed.

Lemma SFleb_total a b :
  SFeqb a a = true → SFeqb b b = true → SFltb b a = false → SFleb a b = true.
Proof.
  intros Ha Hb. unfold SFltb, SFleb. rewrite (SFcompare_swap a b).
  assert (Hsome : ∃ c, SFcompare a b = Some c).
  { destruct a as [sa|sa| |sa ma ea], b as [sb|sb| |sb mb eb];
      try done; simpl; eauto. }
  destruct Hsome as [c ->]. by destruct c.
Qed.

Lemma is_nan_SFeqb x :
  PrimFloat.is_nan x = false → SFeqb (Prim2SF x) (Prim2SF x) = true.
Proof.
  unfold PrimFloat.is_nan. rewrite FloatAxioms.eqb_spec.
  by destruct (SFeqb _ _).
Qed.

Lemma insort_ascending x (xs : list float) :
  PrimFloat.is_nan x = false → Forall (λ y, PrimFloat.is_nan y = false) xs →
  StronglySorted (λ a b, PrimFloat.leb a b = true) xs →
  StronglySorted (λ a b, PrimFloat.leb a b = true) (insort PrimFloat.ltb x xs).
Proof.
  intros Hx Hxs Hsorted. induction Hsorted as [|y xs Hsorted IH Hall]; simpl.
  - repeat constructor.
  - apply Forall_cons in Hxs as [Hy Hxs].
    destruct (PrimFloat.ltb y x) eqn:Hlt.
    + constructor; [by apply IH|].
      rewrite insort_Permutation. constructor; [|done].
      rewrite FloatAxioms.leb_spec. rewrite FloatAxioms.ltb_spec in Hlt.
      by apply SFltb_leb.
    + assert (Hxy : PrimFloat.leb x y = true).
      { rewrite FloatAxioms.leb_spec. rewrite FloatAxioms.ltb_spec in Hlt.
        apply SFleb_total; [by apply is_nan_SFeqb..|done]. }
      constructor; [by constructor|].
      constructor; [done|]. eapply Forall_impl; [exact Hall|].
      simpl. intros z. rewrite !FloatAxioms.leb_spec.
      apply SFleb_trans. by rewrite FloatAxioms.leb_spec in Hxy.
Qed.

(** On floats without a NaN the model of [sorted] returns its input in
    ascending order. *)
Lemma sorted_floats_ascending (xs : list float) :
  Forall (λ x, PrimFloat.is_nan x = false) xs →
  sorted PrimFloat.ltb xs ≡ₚ xs ∧
  StronglySorted (λ a b, PrimFloat.leb a b = true) (sorted PrimFloat.ltb xs).
Proof.
  intros Hxs. split; [apply sorted_Permutation|].
  induction Hxs as [|x xs Hx Hxs IH]; [constructor|]. simpl.
  apply insort_ascending; [done| |done].
  fold (sorted PrimFloat.ltb xs). by rewrite sorted_Permutation.
Qed.
End float_order.

(** ** Averages and active buckets, in full *)

Section sorted_proofs.
Implicit Types (xs ks fs : list Z) (d : dict float).

Lemma insort_sorted x xs :
  StronglySorted Z.le xs → StronglySorted Z.le (insort Z.ltb x xs).
Proof.
  induction 1 as [|y xs Hsorted IH Hall]; simpl.
  - repeat constructor.
  - destruct (Z.ltb_spec y x) as [Hlt|Hge].
    + constructor; [done|].
      rewrite insort_Permutation. constructor; [lia|done].
    + constructor; [by constructor|].
      constructor; [done|]. eapply Forall_impl; [exact Hall|].
      simpl. intros; lia.
Qed.

Lemma sorted_sorted xs : StronglySorted Z.le (sorted Z.ltb xs).
Proof.
  induction xs as [|x xs IH]; [constructor|]. by apply insort_sorted.
Qed.

Lemma sorted_strictly xs :
  StronglySorted Z.le xs → NoDup xs → StronglySorted Z.lt xs.
Proof.
  induction 1 as [|x xs Hsorted IH Hall]; [constructor|].
  intros [Hx Hnodup]%NoDup_cons. constructor; [by apply IH|].
  apply Forall_forall. intros y Hy.
  rewrite Forall_forall in Hall. specialize (Hall y Hy).
  assert (x ≠ y) by (by intros ->). lia.
Qed.

Lemma sorted_keys_strictly xs :
  NoDup xs → StronglySorted Z.lt (sorted Z.ltb xs).
Proof.
  intros Hnodup. apply sorted_strictly; [apply sorted_sorted|].
  by rewrite sorted_Permutation.
Qed.

Lemma filter_sorted (P : Z → Prop) `{∀ x, Decision (P x)} xs :
  StronglySorted Z.lt xs → StronglySorted Z.lt (filter P xs).
Proof.
  induction 1 as [|x xs Hsorted IH Hall]; [constructor|].
  rewrite filter_cons. case_decide; [|done].
  constructor; [done|]. apply Forall_forall.
  intros y [_ Hy]%list_elem_of_filter.
  rewrite Forall_forall in Hall. by apply Hall.
Qed.

Lemma getitem_inr_keys {V} (dv : dict V) k v :
  getitem dv k = inr v → k ∈ keys dv.
Proof.
  induction dv as [|[k' v'] dv IH]; [done|].
  rewrite keys_cons. simpl. destruct (Z.eqb_spec k' k) as [->|Hne].
  - intros _. by left.
  - intros Hget. right. by apply IH.
Qed.

(** The loop of [find_signal_buckets]: the buckets above the squelch in
    the order visited, each with the strength recorded for it. *)
Lemma find_signal_loop_eq d noise_floor ks : ∀ hs ss,
  (∀ k, k ∈ ks → k ∈ keys d) →
  ∃ vs, find_signal_loop d noise_floor ks hs ss
          = inr (hs ++ filter (λ k, above_squelch d noise_floor k = true) ks,
                 ss ++ vs) ∧
        Forall2 (λ k v, getitem d k = inr v)
          (filter (λ k, above_squelch d noise_floor k = true) ks) vs.
Proof.
  induction ks as [|k ks IH]; intros hs ss Hks; simpl.
  - exists []. by rewrite !app_nil_r.
  - destruct (getitem_keys d k) as [v Hv]; [apply Hks; by left|].
    assert (Hks' : ∀ k', k' ∈ ks → k' ∈ keys d)
      by (intros k' ?; apply Hks; by right).
    assert (Hk : above_squelch d noise_floor k
                 = PrimFloat.ltb (noise_floor + SQUELCH)%float v).
    { unfold above_squelch. by rewrite Hv. }
    rewrite Hv, filter_cons.
    destruct (PrimFloat.ltb _ v) eqn:Habove.
    + rewrite decide_True by done.
      destruct (IH (hs ++ [k]) (ss ++ [v]) Hks') as (vs & -> & Hpairs).
      exists (v :: vs). rewrite <- !app_assoc. split; [done|].
      by constructor.
    + rewrite decide_False by (by rewrite Hk). apply IH, Hks'.
Qed.

Lemma setitem_fresh {V} (dv : dict V) k v :
  k ∉ keys dv → setitem dv k v = dv ++ [(k, v)].
Proof.
  induction dv as [|[k' v'] dv IH]; [done|].
  rewrite keys_cons, not_elem_of_cons. intros [Hne Hk]. simpl.
  destruct (Z.eqb_spec k' k); [done|]. by rewrite IH.
Qed.

Lemma keys_app {V} (d1 d2 : dict V) : keys (d1 ++ d2) = keys d1 ++ keys d2.
Proof. unfold keys. apply fmap_app. Qed.

Lemma getitem_app_fresh {V} (d1 d2 : dict V) k :
  k ∉ keys d1 → getitem (d1 ++ d2) k = getitem d2 k.
Proof.
  induction d1 as [|[k' v'] d1 IH]; [done|].
  rewrite keys_cons, not_elem_of_cons. intros [Hne Hk]. simpl.
  destruct (Z.eqb_spec k' k); [done|]. by apply IH.
Qed.

Lemma omap_cons_eq {X Y} (g : X → option Y) x (l : list X) :
  omap g (x :: l)
    = match g x with Some y => y :: omap g l | None => omap g l end.
Proof. done. Qed.

Lemma keys_average_entries (measurements : gmap Z (list Measurement)) fs :
  keys (omap (average_entry measurements) fs)
    = filter (λ f, has_data measurements f = true) fs.
Proof.
  induction fs as [|f fs IH]; [done|].
  rewrite filter_cons, omap_cons_eq.
  destruct (average_entry measurements f) as [[f' v]|] eqn:Hentry.
  - unfold average_entry in Hentry.
    rewrite decide_True.
    + rewrite keys_cons, IH.
      destruct (measurements !! f) as [[|m ms]|]; congruence.
    + unfold has_data. by destruct (measurements !! f) as [[|m ms]|].
  - unfold average_entry in Hentry.
    rewrite decide_False; [done|].
    unfold has_data. by destruct (measurements !! f) as [[|m ms]|].
Qed.

(** The loop of lines 135-141, as the list of entries it appends. *)
Lemma average_loop_eq (measurements : gmap Z (list Measurement)) fs : ∀ d,
  (∀ f, f ∈ fs → f ∈ dom measurements) → NoDup fs →
  (∀ f, f ∈ fs → f ∉ keys d) →
  average_loop measurements fs d
    = inr (d ++ omap (average_entry measurements) fs).
Proof.
  induction fs as [|f fs IH]; intros d Hdom Hnodup Hfresh.
  - simpl. by rewrite app_nil_r.
  - apply NoDup_cons in Hnodup as [Hf Hnodup].
    assert (Hin : f ∈ dom measurements) by (apply Hdom; left).
    apply elem_of_dom in Hin as [ms Hms].
    rewrite omap_cons_eq. simpl average_loop.
    unfold average_entry at 1. rewrite Hms.
    assert (Hdom' : ∀ f', f' ∈ fs → f' ∈ dom measurements)
      by (intros f' ?; apply Hdom; by right).
    destruct ms as [|m ms]; simpl negb; cbv iota.
    + apply IH; [done..|]. intros f' ?. apply Hfresh. by right.
    + rewrite IH; [|done..|].
      * rewrite setitem_fresh by (apply Hfresh; left).
        by rewrite <- app_assoc.
      * intros f' Hf'. rewrite keys_setitem.
        rewrite decide_False by (apply Hfresh; left).
        intros [?| ->%list_elem_of_singleton]%elem_of_app; [|done].
        by eapply Hfresh; [right|].
Qed.

Lemma getitem_average_entries (measurements : gmap Z (list Measurement)) fs k :
  getitem (omap (average_entry measurements) fs) k =
    if decide (k ∈ fs) then
      match average_entry measurements k with
      | Some (_, v) => inr v
      | None => inl KeyError
      end
    else inl KeyError.
Proof.
  induction fs as [|f fs IH].
  - rewrite decide_False; [done|]. by intros ?%elem_of_nil.
  - rewrite omap_cons_eq. destruct (decide (k = f)) as [->|Hne].
    + rewrite decide_True by (by left).
      destruct (average_entry measurements f) as [[f' v]|] eqn:Hentry.
      * assert (f' = f) as ->.
        { unfold average_entry in Hentry.
          destruct (measurements !! f) as [[|m ms]|]; congruence. }
        simpl. by rewrite Z.eqb_refl.
      * rewrite IH. by case_decide.
    + assert (Hiff : k ∈ f :: fs ↔ k ∈ fs).
      { rewrite elem_of_cons. split; [by intros [?|?]|by right]. }
      rewrite (decide_ext _ _ _ _ Hiff).
      destruct (average_entry measurements f) as [[f' v]|] eqn:Hentry; [|done].
      assert (f' = f) as ->.
      { unfold average_entry in Hentry.
        destruct (measurements !! f) as [[|m ms]|]; congruence. }
      simpl. destruct (Z.eqb_spec f k); [congruence|done].
Qed.
End sorted_proofs.

(** X9. The averages computed by [analyze]: the loop never raises; the result
    has one entry for every bucket of the snapshot that holds at least one
    measurement, and none for the others; the keys are in ascending order;
    and an entry is the sum of the bucket's strengths divided by their
    number. *)
Theorem average_strengths_spec (measurements : gmap Z (list Measurement)) :
  ∃ d, average_strengths measurements = inr d ∧
       StronglySorted Z.lt (keys d) ∧
       ∀ k, getitem d k =
              match measurements !! k with
              | Some (m :: ms) =>
                  inr (fsum (db <$> m :: ms)
                       / float_of_nat (length (m :: ms)))%float
              | _ => inl KeyError
              end.
Proof.
  unfold average_strengths.
  set (fs := sorted Z.ltb (elements (dom measurements))).
  assert (Hfs : ∀ f, f ∈ fs ↔ f ∈ dom measurements).
  { intros f. unfold fs. by rewrite sorted_Permutation, elem_of_elements. }
  assert (Hnodup : NoDup fs).
  { unfold fs. rewrite sorted_Permutation. apply NoDup_elements. }
  exists (omap (average_entry measurements) fs).
  split; [|split].
  - rewrite average_loop_eq; [done| |done|].
    + intros f. apply Hfs.
    + intros f _ ?%elem_of_nil. done.
  - rewrite keys_average_entries. apply filter_sorted.
    apply sorted_keys_strictly, NoDup_elements.
  - intros k. rewrite getitem_average_entries. unfold average_entry.
    case_decide as Hk.
    + by destruct (measurements !! k) as [[|m ms]|].
    + rewrite Hfs in Hk. apply not_elem_of_dom in Hk. by rewrite Hk.
Qed.

(** X10. [find_signal_buckets] on a dict with distinct keys never raises; the
    buckets it returns are in ascending order, they are exactly the keys
    whose strength exceeds [noise_floor + SQUELCH], and the strengths
    returned are, position by position, those of the buckets returned. *)
Theorem find_signal_buckets_spec (d : dict float) (noise_floor : float) :
  NoDup (keys d) →
  ∃ hs ss, find_signal_buckets d noise_floor = inr (hs, ss) ∧
           StronglySorted Z.lt hs ∧
           (∀ k, k ∈ hs ↔ above_squelch d noise_floor k = true) ∧
           Forall2 (λ k v, getitem d k = inr v) hs ss.
Proof.
  intros Hnodup. unfold find_signal_buckets.
  destruct (find_signal_loop_eq d noise_floor (sorted Z.ltb (keys d)) [] [])
    as (vs & Hrun & Hpairs).
  { intros k. by rewrite sorted_Permutation. }
  rewrite !app_nil_l in Hrun.
  eexists _, vs. split; [exact Hrun|]. split; [|split; [|done]].
  - apply filter_sorted. by apply sorted_keys_strictly.
  - intros k. rewrite list_elem_of_filter, sorted_Permutation.
    split; [by intros [? _]|]. intros Habove. split; [done|].
    unfold above_squelch in Habove.
    destruct (getitem d k) as [e|v] eqn:Hget; [done|].
    by eapply getitem_inr_keys.
Qed.

Lemma find_signal_buckets_spec_witness :
  ∃ hs ss,
    find_signal_buckets
      [(2400000000, (-70)%float); (2401000000, (-50)%float)] (-72)%float
      = inr (hs, ss) ∧
    StronglySorted Z.lt hs ∧
    (∀ k, k ∈ hs ↔
          above_squelch [(2400000000, (-70)%float); (2401000000, (-50)%float)]
            (-72)%float k = true) ∧
    Forall2 (λ k v, getitem [(2400000000, (-70)%float);
                             (2401000000, (-50)%float)] k = inr v) hs ss.
Proof.
  apply (find_signal_buckets_spec
           [(2400000000, (-70)%float); (2401000000, (-50)%float)] (-72)%float).
  change (NoDup [2400000000; 2401000000]).
  apply NoDup_cons. split; [|apply NoDup_singleton].
  by intros ?%list_elem_of_singleton.
Defined.

(** ** The region merge, in full *)

Section merge_proofs.
Implicit Types (signal_ranges : list (Z * Z)) (i bound : nat) (hs : list Z).

(** Inside the list the inner loop never indexes past the end. *)
Lemma extend_region_ok signal_ranges bound i end_ :
  (i + 1 < length signal_ranges)%nat →
  (length signal_ranges ≤ i + bound)%nat →
  ∃ i' end', extend_region bound signal_ranges i end_ = Some (inr (i', end')) ∧
             (i ≤ i' < length signal_ranges)%nat.
Proof.
  revert i end_. induction bound as [|bound IH]; intros i end_ Hi Hlen; [lia|].
  simpl.
  destruct (lookup_lt_is_Some_2 signal_ranges i) as [a ->]; [lia|].
  destruct (lookup_lt_is_Some_2 signal_ranges (i + 1)) as [b ->]; [lia|].
  destruct (snd a =? fst b); [|eexists _, _; split; [done|lia]].
  destruct (Nat.leb_spec (length signal_ranges - 1) (i + 1)) as [?|Hmore].
  - eexists _, _; split; [done|lia].
  - destruct (IH (i + 1)%nat (fst b)) as (i' & end' & -> & Hi'); [lia|lia|].
    eexists _, _; split; [done|lia].
Qed.

Lemma collect_regions_ok signal_ranges bound i regions :
  (i + 1 < length signal_ranges)%nat →
  (length signal_ranges ≤ i + bound)%nat →
  ∃ regions', collect_regions bound signal_ranges i regions
                = Some (inr regions') ∧
              (length regions < length regions'
               ≤ length regions + (length signal_ranges - 1 - i))%nat.
Proof.
  revert i regions.
  induction bound as [|bound IH]; intros i regions Hi Hlen; [lia|].
  simpl.
  destruct (lookup_lt_is_Some_2 signal_ranges i) as [a ->]; [lia|].
  destruct (extend_region_ok signal_ranges (length signal_ranges) i (snd a))
    as (i' & end' & -> & Hi'); [lia|lia|].
  destruct (Nat.leb_spec (length signal_ranges - 1) (i' + 1)) as [?|Hmore].
  - eexists; split; [done|]. rewrite length_app. simpl. lia.
  - destruct (IH (i' + 1)%nat (regions ++ [(fst a, end')]))
      as (regions' & -> & Hregions'); [lia|lia|].
    eexists; split; [done|]. rewrite length_app in Hregions'. simpl in *. lia.
Qed.

Lemma lookup_ranges_KeyError (bucket_ranges : gmap Z (Z * Z)) hs e :
  lookup_ranges bucket_ranges hs = inl e → e = KeyError.
Proof.
  induction hs as [|f hs IH]; simpl; [done|].
  destruct (bucket_ranges !! f); [|by intros [= <-]].
  destruct (lookup_ranges bucket_ranges hs); [|done].
  intros [= <-]. by apply IH.
Qed.

Lemma lookup_ranges_missing (bucket_ranges : gmap Z (Z * Z)) hs :
  ¬ Forall (λ k, is_Some (bucket_ranges !! k)) hs →
  lookup_ranges bucket_ranges hs = inl KeyError.
Proof.
  intros Hmissing.
  destruct (lookup_ranges bucket_ranges hs) as [e|rs] eqn:Hrun.
  - by rewrite (lookup_ranges_KeyError _ _ _ Hrun).
  - exfalso. apply Hmissing. clear Hmissing. revert rs Hrun.
    induction hs as [|f hs IH]; intros rs; simpl; [constructor|].
    destruct (bucket_ranges !! f) as [r|] eqn:Hf; [|done].
    destruct (lookup_ranges bucket_ranges hs) as [e|rs'] eqn:Hrs; [done|].
    intros _. constructor; [by rewrite Hf|]. by eapply IH.
Qed.

Lemma lookup_ranges_uniform (bucket_ranges : gmap Z (Z * Z)) hs w :
  (∀ k, k ∈ hs → bucket_ranges !! k = Some (k, k + w)) →
  lookup_ranges bucket_ranges hs = inr ((λ k, (k, k + w)) <$> hs).
Proof.
  induction hs as [|f hs IH]; intros Hall; simpl; [done|].
  rewrite (Hall f) by (by left).
  rewrite IH; [done|]. intros k ?. apply Hall. by right.
Qed.

(** When every element abuts the next, the inner loop runs to the last
    position, and ends with the low edge found there. *)
Lemma extend_region_abutting signal_ranges bound i end_ :
  (∀ j a b, signal_ranges !! j = Some a → signal_ranges !! S j = Some b →
            snd a = fst b) →
  (i + 1 < length signal_ranges)%nat →
  (length signal_ranges ≤ i + bound)%nat →
  ∃ z, signal_ranges !! (length signal_ranges - 1)%nat = Some z ∧
       extend_region bound signal_ranges i end_
         = Some (inr ((length signal_ranges - 1)%nat, fst z)).
Proof.
  intros Habut. revert i end_.
  induction bound as [|bound IH]; intros i end_ Hi Hlen; [lia|].
  simpl.
  destruct (lookup_lt_is_Some_2 signal_ranges i) as [a Ha]; [lia|].
  destruct (lookup_lt_is_Some_2 signal_ranges (i + 1)) as [b Hb]; [lia|].
  rewrite Ha, Hb.
  assert (Hab : snd a = fst b).
  { apply (Habut i); [done|]. by rewrite Nat.add_1_r in Hb. }
  rewrite Hab, Z.eqb_refl.
  destruct (Nat.leb_spec (length signal_ranges - 1) (i + 1)) as [Hlast|Hmore].
  - assert (i + 1 = length signal_ranges - 1)%nat as Heq by lia.
    exists b. rewrite <- Heq. done.
  - apply IH; lia.
Qed.

Lemma collect_regions_abutting signal_ranges bound a :
  (∀ j x y, signal_ranges !! j = Some x → signal_ranges !! S j = Some y →
            snd x = fst y) →
  (1 < length signal_ranges)%nat → (0 < bound)%nat →
  signal_ranges !! 0%nat = Some a →
  ∃ z, signal_ranges !! (length signal_ranges - 1)%nat = Some z ∧
       collect_regions bound signal_ranges 0 []
         = Some (inr [(fst a, fst z)]).
Proof.
  intros Habut Hlen Hbound Ha.
  destruct bound as [|bound]; [lia|]. simpl. rewrite Ha.
  destruct (extend_region_abutting signal_ranges (length signal_ranges) 0
              (snd a) Habut) as (z & Hz & ->); [lia|lia|].
  exists z. split; [done|].
  by destruct (Nat.leb_spec (length signal_ranges - 1)
                 (length signal_ranges - 1 + 1)); [|lia].
Qed.

(** When the element at [i] does not abut the next, the inner loop leaves
    position and end as they are. *)
Lemma extend_region_apart signal_ranges bound i end_ a b :
  signal_ranges !! i = Some a → signal_ranges !! (i + 1)%nat = Some b →
  snd a ≠ fst b →
  extend_region (S bound) signal_ranges i end_ = Some (inr (i, end_)).
Proof.
  intros Ha Hb Hne. simpl. rewrite Ha, Hb.
  by destruct (Z.eqb_spec (snd a) (fst b)).
Qed.

Lemma collect_regions_apart signal_ranges bound : ∀ i regions,
  (∀ j a b, signal_ranges !! j = Some a → signal_ranges !! S j = Some b →
            snd a ≠ fst b) →
  (i + 1 < length signal_ranges)%nat →
  (length signal_ranges ≤ i + bound)%nat →
  collect_regions bound signal_ranges i regions
    = Some (inr (regions
                 ++ take (length signal_ranges - 1 - i) (drop i signal_ranges))).
Proof.
  induction bound as [|bound IH]; intros i regions Hapart Hi Hlen; [lia|].
  simpl.
  destruct (lookup_lt_is_Some_2 signal_ranges i) as [a Ha]; [lia|].
  destruct (lookup_lt_is_Some_2 signal_ranges (i + 1)) as [b Hb]; [lia|].
  rewrite Ha.
  destruct (length signal_ranges) as [|len'] eqn:Hlen'; [lia|].
  rewrite (extend_region_apart _ len' i (snd a) a b Ha Hb).
  2:{ apply (Hapart i); [done|]. by rewrite Nat.add_1_r in Hb. }
  rewrite <- Hlen'. rewrite (drop_S _ a i Ha).
  destruct a as [lo hi]. simpl fst. simpl snd.
  destruct (Nat.leb_spec (length signal_ranges - 1) (i + 1)) as [Hlast|Hmore].
  - replace (length signal_ranges - 1 - i)%nat with 1%nat by lia.
    done.
  - rewrite IH by (done || lia). rewrite <- Hlen'.
    replace (length signal_ranges - 1 - i)%nat
      with (S (length signal_ranges - 1 - (i + 1)))%nat by lia.
    simpl take. rewrite <- app_assoc. simpl.
    by rewrite Nat.add_1_r.
Qed.
End merge_proofs.

(** X11. [get_contiguous_regions] raises [KeyError] when an active bucket has no
    range, and otherwise returns: its loops end and never index past the
    list.  It returns no region for up to two active buckets, and for more
    at least one region and at most one fewer than there are active
    buckets. *)
Theorem get_contiguous_regions_cases
    (bucket_width : Z) (bucket_ranges : gmap Z (Z * Z))
    (hs : list Z) (ss : list float) :
  (Forall (λ k, is_Some (bucket_ranges !! k)) hs →
   ∃ regions,
     get_contiguous_regions bucket_width bucket_ranges hs ss
       = Some (inr regions) ∧
     (length regions ≤ length hs - 1)%nat ∧
     (regions = [] ↔ (length hs ≤ 2)%nat)) ∧
  (¬ Forall (λ k, is_Some (bucket_ranges !! k)) hs →
   get_contiguous_regions bucket_width bucket_ranges hs ss
     = Some (inl KeyError)).
Proof.
  unfold get_contiguous_regions. split.
  - intros Hall. rewrite Forall_forall in Hall.
    destruct (lookup_ranges_ok bucket_ranges hs Hall) as (rs & -> & Hrs).
    destruct (Nat.ltb_spec 2 (length rs)) as [Hmany|Hfew].
    + destruct (collect_regions_ok rs (length rs) 0 [])
        as (regions & -> & Hregions); [lia|lia|].
      exists regions. split; [done|]. simpl in Hregions.
      split; [lia|]. split; [|lia].
      intros ->. simpl in Hregions. lia.
    + exists []. split; [done|]. split; [simpl; lia|]. split; [lia|done].
  - intros Hmissing. by rewrite lookup_ranges_missing.
Qed.

Lemma get_contiguous_regions_cases_witness :
  ∃ regions,
    get_contiguous_regions 10 {[ 0 := (0, 10); 10 := (10, 20); 30 := (30, 40) ]}
      [0; 10; 30] [] = Some (inr regions) ∧
    (length regions ≤ length [0; 10; 30] - 1)%nat ∧
    (regions = [] ↔ (length [0; 10; 30] ≤ 2)%nat).
Proof.
  apply (proj1 (get_contiguous_regions_cases 10
                  {[ 0 := (0, 10); 10 := (10, 20); 30 := (30, 40) ]}
                  [0; 10; 30] [])).
  repeat constructor; by eexists.
Defined.

(** X12. A run of three or more active buckets, each starting where the
    previous one ends, gives the single region from the low edge of the
    first bucket to the low edge of the last one: the last bucket's own
    width is not part of the region. *)
Theorem adjacent_run_region
    (w : Z) (bucket_ranges : gmap Z (Z * Z)) (hs : list Z) (ss : list float)
    (first final : Z) :
  (2 < length hs)%nat →
  (∀ k, k ∈ hs → bucket_ranges !! k = Some (k, k + w)) →
  (∀ j a b, hs !! j = Some a → hs !! S j = Some b → b = a + w) →
  head hs = Some first → last hs = Some final →
  get_contiguous_regions w bucket_ranges hs ss = Some (inr [(first, final)]).
Proof.
  intros Hlen Hranges Hadjacent Hfirst Hfinal.
  unfold get_contiguous_regions.
  rewrite (lookup_ranges_uniform _ _ w Hranges).
  set (rs := (λ k, (k, k + w)) <$> hs).
  assert (Hrs : length rs = length hs) by apply length_fmap.
  rewrite Hrs. destruct (Nat.ltb_spec 2 (length hs)) as [_|?]; [|lia].
  assert (Habut : ∀ j a b, rs !! j = Some a → rs !! S j = Some b →
                           snd a = fst b).
  { intros j a b. unfold rs. rewrite !list_lookup_fmap.
    destruct (hs !! j) as [x|] eqn:Hx; [|done].
    destruct (hs !! S j) as [y|] eqn:Hy; [|done].
    intros [= <-] [= <-]. simpl. symmetry. by eapply Hadjacent. }
  assert (Hhead : rs !! 0%nat = Some (first, first + w)).
  { unfold rs. by rewrite list_lookup_fmap, <- head_lookup, Hfirst. }
  destruct (collect_regions_abutting rs (length hs) (first, first + w) Habut)
    as (z & Hz & ->); [lia|lia|exact Hhead|].
  unfold rs in Hz. rewrite list_lookup_fmap, length_fmap in Hz.
  rewrite last_lookup in Hfinal.
  replace (Init.Nat.pred (length hs)) with (length hs - 1)%nat in Hfinal by lia.
  rewrite Hfinal in Hz. by injection Hz as <-.
Qed.

Lemma adjacent_run_region_witness :
  get_contiguous_regions 10
    {[ 0 := (0, 10); 10 := (10, 20); 20 := (20, 30); 30 := (30, 40) ]}
    [0; 10; 20; 30] [] = Some (inr [(0, 30)]).
Proof.
  apply (adjacent_run_region 10
           {[ 0 := (0, 10); 10 := (10, 20); 20 := (20, 30); 30 := (30, 40) ]}
           [0; 10; 20; 30] [] 0 30).
  - simpl. lia.
  - intros k Hk. repeat (apply elem_of_cons in Hk as [->|Hk]; [done|]).
    by apply elem_of_nil in Hk.
  - intros [|[|[|[|j]]]] a b; simpl; intros [= <-] [= <-]; done.
  - done.
  - done.
Defined.

(** X13. Three or more active buckets of width [w] none of which starts where
    the previous one ends: every active bucket but the last is reported as
    a region of its own, and the last one is not reported. *)
Theorem isolated_buckets_regions
    (w : Z) (bucket_ranges : gmap Z (Z * Z)) (hs : list Z) (ss : list float) :
  (2 < length hs)%nat →
  (∀ k, k ∈ hs → bucket_ranges !! k = Some (k, k + w)) →
  (∀ j a b, hs !! j = Some a → hs !! S j = Some b → b ≠ a + w) →
  get_contiguous_regions w bucket_ranges hs ss
    = Some (inr ((λ k, (k, k + w)) <$> take (length hs - 1) hs)).
Proof.
  intros Hlen Hranges Hapart. unfold get_contiguous_regions.
  rewrite (lookup_ranges_uniform _ _ w Hranges), length_fmap.
  destruct (Nat.ltb_spec 2 (length hs)) as [_|?]; [|lia].
  rewrite collect_regions_apart.
  - by rewrite app_nil_l, drop_0, length_fmap, Nat.sub_0_r, fmap_take.
  - intros j a b. rewrite !list_lookup_fmap.
    destruct (hs !! j) as [x|] eqn:Hx; [|done].
    destruct (hs !! S j) as [y|] eqn:Hy; [|done].
    intros [= <-] [= <-]. simpl. intros Heq.
    by apply (Hapart j x y).
  - rewrite length_fmap. lia.
  - rewrite length_fmap. lia.
Qed.

Lemma isolated_buckets_regions_witness :
  get_contiguous_regions 10
    {[ 0 := (0, 10); 20 := (20, 30); 40 := (40, 50) ]} [0; 20; 40] []
    = Some (inr ((λ k, (k, k + 10)) <$> take (length [0; 20; 40] - 1)
                                          [0; 20; 40])).
Proof.
  apply (isolated_buckets_regions 10
           {[ 0 := (0, 10); 20 := (20, 30); 40 := (40, 50) ]} [0; 20; 40] []).
  - simpl. lia.
  - intros k Hk. repeat (apply elem_of_cons in Hk as [->|Hk]; [done|]).
    by apply elem_of_nil in Hk.
  - intros [|[|[|j]]] a b; simpl; intros [= <-] [= <-]; done.
Defined.

(** ** How [analyze] can end *)

Section outcome_proofs.
Implicit Types (s : SignalStore).

Lemma get_contiguous_regions_returns bucket_width
    (bucket_ranges : gmap Z (Z * Z)) (hs : list Z) (ss : list float) :
  (∀ k, k ∈ hs → is_Some (bucket_ranges !! k)) →
  ∃ regions, get_contiguous_regions bucket_width bucket_ranges hs ss
               = Some (inr regions).
Proof.
  intros Hall. unfold get_contiguous_regions.
  destruct (lookup_ranges_ok bucket_ranges hs Hall) as (rs & -> & Hrs).
  destruct (Nat.ltb_spec 2 (length rs)) as [Hmany|Hfew]; [|by eexists].
  destruct (collect_regions_ok rs (length rs) 0 [])
    as (regions & -> & _); [lia|lia|]. by eexists.
Qed.

Lemma find_signal_buckets_returns (d : dict float) noise_floor :
  ∃ hs ss, find_signal_buckets d noise_floor = inr (hs, ss).
Proof.
  unfold find_signal_buckets.
  destruct (find_signal_loop_ok d noise_floor (sorted Z.ltb (keys d)) [] [])
    as (hs & ss & -> & _); [|by eexists _, _].
  intros k. by rewrite sorted_Permutation.
Qed.

(** With four or more buckets holding data, the analysis goes as far as
    asking for the bucket width, and from there to the verdict. *)
Lemma analyze_from_four s :
  config_skip_analysis s = false →
  (4 ≤ buckets_with_data (snapshot s))%nat →
  if truthy_opt (_bucket_width s)
  then ∃ r, snd (analyze s) = Some (inr (Printed r))
  else snd (analyze s) = Some (inl Exception).
Proof.
  intros Hskip Hmany.
  destruct (average_strengths_ok (snapshot s)) as (d & Havg & Hlen).
  pose proof (compute_noise_floor_cases d) as Hfloor.
  rewrite Hlen, decide_False in Hfloor by lia.
  destruct Hfloor as [noise_floor Hfloor].
  destruct (find_signal_buckets_returns d noise_floor) as (hs & ss & Hsig).
  unfold analyze.
  rewrite Hskip, get_measurements_copy_eq, Havg, Hfloor, Hsig.
  unfold get_bucket_width, bind, self, ret, raise, truthy_opt.
  destruct (_bucket_width s) as [w|]; [|done].
  destruct (truthy w); [|done].
  destruct (get_contiguous_regions_returns w (make_bucket_ranges w d) hs ss)
    as [regions ->].
  { intros k Hk. apply make_bucket_ranges_lookup.
    by eapply find_signal_buckets_keys. }
  by eexists.
Qed.
End outcome_proofs.

(** X15. The ways [analyze] can end.  With [skip_analysis] set it returns at
    once.  Otherwise, with fewer than four buckets holding data the
    division of the noise floor raises [ZeroDivisionError]; with four or
    more and no known bucket width, [get_bucket_width] raises [Exception];
    with four or more and a known width it reaches its verdict.  It never
    raises [KeyError] or [IndexError], and its loops always end. *)
Theorem analyze_outcomes (s : SignalStore) :
  (config_skip_analysis s = true → snd (analyze s) = Some (inr Skipped)) ∧
  (config_skip_analysis s = false →
   (buckets_with_data (snapshot s) < 4)%nat →
   snd (analyze s) = Some (inl ZeroDivisionError)) ∧
  (config_skip_analysis s = false →
   (4 ≤ buckets_with_data (snapshot s))%nat →
   truthy_opt (_bucket_width s) = false →
   snd (analyze s) = Some (inl Exception)) ∧
  (config_skip_analysis s = false →
   (4 ≤ buckets_with_data (snapshot s))%nat →
   truthy_opt (_bucket_width s) = true →
   ∃ r, snd (analyze s) = Some (inr (Printed r))).
Proof.
  split; [|split; [|split]].
  - intros Hskip. unfold analyze. by rewrite Hskip.
  - intros Hskip Hfew.
    destruct (average_strengths_ok (snapshot s)) as (d & Havg & Hlen).
    pose proof (compute_noise_floor_cases d) as Hfloor.
    rewrite Hlen, decide_True in Hfloor by done.
    unfold analyze. by rewrite Hskip, get_measurements_copy_eq, Havg, Hfloor.
  - intros Hskip Hmany Hwidth.
    pose proof (analyze_from_four s Hskip Hmany) as Hrun.
    by rewrite Hwidth in Hrun.
  - intros Hskip Hmany Hwidth.
    pose proof (analyze_from_four s Hskip Hmany) as Hrun.
    by rewrite Hwidth in Hrun.
Qed.

Lemma analyze_outcomes_witness :
  (∃ r, snd (analyze lone_bucket_store) = Some (inr (Printed r))) ∧
  snd (analyze (set_bucket_width None lone_bucket_store))
    = Some (inl Exception).
Proof.
  split.
  - apply (analyze_outcomes lone_bucket_store); vm_compute; done || lia.
  - apply (analyze_outcomes (set_bucket_width None lone_bucket_store));
      vm_compute; done || lia.
Defined.

Lemma analyze_verdict_witness :
  drone_regions
    (mk_report (-72.5)%float [2403000000; 2404000000; 2405000000]
       [(-50)%float; (-51)%float; (-52)%float]
       [(2403000000, 2405000000)] [(2403000000, 2405000000)] true)
    = get_drone_regions [(2403000000, 2405000000)] ∧
  (true = true ↔
   Exists (λ reg, BANDWIDTH_THRESHOLD < snd reg - fst reg)
     [(2403000000, 2405000000)]).
Proof.
  apply (analyze_verdict narrow_signal_store
           (mk_report (-72.5)%float [2403000000; 2404000000; 2405000000]
              [(-50)%float; (-51)%float; (-52)%float]
              [(2403000000, 2405000000)] [(2403000000, 2405000000)] true)).
  by vm_compute.
Defined.

(** ** The decoder: [to_measurements] *)

Section decoder_proofs.
Import HackSweepLine.
Implicit Types (self : HackSweepLine.t) (fs : list Z).

(** The loop of lines 199-202: one measurement per frequency, with the
    samples taken in order from position [i]; [IndexError] when they run
    out. *)
Lemma build_eq self w fs : ∀ i acc,
  (i ≤ length (samples self))%nat →
  build self w fs i acc =
    if decide (i + length fs ≤ length (samples self))%nat then
      inr (acc ++ zip_with (λ f d, mk_Measurement (datetime self) f (f + w) d)
                    fs (drop i (samples self)))
    else inl (Raised IndexError).
Proof.
  induction fs as [|f fs IH]; intros i acc Hi'; simpl.
  - rewrite decide_True, app_nil_r by lia. done.
  - destruct (samples self !! i) as [d|] eqn:Hd.
    + apply lookup_lt_Some in Hd as Hi. rewrite IH by lia.
      rewrite (drop_S _ d i Hd). simpl.
      replace (i + 1)%nat with (S i) by lia.
      case_decide; case_decide; try lia; [|done].
      by rewrite <- app_assoc.
    + apply lookup_ge_None in Hd. rewrite decide_False by lia. done.
Qed.

Lemma range_ascending (start stop step : Z) :
  0 < step →
  range start stop step =
    inr ((λ i, start + Z.of_nat i * step)
           <$> seq 0 (Z.to_nat (if start <? stop
                                then 1 + (stop - 1 - start) / step else 0))).
Proof.
  intros Hstep. unfold range.
  destruct (Z.eqb_spec step 0); [lia|].
  destruct (Z.ltb_spec 0 step); [done|lia].
Qed.
End decoder_proofs.

(** X16. [to_measurements] on a line whose bin width is a positive whole
    number (and whose conversions between int and float succeed): it
    raises [IndexError] when the line has fewer samples than buckets;
    otherwise it returns one measurement per bucket, where the buckets start
    at [hz_low] and follow each other in steps of the bin width for as long
    as they start below [hz_high].  Every measurement carries the line's
    timestamp and its own sample, the keys are distinct, and the batch is
    empty exactly when [hz_high <= hz_low].  Whether the bin width divides
    [hz_high - hz_low] is not checked: the last bucket may end above
    [hz_high]. *)
Theorem to_measurements_decodes
    (self : HackSweepLine.t) (quotient : float) (num_buckets w : Z) :
  HackSweepLine.int_truediv
    (HackSweepLine.hz_high self - HackSweepLine.hz_low self)
    (HackSweepLine.hz_bin_width self) = inr quotient →
  HackSweepLine.int_of_float quotient = inr num_buckets →
  HackSweepLine.int_of_float (HackSweepLine.hz_bin_width self) = inr w →
  HackSweepLine.int_ne_float w (HackSweepLine.hz_bin_width self) = false →
  0 < w →
  let n := Z.to_nat
             (if HackSweepLine.hz_low self <? HackSweepLine.hz_high self
              then 1 + (HackSweepLine.hz_high self - 1
                        - HackSweepLine.hz_low self) / w
              else 0) in
  if decide (n ≤ length (HackSweepLine.samples self))%nat then
    ∃ ms, HackSweepLine.to_measurements self = inr ms ∧
          length ms = n ∧
          (∀ i m, ms !! i = Some m →
             datetime m = HackSweepLine.datetime self ∧
             hz_low m = HackSweepLine.hz_low self + Z.of_nat i * w ∧
             hz_high m = hz_low m + w ∧
             hz_low m < HackSweepLine.hz_high self ∧
             HackSweepLine.samples self !! i = Some (db m)) ∧
          NoDup (hz_low <$> ms) ∧
          (ms = [] ↔ HackSweepLine.hz_high self ≤ HackSweepLine.hz_low self)
  else HackSweepLine.to_measurements self
         = inl (HackSweepLine.Raised IndexError).
Proof.
  intros Hdiv Hquot Hwidth Hint Hw n.
  unfold HackSweepLine.to_measurements.
  rewrite Hdiv, Hquot, Hwidth, Hint, (range_ascending _ _ _ Hw).
  rewrite build_eq by lia.
  fold n. rewrite length_fmap, length_seq, Nat.add_0_l, drop_0, app_nil_l.
  case_decide as Hn; [|done].
  eexists. split; [done|].
  set (ms := zip_with _ _ _).
  assert (Hlen : length ms = n).
  { unfold ms. rewrite length_zip_with, length_fmap, length_seq. lia. }
  assert (Hlookup : ∀ i m, ms !! i = Some m →
            datetime m = HackSweepLine.datetime self ∧
            hz_low m = HackSweepLine.hz_low self + Z.of_nat i * w ∧
            hz_high m = hz_low m + w ∧
            HackSweepLine.samples self !! i = Some (db m) ∧ (i < n)%nat).
  { intros i m. unfold ms. rewrite lookup_zip_with_Some.
    intros (f & d & -> & Hf & Hd). simpl.
    rewrite list_lookup_fmap in Hf.
    destruct (seq 0 n !! i) as [j|] eqn:Hj; [|done].
    apply lookup_seq in Hj as [-> Hi]. simpl in Hf. injection Hf as <-.
    done. }
  split; [done|]. split; [|split].
  - intros i m Him. destruct (Hlookup i m Him) as (? & Hlo & ? & ? & Hi).
    repeat (split; [done|]). split; [|done].
    rewrite Hlo. unfold n in Hi.
    destruct (Z.ltb_spec (HackSweepLine.hz_low self)
                (HackSweepLine.hz_high self)) as [Hlt|?]; [|simpl in Hi; lia].
    assert (Z.of_nat i ≤ (HackSweepLine.hz_high self - 1
                          - HackSweepLine.hz_low self) / w) by lia.
    assert (Z.of_nat i * w ≤ HackSweepLine.hz_high self - 1
                             - HackSweepLine.hz_low self); [|lia].
    etrans; [apply Z.mul_le_mono_nonneg_r; [lia|eassumption]|].
    rewrite Z.mul_comm. apply Z.mul_div_le. lia.
  - apply NoDup_alt. intros i j k. rewrite !list_lookup_fmap.
    destruct (ms !! i) as [mi|] eqn:Hmi; [|done].
    destruct (ms !! j) as [mj|] eqn:Hmj; [|done].
    intros [= <-] [= Heq].
    destruct (Hlookup i mi Hmi) as (_ & Hi & _).
    destruct (Hlookup j mj Hmj) as (_ & Hj & _).
    rewrite Hi, Hj in Heq. nia.
  - rewrite <- length_zero_iff_nil, Hlen. unfold n.
    destruct (Z.ltb_spec (HackSweepLine.hz_low self)
                (HackSweepLine.hz_high self)) as [Hlt|Hge]; [|simpl; lia].
    assert (0 ≤ (HackSweepLine.hz_high self - 1
                 - HackSweepLine.hz_low self) / w)
      by (apply Z.div_pos; lia).
    lia.
Qed.

Lemma to_measurements_decodes_witness :
  ∃ ms, HackSweepLine.to_measurements
          (HackSweepLine.mk 0 2400000000 2402500000 1000000%float 3
             [(-70)%float; (-71)%float; (-72)%float]) = inr ms ∧
        length ms = 3%nat ∧
        (∀ i m, ms !! i = Some m →
           datetime m = 0 ∧
           hz_low m = 2400000000 + Z.of_nat i * 1000000 ∧
           hz_high m = hz_low m + 1000000 ∧
           hz_low m < 2402500000 ∧
           [(-70)%float; (-71)%float; (-72)%float] !! i = Some (db m)) ∧
        NoDup (hz_low <$> ms) ∧
        (ms = [] ↔ 2402500000 ≤ 2400000000).
Proof.
  apply (to_measurements_decodes
           (HackSweepLine.mk 0 2400000000 2402500000 1000000%float 3
              [(-70)%float; (-71)%float; (-72)%float])
           2.5%float 2 1000000); try reflexivity.
Defined.

(** ** The driver loop: [handle_input] *)

Section driver_proofs.
Implicit Types (lines : list HackSweepLine.t) (s store : SignalStore)
  (launched : list SignalStore).

(** From the second line on: launches are of warmed stores, one at most
    for every line whose timestamp differs from the previous line's. *)
Lemma handle_input_loop_launches lines : ∀ store l launched store' launched' err,
  handle_input_loop lines store (Some l) launched = (store', launched', err) →
  ∃ new, launched' = launched ++ new ∧
         Forall (λ s, is_warmed_up s = true) new ∧
         (length new ≤ second_boundaries l lines)%nat.
Proof.
  induction lines as [|hsl lines IH];
    intros store l launched store' launched' err; simpl.
  - intros [= <- <- <-]. exists []. by rewrite app_nil_r.
  - destruct (HackSweepLine.to_measurements hsl) as [e|ms].
    { intros [= <- <- <-]. exists []. rewrite app_nil_r.
      split; [done|]. split; [constructor|simpl; lia]. }
    destruct (add_measurements ms store) as [store1 [e|[]]].
    { intros [= <- <- <-]. exists []. rewrite app_nil_r.
      split; [done|]. split; [constructor|simpl; lia]. }
    destruct (Z.eqb_spec (HackSweepLine.datetime hsl) l) as [->|Hne]; simpl.
    + intros Hrun. destruct (IH _ _ _ _ _ _ Hrun) as (new & -> & Hw & Hlen).
      exists new. split; [done|]. split; [done|lia].
    + destruct (is_warmed_up store1) eqn:Hwarm.
      * intros Hrun. destruct (IH _ _ _ _ _ _ Hrun) as (new & -> & Hw & Hlen).
        exists (store1 :: new). rewrite <- app_assoc. split; [done|].
        split; [by constructor|simpl; lia].
      * intros Hrun. destruct (IH _ _ _ _ _ _ Hrun) as (new & -> & Hw & Hlen).
        exists new. split; [done|]. split; [done|lia].
Qed.

(** The loop while the store cannot leave the calibration: nothing is
    launched. *)
Lemma loop_stays_quiet (ms : list Measurement) s :
  is_warmed_up s = false → _warmup_resize_ringbufs s = false →
  Forall (λ m, datetime m - _warmup_first_datetime s ≤ 1) ms →
  is_warmed_up (fst (for_each ms (λ m, warmup_count m ;> route m) s)) = false ∧
  _warmup_resize_ringbufs
    (fst (for_each ms (λ m, warmup_count m ;> route m) s)) = false.
Proof.
  revert s. induction ms as [|m ms IH]; intros s Hw Hflag Hclose; [done|].
  apply Forall_cons in Hclose as [Hm Hclose].
  rewrite loop_cons.
  destruct (route_frame m (counted m s)) as (r & Hr & _).
  destruct (counted_calibrating m s Hw) as [_ Hf].
  pose proof (settings_counted m s) as (_ & _ & _ & Hw1 & _ & He1)%settings_inv.
  assert (Hquiet : past_one_second (_warmup_bucket_frequency s)
                     (_warmup_first_datetime s) m = false).
  { unfold past_one_second.
    destruct (Z.gtb_spec (datetime m - _warmup_first_datetime s) 1); [lia|].
    apply andb_false_r. }
  rewrite Hflag, Hquiet in Hf.
  destruct (route m (counted m s)) as [s1 [e|[]]]; simpl in Hr; subst s1.
  - simpl. split; [by rewrite <- Hw|done].
  - apply IH; simpl.
    + unfold is_warmed_up in *. congruence.
    + done.
    + by rewrite He1.
Qed.

Lemma call_stays_quiet (t0 : Z) (b : list Measurement) s :
  is_warmed_up s = false → _warmup_resize_ringbufs s = false →
  _warmup_bucket_frequency s = 0 ∨ t0 ≤ _warmup_first_datetime s →
  Forall (λ m, t0 ≤ datetime m ≤ t0 + 1) b →
  is_warmed_up (fst (add_measurements b s)) = false ∧
  _warmup_resize_ringbufs (fst (add_measurements b s)) = false ∧
  (_warmup_bucket_frequency (fst (add_measurements b s)) = 0
   ∨ t0 ≤ _warmup_first_datetime (fst (add_measurements b s))).
Proof.
  intros Hw Hflag Hepoch Hwindow.
  assert (Hres : ∀ s', is_warmed_up s' = false →
            _warmup_resize_ringbufs s' = false → resized s' = s').
  { intros s' Hw' Hf'. unfold resized. by rewrite Hw', Hf'. }
  destruct b as [|m ms].
  - rewrite add_measurements_nil. destruct (_ || _); [done|].
    by rewrite Hres.
  - destruct (call_reference m ms s) as [Hfreq Hep].
    rewrite add_measurements_cons in *.
    destruct (noted_calibration m s) as (Hw0 & _ & _ & Hf0 & _).
    rewrite Hres in * by congruence.
    assert (Hnoted : t0 ≤ _warmup_first_datetime (noted m s)).
    { destruct (noted_reference m s) as [Hzero Hset].
      apply Forall_cons in Hwindow as [Hm _].
      destruct (decide (_warmup_bucket_frequency s = 0)) as [H0|Hne].
      - destruct (Hzero H0) as [_ ->]. lia.
      - destruct (Hset Hne) as [_ ->]. by destruct Hepoch. }
    destruct (loop_stays_quiet (m :: ms) (noted m s)) as [Hw' Hf']; [congruence..| |].
    { eapply Forall_impl; [exact Hwindow|]. simpl. intros; lia. }
    split; [done|]. split; [done|]. right. by rewrite Hep.
Qed.

Lemma to_measurements_datetime (hsl : HackSweepLine.t) ms :
  HackSweepLine.to_measurements hsl = inr ms →
  Forall (λ m, datetime m = HackSweepLine.datetime hsl) ms.
Proof.
  unfold HackSweepLine.to_measurements.
  destruct (HackSweepLine.int_truediv _ _) as [|quotient]; [done|].
  destruct (HackSweepLine.int_of_float _) as [|num_buckets]; [done|].
  destruct (HackSweepLine.int_of_float _) as [|w]; [done|].
  destruct (HackSweepLine.int_ne_float _ _); [done|].
  destruct (HackSweepLine.range _ _ _) as [|fs]; [done|].
  assert (Hgen : ∀ i acc ms',
    Forall (λ m, datetime m = HackSweepLine.datetime hsl) acc →
    HackSweepLine.build hsl w fs i acc = inr ms' →
    Forall (λ m, datetime m = HackSweepLine.datetime hsl) ms').
  { induction fs as [|f fs IH]; intros i acc ms' Hacc; simpl.
    - by intros [= <-].
    - destruct (HackSweepLine.samples hsl !! i); [|done].
      apply IH. apply Forall_app. split; [done|]. by repeat constructor. }
  apply Hgen. constructor.
Qed.

Lemma handle_input_loop_quiet (t0 : Z) lines :
  ∀ store last launched store' launched' err,
  is_warmed_up store = false → _warmup_resize_ringbufs store = false →
  _warmup_bucket_frequency store = 0 ∨ t0 ≤ _warmup_first_datetime store →
  Forall (λ hsl, t0 ≤ HackSweepLine.datetime hsl ≤ t0 + 1) lines →
  handle_input_loop lines store last launched = (store', launched', err) →
  launched' = launched.
Proof.
  induction lines as [|hsl lines IH];
    intros store last launched store' launched' err Hw Hflag Hepoch Hwindow;
    simpl.
  - by intros [= <- <- <-].
  - apply Forall_cons in Hwindow as [Hhsl Hwindow].
    destruct (HackSweepLine.to_measurements hsl) as [e|ms] eqn:Hdecode;
      [by intros [= <- <- <-]|].
    destruct (call_stays_quiet t0 ms store Hw Hflag Hepoch)
      as (Hw1 & Hflag1 & Hepoch1).
    { eapply Forall_impl; [exact (to_measurements_datetime _ _ Hdecode)|].
      simpl. intros m ->. done. }
    destruct (add_measurements ms store) as [store1 [e|[]]]; simpl in *;
      [by intros [= <- <- <-]|].
    rewrite Hw1. destruct (match _ with Some _ => _ | None => _ end);
      by apply IH.
Qed.
End driver_proofs.

(** X17. Whatever the input and wherever the loop ends, every store an
    analysis was launched on is warmed, and there are at most as many
    launches as there are lines whose timestamp differs from that of the
    line before; the first line launches none. *)
Theorem handle_input_launches
    (lines : list HackSweepLine.t) (store store' : SignalStore)
    (launched : list SignalStore) (err : option HackSweepLine.error) :
  handle_input lines store = (store', launched, err) →
  Forall (λ s, is_warmed_up s = true) launched ∧
  (length launched
     ≤ second_boundaries
         (default 0%Z (HackSweepLine.datetime <$> head lines)) lines)%nat.
Proof.
  unfold handle_input. destruct lines as [|hsl lines]; simpl.
  - intros [= <- <- <-]. split; [constructor|done].
  - destruct (HackSweepLine.to_measurements hsl) as [e|ms].
    { intros [= <- <- <-]. split; [constructor|simpl; lia]. }
    destruct (add_measurements ms store) as [store1 [e|[]]].
    { intros [= <- <- <-]. split; [constructor|simpl; lia]. }
    rewrite Z.eqb_refl. simpl. intros Hrun.
    destruct (handle_input_loop_launches _ _ _ _ _ _ _ Hrun)
      as (new & -> & Hw & Hlen).
    split; [done|]. simpl. lia.
Qed.

(** X18. On a fresh store, no analysis is launched as long as every line's
    timestamp lies within one second of the first: the warmup needs a
    reading of the reference bucket more than one second after the first
    one. *)
Theorem handle_input_first_second
    (skip : bool) (t0 : Z) (lines : list HackSweepLine.t)
    (store' : SignalStore) (launched : list SignalStore)
    (err : option HackSweepLine.error) :
  Forall (λ hsl, t0 ≤ HackSweepLine.datetime hsl ≤ t0 + 1) lines →
  handle_input lines (SignalStore_init skip) = (store', launched, err) →
  launched = [] ∧ is_warmed_up store' = false.
Proof.
  intros Hwindow Hrun. split.
  - eapply (handle_input_loop_quiet t0); [| | |exact Hwindow|exact Hrun];
      [done|done|by left].
  - revert Hrun. unfold handle_input.
    generalize (@nil SignalStore) at 1. generalize (@None Z).
    assert (Hinit : is_warmed_up (SignalStore_init skip) = false
                    ∧ _warmup_resize_ringbufs (SignalStore_init skip) = false
                    ∧ (_warmup_bucket_frequency (SignalStore_init skip) = 0
                       ∨ t0 ≤ _warmup_first_datetime (SignalStore_init skip)))
      by (split; [done|split; [done|by left]]).
    revert Hinit. generalize (SignalStore_init skip).
    induction lines as [|hsl lines IH];
      intros store (Hw & Hflag & Hepoch) last acc; simpl.
    + by intros [= <- _ _].
    + apply Forall_cons in Hwindow as [Hhsl Hwindow].
      destruct (HackSweepLine.to_measurements hsl) as [e|ms] eqn:Hdecode;
        [by intros [= <- _ _]|].
      destruct (call_stays_quiet t0 ms store Hw Hflag Hepoch)
        as (Hw1 & Hflag1 & Hepoch1).
      { eapply Forall_impl; [exact (to_measurements_datetime _ _ Hdecode)|].
        simpl. intros m ->. done. }
      destruct (add_measurements ms store) as [store1 [e|[]]]; simpl in *;
        [by intros [= <- _ _]|].
      rewrite Hw1. destruct (match _ with Some _ => _ | None => _ end);
        by apply IH.
Qed.

Lemma handle_input_result (lines : list HackSweepLine.t) (store : SignalStore) :
  handle_input lines store
    = (fst (fst (handle_input lines store)),
       snd (fst (handle_input lines store)),
       snd (handle_input lines store)).
Proof. by destruct (handle_input lines store) as [[? ?] ?]. Qed.

(** Lines at seconds 0, 2, 3, 3 and 4: the third line completes the warmup
    and starts a new second, and so does the fifth. *)
Lemma handle_input_launches_witness :
  Forall (λ s, is_warmed_up s = true)
    (snd (fst (handle_input four_seconds (SignalStore_init false)))) ∧
  (length (snd (fst (handle_input four_seconds (SignalStore_init false))))
     ≤ second_boundaries
         (default 0%Z (HackSweepLine.datetime <$> head four_seconds))
         four_seconds)%nat.
Proof.
  apply (handle_input_launches four_seconds (SignalStore_init false)
           (fst (fst (handle_input four_seconds (SignalStore_init false))))
           (snd (fst (handle_input four_seconds (SignalStore_init false))))
           (snd (handle_input four_seconds (SignalStore_init false)))).
  apply handle_input_result.
Defined.

Lemma handle_input_first_second_witness :
  snd (fst (handle_input [parsed_line 0; parsed_line 1; parsed_line 1]
              (SignalStore_init false))) = [] ∧
  is_warmed_up
    (fst (fst (handle_input [parsed_line 0; parsed_line 1; parsed_line 1]
                 (SignalStore_init false)))) = false.
Proof.
  apply (handle_input_first_second false 0
           [parsed_line 0; parsed_line 1; parsed_line 1]
           (fst (fst (handle_input [parsed_line 0; parsed_line 1; parsed_line 1]
                        (SignalStore_init false))))
           (snd (fst (handle_input [parsed_line 0; parsed_line 1; parsed_line 1]
                        (SignalStore_init false))))
           (snd (handle_input [parsed_line 0; parsed_line 1; parsed_line 1]
                   (SignalStore_init false)))).
  - repeat constructor; simpl; lia.
  - apply handle_input_result.
Defined.
